(** * pretty-trip: scenic-weighted shortest paths over a road network

    The repository is one notebook, [start-here.ipynb].  It declares two
    tables ([dc_osm], [location_beauty]), asks the database engine to build
    a graph whose edge weights are given by one SQL expression, and asks the
    engine for a shortest path between two coordinates.

    What the notebook itself contains is embedded as it is written: the
    table columns, the weight expression, and the arguments and options of
    the two calls [create_graph] and [solve_graph].  What the notebook only
    calls (street-light attribution, node merging, snapping, the shortest
    path search) is not in the repository; those parts are modelled from the
    specification and each such definition says so. *)

From Stdlib Require Import List ZArith QArith Qabs Qminmax Lia Lqa Bool.
From Stdlib Require Import String.
From Stdlib Require Import Permutation Relations PeanoNat.
Import ListNotations.

Open Scope Q_scope.

(* ================================================================== *)
(** * 1. Data model: the tables of the notebook *)
(* ================================================================== *)

(** A coordinate pair [(lon, lat)]; a WKT LINESTRING is the ordered list of
    its vertices.  DOUBLE columns are read as exact rationals. *)
Definition point : Type := (Q * Q)%type.
Definition linestring : Type := list point.

(** One record of [pretty_trip.osm_small]: the columns of
    [CREATE TABLE "pretty_trip"."dc_osm"], plus the [light] column that the
    weight expression reads.  [name] and [ref] are the nullable columns of
    the DDL; [light] has no NOT NULL declaration in the notebook either. *)
Record osm_row : Type := {
  WKT      : linestring;
  osm_id   : Z;
  code     : Z;
  fclass   : string;
  name     : option string;
  ref      : option string;
  oneway   : string;
  maxspeed : Z;
  layer    : Z;
  bridge   : string;
  tunnel   : string;
  light    : option Q
}.

(** One record of [pretty_trip.location_beauty]. *)
Record beauty_row : Type := {
  longitude : Q;
  latitude  : Q;
  beauty    : Q
}.

(* ================================================================== *)
(** * 2. SQL scalar expressions *)
(* ================================================================== *)

(** A scalar SQL value is a number or has no numeric value: [None] stands
    for NULL and for the outcome of a division by zero.  Arithmetic
    propagates [None]. *)
Module Sql.

Definition value : Type := option Q.

Definition int (z : Z) : value := Some (inject_Z z).

Definition lift2 (f : Q -> Q -> Q) (a b : value) : value :=
  match a, b with
  | Some x, Some y => Some (f x y)
  | _, _ => None
  end.

Definition add : value -> value -> value := lift2 Qplus.
Definition sub : value -> value -> value := lift2 Qminus.
Definition mul : value -> value -> value := lift2 Qmult.

Definition div (a b : value) : value :=
  match a, b with
  | Some x, Some y => if Qeq_bool y 0 then None else Some (x / y)
  | _, _ => None
  end.

End Sql.

(** [ST_NPoints(geom)]: the number of vertices. *)
Definition ST_NPoints (g : linestring) : Z := Z.of_nat (List.length g).

(** A computable length, used where a concrete [ST_Length] is needed to
    evaluate the notebook on sample records: the sum of the axis-wise
    displacements between consecutive vertices.  On axis-aligned polylines
    it is the planar length. *)
Definition step_length (p q : point) : Q :=
  Qabs (fst q - fst p) + Qabs (snd q - snd p).

Fixpoint manhattan_length (g : linestring) : Q :=
  match g with
  | p :: (q :: _) as rest => step_length p q + manhattan_length rest
  | _ => 0
  end.

(* ================================================================== *)
(** * 3. The weight expression of the [create_graph] call *)
(* ================================================================== *)

Section WeightExpression.

(** [ST_Length(geom, 1)] is a built-in of the engine (geodesic length in
    metres); the notebook only calls it. *)
Variable ST_Length : linestring -> Q.

(** The constant [20] of the expression. *)
Definition penalty_scale : Q := 20.

(** ["ST_Length(WKT,1)/(ST_NPoints(WKT)-1) + ((1 - light)*20)
     AS WEIGHTS_VALUESPECIFIED"] *)
Definition weight_expr (r : osm_row) : Sql.value :=
  Sql.add
    (Sql.div (Some (ST_Length (WKT r)))
             (Sql.sub (Sql.int (ST_NPoints (WKT r))) (Sql.int 1)))
    (Sql.mul (Sql.sub (Sql.int 1) (light r)) (Some penalty_scale)).

End WeightExpression.

(** The formula of the specification, written from its words:
    [length / max(point_count - 1, 1) + (1 - coverage) * penalty_scale]. *)
Definition length_density (len : Q) (point_count : Z) : Q :=
  len / inject_Z (Z.max (point_count - 1) 1).

Definition reference_weight (scale len : Q) (point_count : Z) (coverage : Q) : Q :=
  length_density len point_count + (1 - coverage) * scale.

(** The claim of an epsilon floor, as the specification words it: some
    positive [eps] bounds every segment's weight from below, and every
    segment has a weight. *)
Definition epsilon_floor (ST_Length : linestring -> Q) : Prop :=
  exists eps : Q, 0 < eps /\
    forall r : osm_row,
      exists w : Q, weight_expr ST_Length r = Some w /\ eps <= w.

(** Sample records. *)
Definition sample_row (id : Z) (g : linestring) (way : string) (l : option Q)
  : osm_row :=
  {| WKT := g; osm_id := id; code := 5122; fclass := "residential";
     name := None; ref := None; oneway := way; maxspeed := 0; layer := 0;
     bridge := "F"; tunnel := "F"; light := l |}.

Definition single_vertex_row : osm_row :=
  sample_row 10 [(0, 0)] "B" (Some 1).

Definition null_light_row : osm_row :=
  sample_row 11 [(0, 0); (100, 0)] "B" None.

Definition zero_length_row : osm_row :=
  sample_row 12 [(0, 0); (0, 0)] "B" (Some 1).

(* ================================================================== *)
(** * 4. Planar geometry *)
(* ================================================================== *)

(** Squared planar distance; [within d p q] is "the distance from [p] to
    [q] is at most [d]" for a non-negative [d], decided without a square
    root. *)
Definition dist2 (p q : point) : Q :=
  (fst p - fst q) * (fst p - fst q) + (snd p - snd q) * (snd p - snd q).

Definition within (d : Q) (p q : point) : bool :=
  Qle_bool (dist2 p q) (d * d).

(* ================================================================== *)
(** * 5. Spatial attribution: the [light] column *)
(* ================================================================== *)

Module Attribution.

(** Modelled from the spec: the notebook's section "Prep Streetlight
    Data" has no code.  The buffer of a light sample is "a circular buffer
    polygon": a convex ring of vertices in counter-clockwise order. *)
Record LightBuffer : Type := { ring : list point }.

Definition buffer_radius_m : Q := 9.

(** Twelve directions of the unit circle that have rational
    coordinates, counter-clockwise from east. *)
Definition compass : list point :=
  [ (1, 0); (4 # 5, 3 # 5); (3 # 5, 4 # 5);
    (0, 1); (- (3 # 5), 4 # 5); (- (4 # 5), 3 # 5);
    (- (1), 0); (- (4 # 5), - (3 # 5)); (- (3 # 5), - (4 # 5));
    (0, - (1)); (3 # 5, - (4 # 5)); (4 # 5, - (3 # 5)) ].

(** Modelled from the spec: the buffer of radius [r] around a sample, as
    the twelve-sided polygon with its vertices on the circle; a radius
    that is not positive gives a buffer without any point. *)
Definition buffer_of (r : Q) (sample : point) : LightBuffer :=
  if Qle_bool r 0 then {| ring := [] |}
  else
    {| ring := map (fun d => (fst sample + r * fst d,
                              snd sample + r * snd d))
                   compass |}.

(** The sides of the ring, each from a vertex to the next, the last one
    back to the first; a ring of fewer than three vertices has none. *)
Definition sides (b : LightBuffer) : list (point * point) :=
  match ring b with
  | v :: (_ :: _ :: _) as vs => combine (v :: vs) (vs ++ [v])
  | _ => []
  end.

Definition solid (b : LightBuffer) : bool :=
  match sides b with [] => false | _ => true end.

(** Twice the signed area of the triangle of a side and a point: not
    negative when the point is on the left of the side. *)
Definition side (e : point * point) (p : point) : Q :=
  (fst (snd e) - fst (fst e)) * (snd p - snd (fst e))
  - (snd (snd e) - snd (fst e)) * (fst p - fst (fst e)).

(** A point is inside a buffer when it is on the left of every side. *)
Definition inside (b : LightBuffer) (p : point) : bool :=
  solid b && forallb (fun e => Qle_bool 0 (side e p)) (sides b).

(** Modelled from the spec: a point of the segment carries the attribute
    when it falls within any buffer (the union of the buffers). *)
Definition lit (bs : list LightBuffer) (p : point) : bool :=
  existsb (fun b => inside b p) bs.

(** The point at the fraction [t] of the way from [a] to [b]. *)
Definition along (a b : point) (t : Q) : point :=
  (fst a + t * (fst b - fst a), snd a + t * (snd b - snd a)).

(** The straight pieces of a polyline. *)
Fixpoint pieces (seg : linestring) : list (point * point) :=
  match seg with
  | a :: (b :: _) as rest => (a, b) :: pieces rest
  | _ => []
  end.

(** The points of a segment: those of its straight pieces. *)
Definition on_segment (seg : linestring) (p : point) : Prop :=
  exists a b t, In (a, b) (pieces seg) /\ 0 <= t /\ t <= 1 /\
                p = along a b t.

(** An interval of fractions [[lo, hi]]; it is empty when [hi < lo]. *)
Definition interval : Type := (Q * Q)%type.

Definition mem (t : Q) (i : interval) : Prop := fst i <= t /\ t <= snd i.

Definition covered (l : list interval) (t : Q) : Prop :=
  exists i, In i l /\ mem t i.

Definition span (lo hi : Q) : Q := Qmax 0 (hi - lo).

(** The part of the interval [i] of the piece from [a] to [b] that is on
    the left of the side [e]: [side] is linear along the piece, so it
    changes sign at most once, at [f0 / (f0 - f1)]. *)
Definition cut (e : point * point) (a b : point) (i : interval) : interval :=
  let f0 := side e a in
  let f1 := side e b in
  if Qle_bool 0 f0 then
    if Qle_bool 0 f1 then i
    else (fst i, Qmin (snd i) (f0 / (f0 - f1)))
  else
    if Qle_bool 0 f1 then (Qmax (fst i) (f0 / (f0 - f1)), snd i)
    else (1, 0).

(** The fractions of the piece that are inside the buffer. *)
Definition clip (buf : LightBuffer) (a b : point) : interval :=
  if solid buf
  then fold_right (fun e i => cut e a b i) (0, 1) (sides buf)
  else (1, 0).

(** Modelled from the spec: "union, not sum": the length of the part of
    the window [[lo, hi]] that the intervals of [l] cover together.  The
    first interval counts for what it covers of the window; the others
    count only for what they cover on its left and on its right. *)
Fixpoint union_length (lo hi : Q) (l : list interval) : Q :=
  match l with
  | [] => 0
  | (c, d) :: rest =>
      if Qle_bool c d
      then span (Qmax lo c) (Qmin hi d)
           + union_length lo (Qmin hi c) rest
           + union_length (Qmax lo d) hi rest
      else union_length lo hi rest
  end.

(** The fraction of the piece from [a] to [b] that is inside some
    buffer. *)
Definition lit_fraction (bs : list LightBuffer) (a b : point) : Q :=
  union_length 0 1 (map (fun buf => clip buf a b) bs).

Section Coverage.

(** The length of a straight piece is the engine's [ST_Length] of the
    two-vertex polyline. *)
Variable ST_Length : linestring -> Q.

Definition piece_length (e : point * point) : Q := ST_Length [fst e; snd e].

Fixpoint total_length (ps : list (point * point)) : Q :=
  match ps with
  | [] => 0
  | e :: rest => piece_length e + total_length rest
  end.

Fixpoint lit_length (bs : list LightBuffer) (ps : list (point * point)) : Q :=
  match ps with
  | [] => 0
  | e :: rest =>
      piece_length e * lit_fraction bs (fst e) (snd e) + lit_length bs rest
  end.

(** Modelled from the spec: the areal-overlap variant of the attribution
    layer, "fraction of the segment's length whose points fall within any
    buffer polygon"; a segment without length gets the neutral default
    0. *)
Definition coverage (bs : list LightBuffer) (seg : linestring) : Q :=
  if Qeq_bool (total_length (pieces seg)) 0 then 0
  else lit_length bs (pieces seg) / total_length (pieces seg).

(** Modelled from the spec: the attribution pass fills [light] of every
    record with the coverage of its geometry. *)
Definition attribute (bs : list LightBuffer) (r : osm_row) : osm_row :=
  {| WKT := WKT r; osm_id := osm_id r; code := code r; fclass := fclass r;
     name := name r; ref := ref r; oneway := oneway r;
     maxspeed := maxspeed r; layer := layer r; bridge := bridge r;
     tunnel := tunnel r; light := Some (coverage bs (WKT r)) |}.

End Coverage.

End Attribution.

(* ================================================================== *)
(** * 6. Node identity: merging endpoints within the tolerance *)
(* ================================================================== *)

(** Modelled from the spec: a disjoint-set structure keyed by an arena of
    endpoint indices.  Cell [i] holds the representative of element [i];
    [union] relabels the class with the larger representative, so the
    representative of a class is its first-seen element. *)
Module UnionFind.

Definition t : Type := list nat.

(** Every element is its own class. *)
Definition make (n : nat) : t := seq 0 n.

(** The representative of element [i]. *)
Definition find (uf : t) (i : nat) : nat := nth i uf i.

Definition relabel (hi lo r : nat) : nat := if r =? hi then lo else r.

(** Join the classes of [a] and [b] under the smaller representative. *)
Definition union (uf : t) (a b : nat) : t :=
  let ra := find uf a in
  let rb := find uf b in
  map (relabel (Nat.max ra rb) (Nat.min ra rb)) uf.

Definition unions (ps : list (nat * nat)) (uf : t) : t :=
  fold_left (fun u ij => union u (fst ij) (snd ij)) ps uf.

End UnionFind.

(** The equivalence generated by a list of index pairs. *)
Definition linked (ps : list (nat * nat)) : relation nat :=
  clos_refl_sym_trans nat (fun i j => In (i, j) ps).

Definition origin : point := (0, 0).

(** Modelled from the spec: two endpoints are merged when their distance is
    at most [merge_tolerance]; every such pair of the arena is united. *)
Definition close_pairs (tol : Q) (pts : list point) : list (nat * nat) :=
  filter (fun ij => within tol (nth (fst ij) pts origin) (nth (snd ij) pts origin))
         (list_prod (seq 0 (List.length pts)) (seq 0 (List.length pts))).

(** Modelled from the spec: the node merge of the builder, "endpoints
    within [merge_tolerance] collapse to one node via union-find". *)
Definition merge_endpoints (tol : Q) (pts : list point) : UnionFind.t :=
  UnionFind.unions (close_pairs tol pts) (UnionFind.make (List.length pts)).

(** Two endpoints end up in one node. *)
Definition same_node (tol : Q) (pts : list point) (p q : point) : Prop :=
  exists i j : nat,
    nth_error pts i = Some p /\ nth_error pts j = Some q /\
    UnionFind.find (merge_endpoints tol pts) i
    = UnionFind.find (merge_endpoints tol pts) j.

(** Every pair of cells holding [p] and [q] has one representative. *)
Definition all_same (tol : Q) (pts : list point) (p q : point) : Prop :=
  forall i j, nth_error pts i = Some p -> nth_error pts j = Some q ->
    UnionFind.find (merge_endpoints tol pts) i
    = UnionFind.find (merge_endpoints tol pts) j.

(** The tolerance relation on the endpoints, and the equivalence it
    generates: the quotient the specification asks for. *)
Definition tol_step (tol : Q) (pts : list point) : relation point :=
  fun p q => In p pts /\ In q pts /\ within tol p q = true.

Definition tol_equiv (tol : Q) (pts : list point) : relation point :=
  clos_refl_sym_trans point (tol_step tol pts).

(* ================================================================== *)
(** * 7. The graph and its builder *)
(* ================================================================== *)

(** The components handed to [create_graph]:
    [edges = [... AS EDGE_ID, ... AS EDGE_WKTLINE]] and
    [weights = [... AS WEIGHTS_EDGE_ID, ... AS WEIGHTS_VALUESPECIFIED]]. *)
Record edge_component : Type := {
  EDGE_ID : Z;
  EDGE_WKTLINE : linestring
}.

Record weight_component : Type := {
  WEIGHTS_EDGE_ID : Z;
  WEIGHTS_VALUESPECIFIED : Sql.value
}.

(** The options of the call that the model reads; the others of the
    notebook (r-tree, bounding box, drawing, persistence, table monitor,
    turns, partitioning) do not change the graph built here. *)
Record create_graph_options : Type := {
  merge_tolerance : Q;
  recreate : bool;
  modify : bool
}.

Record GraphNode : Type := { node_id : nat; coordinate : point }.

Record GraphEdge : Type := {
  edge_id : Z;
  from_node : nat;
  to_node : nat;
  weight : Q
}.

Record Graph : Type := {
  nodes : list GraphNode;
  edges : list GraphEdge;
  directed : bool
}.

(** A segment the builder can use: identifier, the two endpoints of the
    polyline, and its weight. *)
Record segment : Type := {
  seg_id : Z;
  seg_from : point;
  seg_to : point;
  seg_weight : Q
}.

(** Modelled from the spec: the weight of an edge is the value of the
    first weight component that carries its id. *)
Definition weight_of (ws : list weight_component) (id : Z) : Sql.value :=
  match find (fun w => Z.eqb (WEIGHTS_EDGE_ID w) id) ws with
  | Some w => WEIGHTS_VALUESPECIFIED w
  | None => None
  end.

(** Modelled from the spec: one edge per segment; a polyline with fewer
    than two vertices is skipped, and so is a segment whose weight has no
    value. *)
Definition segment_of (ws : list weight_component) (e : edge_component)
  : option segment :=
  match EDGE_WKTLINE e with
  | p :: (q :: tl) =>
      match weight_of ws (EDGE_ID e) with
      | Some w => Some {| seg_id := EDGE_ID e; seg_from := p;
                          seg_to := last (q :: tl) p; seg_weight := w |}
      | None => None
      end
  | _ => None
  end.

Definition segments (es : list edge_component) (ws : list weight_component)
  : list segment :=
  flat_map (fun e => match segment_of ws e with
                     | Some s => [s]
                     | None => []
                     end) es.

(** Modelled from the spec: "one node per segment endpoint"; the arena
    of endpoints, where segment [k] owns cells [2k] and [2k+1]. *)
Definition endpoints (ss : list segment) : list point :=
  flat_map (fun s => [seg_from s; seg_to s]) ss.

(** Modelled from the spec: the edge of segment [k] keeps its id and
    weight and joins the nodes of its two endpoints. *)
Fixpoint edges_of (uf : UnionFind.t) (k : nat) (ss : list segment)
  : list GraphEdge :=
  match ss with
  | [] => []
  | s :: rest =>
      {| edge_id := seg_id s;
         from_node := UnionFind.find uf (2 * k);
         to_node := UnionFind.find uf (2 * k + 1);
         weight := seg_weight s |} :: edges_of uf (S k) rest
  end.

(** Modelled from the spec: one node per class, at the coordinate of the
    first-seen endpoint of the class. *)
Definition nodes_of (uf : UnionFind.t) (arena : list point) : list GraphNode :=
  flat_map (fun i => if UnionFind.find uf i =? i
                     then [{| node_id := i; coordinate := nth i arena origin |}]
                     else [])
           (seq 0 (List.length arena)).

(** Modelled from the spec: [build(segments, attributed_coverage)]. *)
Definition build (directed_graph : bool) (tol : Q)
           (es : list edge_component) (ws : list weight_component) : Graph :=
  let ss := segments es ws in
  let arena := endpoints ss in
  let uf := merge_endpoints tol arena in
  {| nodes := nodes_of uf arena;
     edges := edges_of uf 0 ss;
     directed := directed_graph |}.

(** The two ends of a segment and of an edge: [true] is the start. *)
Definition seg_end (s : segment) (start : bool) : point :=
  if start then seg_from s else seg_to s.

Definition edge_end (e : GraphEdge) (start : bool) : nat :=
  if start then from_node e else to_node e.

Definition end_cell (k : nat) (start : bool) : nat :=
  if start then (2 * k)%nat else (2 * k + 1)%nat.

(** ** The engine's named graphs *)

(** Modelled from the spec: the engine keeps, under each graph name, what
    the graph was created from; the graph itself is [graph_of] it. *)
Record graph_definition : Type := {
  def_directed : bool;
  def_tolerance : Q;
  def_edges : list edge_component;
  def_weights : list weight_component
}.

Definition graph_of (d : graph_definition) : Graph :=
  build (def_directed d) (def_tolerance d) (def_edges d) (def_weights d).

Definition registry : Type := string -> option graph_definition.

Definition no_graphs : registry := fun _ => None.

Definition put (db : registry) (graph_name : string) (d : graph_definition)
  : registry :=
  fun k => if String.eqb k graph_name then Some d else db k.

Inductive create_status : Type :=
| GraphCreated
| GraphModified
| GraphExistsError
| CreateConfigurationError.

(** Modelled from the spec: [recreate] replaces an existing graph of that
    name by the one built from the arguments; [modify] (only read when
    [recreate] is off) adds the arguments to the existing components; with
    neither, an existing graph is kept and the call fails.  A negative
    tolerance is refused before any work. *)
Definition create_graph (db : registry) (graph_name : string)
           (directed_graph : bool)
           (es : list edge_component) (ws : list weight_component)
           (options : create_graph_options) : registry * create_status :=
  if negb (Qle_bool 0 (merge_tolerance options))
  then (db, CreateConfigurationError)
  else
    let fresh := {| def_directed := directed_graph;
                    def_tolerance := merge_tolerance options;
                    def_edges := es; def_weights := ws |} in
    match db graph_name with
    | None => (put db graph_name fresh, GraphCreated)
    | Some old =>
        if recreate options then (put db graph_name fresh, GraphCreated)
        else if modify options then
          (put db graph_name
               {| def_directed := def_directed old;
                  def_tolerance := def_tolerance old;
                  def_edges := def_edges old ++ es;
                  def_weights := def_weights old ++ ws |},
           GraphModified)
        else (db, GraphExistsError)
    end.

(* ================================================================== *)
(** * 8. The path solver *)
(* ================================================================== *)

(** Modelled from the spec: a path is a list of [(segment, direction)];
    one traversal of an edge goes along its polyline or against it. *)
Record hop : Type := { via : GraphEdge; forward : bool }.

Definition hop_from (h : hop) : nat :=
  if forward h then from_node (via h) else to_node (via h).

Definition hop_to (h : hop) : nat :=
  if forward h then to_node (via h) else from_node (via h).

Definition hop_weight (h : hop) : Q := weight (via h).

Definition hop_id (h : hop) : Z := edge_id (via h).

(** Modelled from the spec: in an undirected graph every edge can be
    taken both ways, in a directed graph only forward. *)
Definition traversals (g : Graph) : list hop :=
  flat_map (fun e => {| via := e; forward := true |}
                     :: (if directed g then []
                         else [{| via := e; forward := false |}]))
           (edges g).

Definition out_hops (g : Graph) (u : nat) : list hop :=
  filter (fun h => hop_from h =? u) (traversals g).

Fixpoint path_weight (p : list hop) : Q :=
  match p with
  | [] => 0
  | h :: rest => hop_weight h + path_weight rest
  end.

(** [is_path g u p v]: the hops of [p] lead from [u] to [v] in [g]. *)
Inductive is_path (g : Graph) (u : nat) : list hop -> nat -> Prop :=
| path_here : is_path g u [] u
| path_step : forall p x h,
    is_path g u p x ->
    In h (traversals g) ->
    hop_from h = x ->
    is_path g u (p ++ [h]) (hop_to h).

Definition connected (g : Graph) (u v : nat) : Prop :=
  exists p, is_path g u p v.

Record Path : Type := {
  path_source : nat;
  path_destination : nat;
  path_hops : list hop;
  total_weight : Q
}.

Inductive SolveError : Type :=
| ConfigurationError
| NoNodeInRangeError
| NoPathError.

(** The option of [solve_graph] the model reads.  The notebook sets every
    turn penalty to 0.0, so the search is over nodes. *)
Record solve_graph_options : Type := {
  max_solution_radius : Q
}.

(** ** Snapping *)

(** Modelled from the spec: the nearest node, the earlier one on a tie. *)
Fixpoint nearest (p : point) (ns : list GraphNode) : option GraphNode :=
  match ns with
  | [] => None
  | n :: rest =>
      match nearest p rest with
      | None => Some n
      | Some m =>
          if Qle_bool (dist2 p (coordinate n)) (dist2 p (coordinate m))
          then Some n else Some m
      end
  end.

(** Modelled from the spec: a radius of 0 puts every node in range. *)
Definition in_range (radius : Q) (p : point) (n : GraphNode) : bool :=
  Qeq_bool radius 0 || within radius p (coordinate n).

(** Modelled from the spec: "mapped to the nearest graph node within
    [max_solution_radius] (0 = unbounded)". *)
Definition snap (g : Graph) (radius : Q) (p : point) : option GraphNode :=
  match nearest p (nodes g) with
  | Some n => if in_range radius p n then Some n else None
  | None => None
  end.

(** ** Shortest path by relaxation *)

(** The label of a node: a tentative distance and the hops realising it. *)
Definition label : Type := (Q * list hop)%type.

Definition labels : Type := nat -> option label.

Definition no_labels : labels := fun _ => None.

Definition set_label (ls : labels) (v : nat) (l : label) : labels :=
  fun x => if x =? v then Some l else ls x.

Definition settled (v : nat) (done : list nat) : bool :=
  existsb (Nat.eqb v) done.

Definition last_edge_id (p : list hop) : option Z :=
  match rev p with
  | [] => None
  | h :: _ => Some (hop_id h)
  end.

(** Modelled from the spec: a candidate replaces the incumbent label when
    it is strictly cheaper, or equally cheap and arriving over an edge of
    lower id. *)
Definition better (d : Q) (id : Z) (incumbent : label) : bool :=
  negb (Qle_bool (fst incumbent) d)
  || (Qeq_bool d (fst incumbent)
      && match last_edge_id (snd incumbent) with
         | Some id' => (id <? id')%Z
         | None => false
         end).

(** Modelled from the spec: relaxing one hop out of the node just
    settled, whose label is [lu]; settled nodes keep their labels. *)
Definition relax (lu : label) (done : list nat) (ls : labels) (h : hop)
  : labels :=
  let v := hop_to h in
  if settled v done then ls
  else
    let d := fst lu + hop_weight h in
    match ls v with
    | None => set_label ls v (d, snd lu ++ [h])
    | Some lv =>
        if better d (hop_id h) lv then set_label ls v (d, snd lu ++ [h])
        else ls
    end.

(** Modelled from the spec: the priority queue; it yields the unsettled
    labelled node of least distance. *)
Fixpoint extract_min (cands done : list nat) (ls : labels)
  : option (nat * label) :=
  match cands with
  | [] => None
  | v :: rest =>
      let best := extract_min rest done ls in
      if settled v done then best
      else
        match ls v with
        | None => best
        | Some lv =>
            match best with
            | None => Some (v, lv)
            | Some (_, lb) =>
                if Qle_bool (fst lv) (fst lb) then Some (v, lv) else best
            end
        end
  end.

(** Every node the search can ever label: the source and the ends of
    the edges. *)
Definition vertices (g : Graph) (s : nat) : list nat :=
  s :: flat_map (fun e => [from_node e; to_node e]) (edges g).

(** Modelled from the spec: "a classic priority-queue relaxation
    algorithm (Dijkstra-class)", with "a bounded max iteration count on the
    relaxation loop". *)
Fixpoint relaxation_loop (fuel : nat) (g : Graph) (s : nat)
         (done : list nat) (ls : labels) : labels :=
  match fuel with
  | O => ls
  | S fuel' =>
      match extract_min (vertices g s) done ls with
      | None => ls
      | Some (u, lu) =>
          relaxation_loop fuel' g s (u :: done)
            (fold_left (relax lu (u :: done)) (out_hops g u) ls)
      end
  end.

(** At the start only the source is labelled, with distance 0. *)
Definition start_labels (s : nat) : labels := set_label no_labels s (0, []).

(** Modelled from the spec: the loop runs at most once per vertex; an
    unlabelled destination is [NoPathError]. *)
Definition shortest_path (g : Graph) (s t : nat) : Path + SolveError :=
  match relaxation_loop (List.length (vertices g s)) g s [] (start_labels s) t
  with
  | Some (d, p) =>
      inl {| path_source := s; path_destination := t;
             path_hops := p; total_weight := d |}
  | None => inr NoPathError
  end.

(** Modelled from the spec:
    [solve(graph, source_coord, dest_coord, options)]. *)
Definition solve (g : Graph) (source destination : point)
           (options : solve_graph_options) : Path + SolveError :=
  let r := max_solution_radius options in
  if negb (Qle_bool 0 r) then inr ConfigurationError
  else
    match snap g r source, snap g r destination with
    | Some s, Some t => shortest_path g (node_id s) (node_id t)
    | _, _ => inr NoNodeInRangeError
    end.

(* ================================================================== *)
(** * 9. The two calls of the notebook *)
(* ================================================================== *)

Section Notebook.

Variable ST_Length : linestring -> Q.

(** [edges = ["osm_small.osm_id AS EDGE_ID",
              "osm_small.WKT AS EDGE_WKTLINE"]] *)
Definition notebook_edges (osm_small : list osm_row) : list edge_component :=
  map (fun r => {| EDGE_ID := osm_id r; EDGE_WKTLINE := WKT r |}) osm_small.

(** [weights = ["osm_small.osm_id AS WEIGHTS_EDGE_ID",
                "... AS WEIGHTS_VALUESPECIFIED"]] *)
Definition notebook_weights (osm_small : list osm_row)
  : list weight_component :=
  map (fun r => {| WEIGHTS_EDGE_ID := osm_id r;
                   WEIGHTS_VALUESPECIFIED := weight_expr ST_Length r |})
      osm_small.

(** ["merge_tolerance": "0.00001", "recreate": "true",
     "modify": "false"] *)
Definition notebook_create_options : create_graph_options :=
  {| merge_tolerance := 1 # 100000; recreate := true; modify := false |}.

Definition dc_osm_graph : string := "dc_osm_graph".

(** [db.create_graph(graph_name = "dc_osm_graph",
                     directed_graph = False, edges = ..., weights = ...,
                     options = ...)] *)
Definition notebook_create_graph (db : registry) (osm_small : list osm_row)
  : registry * create_status :=
  create_graph db dc_osm_graph false
               (notebook_edges osm_small) (notebook_weights osm_small)
               notebook_create_options.

(** The graph the notebook's call builds from a table. *)
Definition notebook_graph (osm_small : list osm_row) : Graph :=
  build false (merge_tolerance notebook_create_options)
        (notebook_edges osm_small) (notebook_weights osm_small).

(** ["max_solution_radius": "0.0"] *)
Definition notebook_solve_options : solve_graph_options :=
  {| max_solution_radius := 0 |}.

(** [db.solve_graph(graph_name = "dc_osm_graph",
                    solver_type = "SHORTEST_PATH", source_nodes = ...,
                    destination_nodes = ..., ...)]; the cell passes the
    options dictionary last, without the [options =] keyword, and it is
    read here as the options of the call. *)
Definition solve_graph (db : registry) (graph_name : string)
           (source destination : point) (options : solve_graph_options)
  : option (Path + SolveError) :=
  match db graph_name with
  | Some d => Some (solve (graph_of d) source destination options)
  | None => None
  end.

End Notebook.

(* ================================================================== *)
(** * 10. Statements about the model *)
(* ================================================================== *)

(** ** Invariants of the relaxation loop *)

Definition nonnegative_weights (g : Graph) : Prop :=
  forall e, In e (edges g) -> 0 <= weight e.

(** Every label is realised by a path from the source. *)
Definition labels_sound (g : Graph) (s : nat) (ls : labels) : Prop :=
  forall v l, ls v = Some l ->
    is_path g s (snd l) v /\ fst l == path_weight (snd l).

(** No unsettled node carries a label: the queue is empty. *)
Definition queue_empty (done : list nat) (ls : labels) : Prop :=
  forall z, ~ In z done -> ls z = None.

Record loop_invariant (g : Graph) (s : nat) (done : list nat) (ls : labels)
  : Prop := {
  inv_nodup : NoDup done;
  inv_done_in : incl done (vertices g s);
  inv_source : exists l0, ls s = Some l0 /\ fst l0 <= 0;
  inv_done_labelled : forall u, In u done -> exists lu, ls u = Some lu;
  inv_edges : forall u lu h,
      In u done -> ls u = Some lu ->
      In h (traversals g) -> hop_from h = u ->
      exists lv, ls (hop_to h) = Some lv /\ fst lv <= fst lu + hop_weight h;
  inv_frontier : forall u lu z lz,
      In u done -> ls u = Some lu ->
      ~ In z done -> ls z = Some lz -> fst lu <= fst lz
}.

(** The part of the invariant that does not look at distances: settled
    nodes are distinct vertices, and every hop out of a settled node leads
    to a labelled node. *)
Record reach_invariant (g : Graph) (s : nat) (done : list nat) (ls : labels)
  : Prop := {
  reach_nodup : NoDup done;
  reach_done_in : incl done (vertices g s);
  reach_source : exists l0, ls s = Some l0;
  reach_done_labelled : forall u, In u done -> exists lu, ls u = Some lu;
  reach_edges : forall u h,
      In u done -> In h (traversals g) -> hop_from h = u ->
      exists lv, ls (hop_to h) = Some lv
}.

(** ** Ties *)

(** [h] has the lowest id among the traversals that join the same two
    nodes in the same direction at the same weight. *)
Definition lowest_parallel (g : Graph) (h : hop) : Prop :=
  forall h', In h' (traversals g) ->
    hop_from h' = hop_from h -> hop_to h' = hop_to h ->
    hop_weight h' == hop_weight h ->
    (hop_id h <= hop_id h')%Z.

Definition labels_tied (g : Graph) (ls : labels) : Prop :=
  forall v l, ls v = Some l -> Forall (lowest_parallel g) (snd l).

(** While the hops [pre] of the node being settled have been relaxed: a
    label is either final, or it was just set over a hop of [pre] that has
    the lowest id among the equally heavy hops of [pre] to that node. *)
Definition tie_pending (g : Graph) (lu : label) (done : list nat)
           (pre : list hop) (ls : labels) : Prop :=
  forall v l, ls v = Some l ->
    Forall (lowest_parallel g) (snd l) \/
    (~ In v done /\
     exists h, In h pre /\ hop_to h = v /\
               l = (fst lu + hop_weight h, snd lu ++ [h]) /\
               forall h', In h' pre -> hop_to h' = v ->
                          hop_weight h' == hop_weight h ->
                          (hop_id h <= hop_id h')%Z).

(** Every relaxed hop left a label at least as good as its candidate. *)
Definition tie_seen (lu : label) (done : list nat) (pre : list hop)
           (ls : labels) : Prop :=
  forall h', In h' pre -> ~ In (hop_to h') done ->
    exists lv, ls (hop_to h') = Some lv /\
      (fst lv < fst lu + hop_weight h' \/
       (fst lv == fst lu + hop_weight h' /\
        forall id0, last_edge_id (snd lv) = Some id0 ->
                    (id0 <= hop_id h')%Z)).

(** ** Routes *)

Definition positive_weights (g : Graph) : Prop :=
  forall e, In e (edges g) -> 0 < weight e.

(** [l'] is the label [l] or one the tie rule prefers to it: cheaper, or
    equally cheap and arriving over an edge of lower id. *)
Definition improves (l' l : label) : Prop :=
  fst l' < fst l \/
  (fst l' == fst l /\
   (l' = l \/
    exists i' i, last_edge_id (snd l') = Some i' /\
                 last_edge_id (snd l) = Some i /\ (i' < i)%Z)).

(** The label [l] is at least as good as arriving at cost [c] over the
    edge [id]. *)
Definition arrives_no_worse (c : Q) (id : Z) (l : label) : Prop :=
  fst l < c \/
  (fst l == c /\
   forall id0, last_edge_id (snd l) = Some id0 -> (id0 <= id)%Z).

(** Every labelled path extends the path of a settled node by one hop,
    and every hop out of a settled node has been weighed against the
    label of its target. *)
Record route_invariant (g : Graph) (done : list nat) (ls : labels)
  : Prop := {
  route_parent : forall v l, ls v = Some l ->
      snd l = [] \/
      exists u lu h, In u done /\ ls u = Some lu /\
                     hop_to h = v /\ snd l = snd lu ++ [h];
  route_seen : forall u lu h,
      In u done -> ls u = Some lu ->
      In h (traversals g) -> hop_from h = u ->
      exists lv, ls (hop_to h) = Some lv /\
                 arrives_no_worse (fst lu + hop_weight h) (hop_id h) lv
}.

(** [p] is a path from [s] to [t] of the least weight. *)
Definition least_weight (g : Graph) (s : nat) (p : list hop) (t : nat)
  : Prop :=
  is_path g s p t /\
  forall r, is_path g s r t -> path_weight p <= path_weight r.

(** Ties between routes go to the lowest edge id: at every node along
    [p], no path from [s] that is as light as the part of [p] up to that
    node arrives there over an edge of lower id. *)
Definition lowest_route (g : Graph) (s : nat) (p : list hop) : Prop :=
  forall p1 h p2 q h',
    p = p1 ++ h :: p2 ->
    is_path g s (q ++ [h']) (hop_to h) ->
    path_weight (q ++ [h']) <= path_weight (p1 ++ [h]) ->
    (hop_id h <= hop_id h')%Z.

(** ** The scenario of the specification *)

Definition node_A : point := (0, 0).
Definition node_B : point := (100, 0).

(** S1: length 100, coverage 1; S2: length 100, coverage 0; two vertices
    each, both from A to B. *)
Definition S1 : osm_row := sample_row 1 [node_A; node_B] "B" (Some 1).
Definition S2 : osm_row := sample_row 2 [node_A; node_B] "B" (Some 0).

(** Two equally heavy parallel segments. *)
Definition S7 : osm_row := sample_row 7 [node_A; node_B] "B" (Some 1).
Definition S3 : osm_row := sample_row 3 [node_A; node_B] "B" (Some 1).

(** A second component, far from A and B. *)
Definition S5 : osm_row := sample_row 5 [(500, 500); (600, 500)] "B" (Some 1).

(** A segment whose start is 2 away from the query coordinate [(0, 0)]. *)
Definition S6 : osm_row := sample_row 6 [(2, 0); (102, 0)] "B" (Some 1).

(** A one-way segment ([oneway = 'F']: only along the polyline). *)
Definition S8 : osm_row := sample_row 8 [node_A; node_B] "F" (Some 1).

(** ** The other road attributes *)

(** The [oneway] codes of the road table: ['F'] allows travel only along
    the polyline, ['T'] only against it, ['B'] both ways. *)
Definition oneway_forbids_reverse (r : osm_row) : bool :=
  String.eqb (oneway r) "F".

(** Two records that agree on identifier, geometry and light; every other
    column is free. *)
Definition same_geometry_and_light (r1 r2 : osm_row) : Prop :=
  osm_id r1 = osm_id r2 /\ WKT r1 = WKT r2 /\ light r1 = light r2.

(** S1 with every other attribute changed. *)
Definition S1_motorway : osm_row :=
  {| WKT := [node_A; node_B]; osm_id := 1; code := 5111;
     fclass := "motorway"; name := Some "Rock Creek Parkway"%string;
     ref := Some "US 29"%string; oneway := "F"; maxspeed := 88; layer := 1;
     bridge := "T"; tunnel := "T"; light := Some 1 |}.

(** ** Sample graphs *)

Definition scenario_graph : Graph := notebook_graph manhattan_length [S1; S2].

Definition islands_graph : Graph := notebook_graph manhattan_length [S1; S5].

Definition offset_graph : Graph := notebook_graph manhattan_length [S6].

(** Two routes of weight 1 from node 0 to node 3, over node 1 and over
    node 2, each ending in an edge of weight 0; the same four edges in
    two orders. *)
Definition crossing_nodes : list GraphNode :=
  [ {| node_id := 0; coordinate := (0, 0) |};
    {| node_id := 1; coordinate := (1, 1) |};
    {| node_id := 2; coordinate := (1, -1) |};
    {| node_id := 3; coordinate := (2, 0) |} ].

Definition upper_first : GraphEdge :=
  {| edge_id := 1; from_node := 0; to_node := 1; weight := 1 |}.
Definition upper_last : GraphEdge :=
  {| edge_id := 9; from_node := 1; to_node := 3; weight := 0 |}.
Definition lower_first : GraphEdge :=
  {| edge_id := 2; from_node := 0; to_node := 2; weight := 1 |}.
Definition lower_last : GraphEdge :=
  {| edge_id := 3; from_node := 2; to_node := 3; weight := 0 |}.

Definition upper_lower_graph : Graph :=
  {| nodes := crossing_nodes;
     edges := [upper_first; upper_last; lower_first; lower_last];
     directed := false |}.

Definition lower_upper_graph : Graph :=
  {| nodes := crossing_nodes;
     edges := [lower_first; lower_last; upper_first; upper_last];
     directed := false |}.

(** The same crossing with the last edges of weight 1. *)
Definition heavier (e : GraphEdge) : GraphEdge :=
  {| edge_id := edge_id e; from_node := from_node e;
     to_node := to_node e; weight := weight e + 1 |}.

Definition upper_lower_heavier : Graph :=
  {| nodes := crossing_nodes;
     edges := [upper_first; heavier upper_last;
               lower_first; heavier lower_last];
     directed := false |}.

Definition lower_upper_heavier : Graph :=
  {| nodes := crossing_nodes;
     edges := [lower_first; heavier lower_last;
               upper_first; heavier upper_last];
     directed := false |}.

Definition hop_S1 : hop :=
  {| via := {| edge_id := 1; from_node := 0; to_node := 1; weight := 100 |};
     forward := true |}.

(* ================================================================== *)
(** * 11. Loading the beauty scores *)
(* ================================================================== *)

(** The columns of [CREATE OR REPLACE TABLE "pretty_trip"."location_beauty"]:
    three DOUBLE NOT NULL columns, in this order. *)
Definition location_beauty_columns : list string :=
  ["longitude"; "latitude"; "beauty"]%string.

Module Py.

(** A value as [json.load] returns it.  A dict is the list of its items
    in insertion order, each key once; numbers are read as exact
    rationals. *)
#[warnings="-register-all"]
Inductive value : Type :=
| PNone
| PBool (b : bool)
| PNum (x : Q)
| PStr (s : string)
| PList (items : list value)
| PDict (items : list (string * value)).

Inductive exception : Type :=
| KeyError (key : string)
| TypeError.

(** A computation that returns or raises. *)
Definition result (A : Type) : Type := (A + exception)%type.

Definition bind {A B : Type} (m : result A) (f : A -> result B) : result B :=
  match m with
  | inl a => f a
  | inr e => inr e
  end.

Fixpoint lookup (key : string) (d : list (string * value)) : option value :=
  match d with
  | [] => None
  | (k, v) :: rest => if String.eqb k key then Some v else lookup key rest
  end.

(** [v[key]] with a string key: a dict looks the key up and raises
    [KeyError] when it is missing; a list, a string, a number, a boolean
    and [None] raise [TypeError]. *)
Definition getitem (v : value) (key : string) : result value :=
  match v with
  | PDict d =>
      match lookup key d with
      | Some x => inl x
      | None => inr (KeyError key)
      end
  | _ => inr TypeError
  end.

(** [for k in v]: a list yields its items, a dict its keys, a string its
    characters; anything else is not iterable. *)
Definition iter (v : value) : result (list value) :=
  match v with
  | PList l => inl l
  | PDict d => inl (map (fun kv => PStr (fst kv)) d)
  | PStr s =>
      inl (map (fun c => PStr (String c EmptyString)) (list_ascii_of_string s))
  | _ => inr TypeError
  end.

(** [d[k] = v] on an ordered dict: a present key keeps its place. *)
Fixpoint od_set (d : list (string * value)) (k : string) (v : value)
  : list (string * value) :=
  match d with
  | [] => [(k, v)]
  | (k', v') :: rest =>
      if String.eqb k' k then (k', v) :: rest
      else (k', v') :: od_set rest k v
  end.

(** [OrderedDict(items)]. *)
Definition OrderedDict (items : list (string * value))
  : list (string * value) :=
  fold_left (fun d kv => od_set d (fst kv) (snd kv)) items [].

(** [[f(k) for k in l]]: the items are evaluated in order and the first
    exception ends the evaluation. *)
Fixpoint comprehension {A B : Type} (f : A -> result B) (l : list A)
  : result (list B) :=
  match l with
  | [] => inl []
  | a :: rest =>
      bind (f a) (fun b =>
      bind (comprehension f rest) (fun bs => inl (b :: bs)))
  end.

End Py.

(** [OrderedDict([('latitude', k['location']["gps_latitude_decimal"]),
                  ('longitude', k['location']["gps_longitude_decimal"]),
                  ('beauty', k["score"])])]: the three values are
    evaluated from left to right, then the dict is built. *)
Definition point_record (k : Py.value) : Py.result (list (string * Py.value)) :=
  Py.bind (Py.getitem k "location") (fun loc1 =>
  Py.bind (Py.getitem loc1 "gps_latitude_decimal") (fun lat =>
  Py.bind (Py.getitem k "location") (fun loc2 =>
  Py.bind (Py.getitem loc2 "gps_longitude_decimal") (fun lon =>
  Py.bind (Py.getitem k "score") (fun sc =>
  inl (Py.OrderedDict [("latitude"%string, lat);
                       ("longitude"%string, lon);
                       ("beauty"%string, sc)])))))).

(** [pts = [OrderedDict(...) for k in all_pts]] *)
Definition pts (all_pts : Py.value)
  : Py.result (list (list (string * Py.value))) :=
  Py.bind (Py.iter all_pts) (Py.comprehension point_record).

(** [k] is a dict with a [score] and a [location] dict that has the two
    coordinates. *)
Definition beauty_point (k lat lon sc : Py.value) : Prop :=
  exists d loc,
    k = Py.PDict d /\
    Py.lookup "location" d = Some (Py.PDict loc) /\
    Py.lookup "gps_latitude_decimal" loc = Some lat /\
    Py.lookup "gps_longitude_decimal" loc = Some lon /\
    Py.lookup "score" d = Some sc.

Definition beauty_record (lat lon sc : Py.value) : list (string * Py.value) :=
  [("latitude"%string, lat); ("longitude"%string, lon); ("beauty"%string, sc)].

(** What [point_record] reads of a [location] entry: only the two
    coordinates of a dict. *)
Definition same_location (o o' : option Py.value) : Prop :=
  o = o' \/
  exists l l',
    o = Some (Py.PDict l) /\ o' = Some (Py.PDict l') /\
    Py.lookup "gps_latitude_decimal" l = Py.lookup "gps_latitude_decimal" l' /\
    Py.lookup "gps_longitude_decimal" l
    = Py.lookup "gps_longitude_decimal" l'.

(** Sample values. *)
Definition sample_point (lat lon sc : Q) : Py.value :=
  Py.PDict [("score"%string, Py.PNum sc);
            ("image"%string, Py.PStr "IMG_0001.jpg");
            ("location"%string,
             Py.PDict [("gps_longitude_decimal"%string, Py.PNum lon);
                       ("gps_altitude"%string, Py.PNum 12);
                       ("gps_latitude_decimal"%string, Py.PNum lat)])].

Definition unscored_point : Py.value :=
  Py.PDict [("image"%string, Py.PStr "IMG_0002.jpg")].

(** A straight road from A to B drawn with three vertices. *)
Definition node_M : point := (50, 0).
Definition S9 : osm_row := sample_row 9 [node_A; node_M; node_B] "B" (Some 1).

(** A half-lit segment. *)
Definition S4 : osm_row := sample_row 4 [node_A; node_B] "B" (Some (1 # 2)).

(** A point with only the keys the load reads, and a file that wraps its
    points in a dict. *)
Definition bare_point (lat lon sc : Q) : Py.value :=
  Py.PDict [("location"%string,
             Py.PDict [("gps_latitude_decimal"%string, Py.PNum lat);
                       ("gps_longitude_decimal"%string, Py.PNum lon)]);
            ("score"%string, Py.PNum sc)].

Definition wrapped_points : Py.value :=
  Py.PDict [("points"%string, Py.PList [sample_point 38 (-77) (1 # 2)])].

(** A second record under the id of S1, with the geometry and light of
    S2. *)
Definition S2_dup : osm_row := sample_row 1 [node_A; node_B] "B" (Some 0).

(* ================================================================== *)
(** * Properties *)
(* ================================================================== *)

(** A map with distinct images is injective on the list. *)
Lemma nodup_map_injective {A B : Type} (f : A -> B) (l : list A) (x y : A) :
  NoDup (map f l) -> In x l -> In y l -> f x = f y -> x = y.
Proof.
  induction l as [|a l IH]; intros Hnd Hx Hy E; [destruct Hx|].
  cbn in Hnd. inversion Hnd as [|? ? Hnotin Hnd']; subst.
  destruct Hx as [<-|Hx]; destruct Hy as [<-|Hy].
  - reflexivity.
  - exfalso. apply Hnotin. rewrite E. apply in_map. exact Hy.
  - exfalso. apply Hnotin. rewrite <- E. apply in_map. exact Hx.
  - apply IH; assumption.
Qed.

Section WeightProperties.

Variable ST_Length : linestring -> Q.

Lemma npoints_minus_one (r : osm_row) :
  (2 <= ST_NPoints (WKT r))%Z ->
  inject_Z (ST_NPoints (WKT r)) - inject_Z 1
  == inject_Z (Z.max (ST_NPoints (WKT r) - 1) 1).
Proof.
  intros H. rewrite Z.max_l by lia.
  unfold Qminus. rewrite <- inject_Z_opp, <- inject_Z_plus.
  reflexivity.
Qed.

Lemma weight_expr_defined (r : osm_row) (c : Q) :
  (2 <= ST_NPoints (WKT r))%Z ->
  light r = Some c ->
  weight_expr ST_Length r
  = Some (ST_Length (WKT r) / (inject_Z (ST_NPoints (WKT r)) - inject_Z 1)
          + (inject_Z 1 - c) * penalty_scale).
Proof.
  intros Hn Hl. unfold weight_expr. rewrite Hl. cbn.
  destruct (Qeq_bool _ 0) eqn:E; [|reflexivity].
  apply Qeq_bool_iff in E. rewrite (npoints_minus_one r Hn) in E.
  rewrite Z.max_l in E by lia.
  exfalso. unfold Qeq in E. cbn in E. lia.
Qed.

(** For a segment with at least two vertices and a coverage value, the
    value passed as WEIGHTS_VALUESPECIFIED is
    [length / max(point_count - 1, 1) + (1 - coverage) * 20]; with
    coverage 1 it is the length-density term alone, with coverage 0 it is
    that term plus the whole penalty 20; and that value is the weight
    component handed to [create_graph] under the segment's id. *)
Lemma weight_expr_formula (r : osm_row) (c : Q) :
  (2 <= ST_NPoints (WKT r))%Z ->
  light r = Some c ->
  exists w : Q,
    weight_expr ST_Length r = Some w /\
    w == reference_weight 20 (ST_Length (WKT r)) (ST_NPoints (WKT r)) c /\
    (c == 1 ->
     w == length_density (ST_Length (WKT r)) (ST_NPoints (WKT r))) /\
    (c == 0 ->
     w == length_density (ST_Length (WKT r)) (ST_NPoints (WKT r)) + 20) /\
    (forall osm_small, In r osm_small ->
       In {| WEIGHTS_EDGE_ID := osm_id r; WEIGHTS_VALUESPECIFIED := Some w |}
          (notebook_weights ST_Length osm_small)).
Proof.
  intros Hn Hl. eexists. split; [apply (weight_expr_defined r c Hn Hl)|].
  unfold reference_weight, length_density, penalty_scale.
  rewrite (npoints_minus_one r Hn).
  change (inject_Z 1) with 1.
  split; [reflexivity|].
  split; [intros Hc; rewrite Hc; ring|].
  split; [intros Hc; rewrite Hc; ring|].
  intros osm_small Hr. unfold notebook_weights. apply in_map_iff.
  exists r. split; [|exact Hr].
  rewrite (weight_expr_defined r c Hn Hl). reflexivity.
Qed.

End WeightProperties.

(** C6, as stated, fails: a single-vertex polyline divides by zero, a NULL
    [light] makes the weight NULL, and a zero-length fully lit segment
    weighs exactly 0; the expression has no floor. *)
Lemma weight_expr_no_epsilon_floor :
  weight_expr manhattan_length single_vertex_row = None /\
  weight_expr manhattan_length null_light_row = None /\
  (exists w : Q,
      weight_expr manhattan_length zero_length_row = Some w /\ w == 0) /\
  ~ epsilon_floor manhattan_length.
Proof.
  split; [reflexivity|]. split; [reflexivity|].
  split; [eexists; split; [reflexivity|reflexivity]|].
  intros (eps & Hpos & Hall).
  destruct (Hall zero_length_row) as (w & Hw & Hle).
  vm_compute in Hw. inversion Hw; subst w. lra.
Qed.

Section WeightSign.

Variable ST_Length : linestring -> Q.

(** C6, amended. For a segment with at least two vertices, a
    non-negative length and a coverage value of at most 1, the weight is
    defined and not negative; it is not bounded away from zero: with
    length 0 and coverage 1 it is 0. *)
Theorem weight_expr_nonnegative (r : osm_row) (c : Q) :
  (2 <= ST_NPoints (WKT r))%Z ->
  light r = Some c ->
  c <= 1 ->
  0 <= ST_Length (WKT r) ->
  exists w : Q,
    weight_expr ST_Length r = Some w /\
    0 <= w /\
    (ST_Length (WKT r) == 0 -> c == 1 -> w == 0).
Proof.
  intros Hn Hl Hc Hlen.
  eexists. split; [apply (weight_expr_defined ST_Length r c Hn Hl)|].
  rewrite (npoints_minus_one r Hn). rewrite Z.max_l by lia.
  change (inject_Z 1) with 1. unfold penalty_scale.
  set (n := inject_Z (ST_NPoints (WKT r) - 1)).
  assert (Hnpos : 0 < n).
  { unfold n. change 0 with (inject_Z 0). rewrite <- Zlt_Qlt. lia. }
  split.
  - assert (0 <= ST_Length (WKT r) / n).
    { apply Qle_shift_div_l; [exact Hnpos|]. lra. }
    assert (0 <= (1 - c) * 20) by lra.
    lra.
  - intros H0 H1. rewrite H0, H1. field. lra.
Qed.

End WeightSign.

Lemma weight_expr_nonnegative_witness :
  exists w : Q,
    weight_expr manhattan_length zero_length_row = Some w /\ 0 <= w.
Proof.
  destruct (weight_expr_nonnegative manhattan_length zero_length_row 1)
    as (w & Hw & Hs & _).
  - vm_compute. discriminate.
  - reflexivity.
  - vm_compute. discriminate.
  - vm_compute. discriminate.
  - exists w. split; [exact Hw | exact Hs].
Defined.

(* ------------------------------------------------------------------ *)
(** ** Coverage *)
(* ------------------------------------------------------------------ *)

Section CoverageProperties.

Import Attribution.

Ltac abstract_minmax :=
  repeat match goal with
  | |- context [Qmax ?x ?y] =>
      let m := fresh "m" in
      pose proof (Q.max_spec x y); set (m := Qmax x y) in *; clearbody m
  | |- context [Qmin ?x ?y] =>
      let m := fresh "m" in
      pose proof (Q.min_spec x y); set (m := Qmin x y) in *; clearbody m
  | H : context [Qmax ?x ?y] |- _ =>
      let m := fresh "m" in
      pose proof (Q.max_spec x y); set (m := Qmax x y) in *; clearbody m
  | H : context [Qmin ?x ?y] |- _ =>
      let m := fresh "m" in
      pose proof (Q.min_spec x y); set (m := Qmin x y) in *; clearbody m
  end.

Ltac split_cases :=
  repeat match goal with
  | H : _ /\ _ \/ _ /\ _ |- _ => destruct H as [[? ?]|[? ?]]; try lra
  end.

Ltac minmax := unfold span in *; abstract_minmax; split_cases; try lra.

Lemma span_nonneg (lo hi : Q) : 0 <= span lo hi.
Proof. minmax. Qed.

Lemma span_split (a b c d x : Q) :
  span (Qmax a c) (Qmin b d)
  == span (Qmax a c) (Qmin (Qmin b x) d)
     + span (Qmax (Qmax a x) c) (Qmin b d).
Proof. minmax. Qed.

Lemma span_cover (a b c d : Q) :
  c <= d ->
  span a b <= span (Qmax a c) (Qmin b d) + span a (Qmin b c)
              + span (Qmax a d) b.
Proof. intros H. minmax. Qed.

Lemma union_length_nonneg (l : list interval) (lo hi : Q) :
  0 <= union_length lo hi l.
Proof.
  revert lo hi. induction l as [|[c d] l IH]; intros lo hi; cbn; [lra|].
  destruct (Qle_bool c d); [|apply IH].
  pose proof (span_nonneg (Qmax lo c) (Qmin hi d)).
  pose proof (IH lo (Qmin hi c)). pose proof (IH (Qmax lo d) hi). lra.
Qed.

Lemma union_length_compat (l : list interval) (lo hi lo' hi' : Q) :
  lo == lo' -> hi == hi' ->
  union_length lo hi l == union_length lo' hi' l.
Proof.
  revert lo hi lo' hi'. induction l as [|[c d] l IH];
    intros lo hi lo' hi' El Eh; cbn; [reflexivity|].
  destruct (Qle_bool c d); [|apply IH; assumption].
  rewrite (IH lo (Qmin hi c) lo' (Qmin hi' c)),
          (IH (Qmax lo d) hi (Qmax lo' d) hi');
    try assumption; try (rewrite ?El, ?Eh; reflexivity).
  unfold span. rewrite El, Eh. reflexivity.
Qed.

Lemma union_length_split (l : list interval) (lo hi x : Q) :
  union_length lo hi l
  == union_length lo (Qmin hi x) l + union_length (Qmax lo x) hi l.
Proof.
  revert lo hi. induction l as [|[c d] l IH]; intros lo hi; cbn; [lra|].
  destruct (Qle_bool c d); [|apply IH].
  rewrite (IH lo (Qmin hi c)), (IH (Qmax lo d) hi).
  rewrite (span_split lo hi c d x).
  rewrite (union_length_compat l lo (Qmin (Qmin hi c) x)
                               lo (Qmin (Qmin hi x) c));
    [|reflexivity|minmax].
  rewrite (union_length_compat l (Qmax (Qmax lo d) x) hi
                               (Qmax (Qmax lo x) d) hi);
    [|minmax|reflexivity].
  lra.
Qed.

Lemma union_length_full (l : list interval) (lo hi : Q) :
  (forall t, lo < t -> t < hi -> covered l t) ->
  span lo hi <= union_length lo hi l.
Proof.
  revert lo hi. induction l as [|[c d] l IH]; intros lo hi H.
  - cbn. destruct (Qlt_le_dec lo hi) as [Hlt|Hle]; [|minmax].
    exfalso. destruct (H ((lo + hi) / 2)) as (i & [] & _);
      [apply Qlt_shift_div_l|apply Qlt_shift_div_r]; lra.
  - cbn [union_length]. destruct (Qle_bool c d) eqn:Hcd.
    + apply Qle_bool_iff in Hcd.
      assert (H1 : span lo (Qmin hi c) <= union_length lo (Qmin hi c) l).
      { apply IH. intros t Ht1 Ht2.
        assert (t < hi /\ t < c) as [Hth Htc] by (revert Ht2; minmax).
        destruct (H t Ht1 Hth) as (i & [<-|Hi] & Hm).
        - destruct Hm as [Hm _]. cbn in Hm. lra.
        - exists i. auto. }
      assert (H2 : span (Qmax lo d) hi <= union_length (Qmax lo d) hi l).
      { apply IH. intros t Ht1 Ht2.
        assert (lo < t /\ d < t) as [Htl Htd] by (revert Ht1; minmax).
        destruct (H t Htl Ht2) as (i & [<-|Hi] & Hm).
        - destruct Hm as [_ Hm]. cbn in Hm. lra.
        - exists i. auto. }
      pose proof (span_cover lo hi c d Hcd). lra.
    + apply IH. intros t Ht1 Ht2.
      destruct (H t Ht1 Ht2) as (i & [<-|Hi] & Hm).
      * destruct Hm as [Hm1 Hm2]. cbn in Hm1, Hm2.
        assert (c <= d) by lra. apply Qle_bool_iff in H0. congruence.
      * exists i. auto.
Qed.

Lemma union_length_mono (l l' : list interval) (lo hi : Q) :
  (forall t, lo < t -> t < hi -> covered l t -> covered l' t) ->
  union_length lo hi l <= union_length lo hi l'.
Proof.
  revert lo hi. induction l as [|[c d] l IH]; intros lo hi H.
  - cbn. apply union_length_nonneg.
  - cbn [union_length]. destruct (Qle_bool c d) eqn:Hcd.
    + apply Qle_bool_iff in Hcd.
      assert (H1 : union_length lo (Qmin hi c) l
                   <= union_length lo (Qmin hi c) l').
      { apply IH. intros t Ht1 Ht2 (i & Hi & Hm).
        assert (t < hi) by (revert Ht2; minmax).
        apply H; [assumption|assumption|].
        exists i. split; [right; exact Hi|exact Hm]. }
      assert (H2 : union_length (Qmax lo d) hi l
                   <= union_length (Qmax lo d) hi l').
      { apply IH. intros t Ht1 Ht2 (i & Hi & Hm).
        assert (lo < t) by (revert Ht1; minmax).
        apply H; [assumption|assumption|].
        exists i. split; [right; exact Hi|exact Hm]. }
      assert (H3 : span (Qmax lo c) (Qmin hi d)
                   <= union_length (Qmax lo c) (Qmin hi d) l').
      { apply union_length_full. intros t Ht1 Ht2.
        assert (lo < t /\ c < t) as [? ?] by (revert Ht1; minmax).
        assert (t < hi /\ t < d) as [? ?] by (revert Ht2; minmax).
        apply H; [assumption|assumption|].
        exists (c, d). split; [left; reflexivity|].
        split; cbn; lra. }
      rewrite (union_length_split l' lo hi c).
      rewrite (union_length_split l' (Qmax lo c) hi d).
      rewrite (union_length_compat l' (Qmax (Qmax lo c) d) hi
                                   (Qmax lo d) hi);
        [|minmax|reflexivity].
      lra.
    + apply IH. intros t Ht1 Ht2 (i & Hi & Hm).
      apply H; [assumption|assumption|].
      exists i. split; [right; exact Hi|exact Hm].
Qed.


Lemma union_length_bound (l : list interval) (lo hi : Q) :
  union_length lo hi l <= span lo hi.
Proof.
  apply Qle_trans with (union_length lo hi [(lo, hi)]).
  - apply union_length_mono. intros t Ht1 Ht2 _.
    exists (lo, hi). split; [left; reflexivity|]. split; cbn; lra.
  - cbn. destruct (Qle_bool lo hi); [|apply span_nonneg].
    pose proof (span_nonneg (Qmax lo lo) (Qmin hi hi)). minmax.
Qed.

Lemma union_length_app (l1 l2 : list interval) (lo hi : Q) :
  union_length lo hi (l1 ++ l2)
  <= union_length lo hi l1 + union_length lo hi l2.
Proof.
  revert lo hi. induction l1 as [|[c d] l1 IH]; intros lo hi.
  - cbn. lra.
  - cbn [app union_length]. destruct (Qle_bool c d) eqn:Hcd; [|apply IH].
    apply Qle_bool_iff in Hcd.
    pose proof (IH lo (Qmin hi c)). pose proof (IH (Qmax lo d) hi).
    pose proof (union_length_split l2 lo hi c) as S1.
    pose proof (union_length_split l2 (Qmax lo c) hi d) as S2.
    rewrite (union_length_compat l2 (Qmax (Qmax lo c) d) hi
                                 (Qmax lo d) hi) in S2;
      [|minmax|reflexivity].
    pose proof (union_length_nonneg l2 (Qmax lo c) (Qmin hi d)). lra.
Qed.

Lemma side_along (e : point * point) (a b : point) (t : Q) :
  side e (along a b t) == (1 - t) * side e a + t * side e b.
Proof.
  destruct e as [[px py] [qx qy]], a as [ax ay], b as [bx b_y].
  unfold side, along. cbn. ring.
Qed.

Lemma side_along_nonneg (e : point * point) (a b : point) (t : Q) :
  0 <= t -> t <= 1 -> 0 <= side e a -> 0 <= side e b ->
  0 <= side e (along a b t).
Proof. intros. rewrite side_along. nra. Qed.

Lemma mem_unit (t : Q) : mem t (0, 1) <-> 0 <= t /\ t <= 1.
Proof. unfold mem. cbn. tauto. Qed.

Lemma cut_sound (e : point * point) (a b : point) (i : interval) (t : Q) :
  0 <= t -> t <= 1 ->
  (mem t (cut e a b i) <-> mem t i /\ 0 <= side e (along a b t)).
Proof.
  intros Ht0 Ht1. rewrite side_along. unfold cut, mem.
  set (f0 := side e a). set (f1 := side e b).
  destruct (Qle_bool 0 f0) eqn:E0; destruct (Qle_bool 0 f1) eqn:E1.
  - apply Qle_bool_iff in E0, E1. split; [|tauto].
    intros H. split; [exact H|nra].
  - apply Qle_bool_iff in E0.
    assert (H1 : f1 < 0).
    { destruct (Qlt_le_dec f1 0) as [H|H]; [exact H|].
      apply Qle_bool_iff in H. congruence. }
    assert (HD : 0 < f0 - f1) by lra.
    assert (HT : (f0 / (f0 - f1)) * (f0 - f1) == f0) by (field; lra).
    set (T := f0 / (f0 - f1)) in *. cbn [fst snd].
    split.
    + intros [Hl Hh].
      assert (t <= snd i /\ t <= T) as [? ?] by (revert Hh; minmax).
      split; [split; assumption|]. nra.
    + intros [[Hl Hh] Hs]. split; [exact Hl|].
      assert (t <= T) by nra. minmax.
  - apply Qle_bool_iff in E1.
    assert (H0 : f0 < 0).
    { destruct (Qlt_le_dec f0 0) as [H|H]; [exact H|].
      apply Qle_bool_iff in H. congruence. }
    assert (HD : f0 - f1 < 0) by lra.
    assert (HT : (f0 / (f0 - f1)) * (f0 - f1) == f0) by (field; lra).
    set (T := f0 / (f0 - f1)) in *. cbn [fst snd].
    split.
    + intros [Hl Hh].
      assert (fst i <= t /\ T <= t) as [? ?] by (revert Hl; minmax).
      split; [split; assumption|]. nra.
    + intros [[Hl Hh] Hs]. split; [|exact Hh].
      assert (T <= t) by nra. minmax.
  - assert (H0 : f0 < 0).
    { destruct (Qlt_le_dec f0 0) as [H|H]; [exact H|].
      apply Qle_bool_iff in H. congruence. }
    assert (H1 : f1 < 0).
    { destruct (Qlt_le_dec f1 0) as [H|H]; [exact H|].
      apply Qle_bool_iff in H. congruence. }
    cbn [fst snd]. split; [lra|].
    intros [_ Hs]. exfalso.
    destruct (Qlt_le_dec t (1 # 2)); nra.
Qed.

Lemma clip_sound (buf : LightBuffer) (a b : point) (t : Q) :
  0 <= t -> t <= 1 ->
  (mem t (clip buf a b) <-> inside buf (along a b t) = true).
Proof.
  intros Ht0 Ht1. unfold clip, inside. destruct (solid buf); cbn [andb].
  - induction (sides buf) as [|e es IH].
    + cbn. rewrite mem_unit. tauto.
    + cbn [fold_right forallb]. rewrite cut_sound by assumption.
      rewrite IH, andb_true_iff, Qle_bool_iff. tauto.
  - unfold mem. cbn. split; [lra|discriminate].
Qed.

Lemma lit_covered (bs : list LightBuffer) (a b : point) (t : Q) :
  0 <= t -> t <= 1 ->
  (covered (map (fun buf => clip buf a b) bs) t
   <-> lit bs (along a b t) = true).
Proof.
  intros Ht0 Ht1. unfold covered, lit. rewrite existsb_exists. split.
  - intros (i & Hi & Hm). apply in_map_iff in Hi.
    destruct Hi as (buf & <- & Hb). exists buf. split; [exact Hb|].
    apply clip_sound; assumption.
  - intros (buf & Hb & Hin). exists (clip buf a b).
    split; [apply in_map_iff; exists buf; auto|]. apply clip_sound; assumption.
Qed.

Lemma span_unit : span 0 1 == 1.
Proof. minmax. Qed.

Lemma lit_fraction_bounds (bs : list LightBuffer) (a b : point) :
  0 <= lit_fraction bs a b /\ lit_fraction bs a b <= 1.
Proof.
  unfold lit_fraction. split; [apply union_length_nonneg|].
  pose proof (union_length_bound (map (fun buf => clip buf a b) bs) 0 1).
  pose proof span_unit. lra.
Qed.

Lemma lit_fraction_mono (bs bs' : list LightBuffer) (a b : point) :
  (forall t, 0 <= t -> t <= 1 ->
     lit bs (along a b t) = true -> lit bs' (along a b t) = true) ->
  lit_fraction bs a b <= lit_fraction bs' a b.
Proof.
  intros H. unfold lit_fraction. apply union_length_mono.
  intros t Ht0 Ht1 Hc.
  assert (0 <= t) by lra. assert (t <= 1) by lra.
  apply lit_covered; [assumption|assumption|].
  apply H; [assumption|assumption|].
  apply lit_covered; assumption.
Qed.

Lemma lit_fraction_full (bs : list LightBuffer) (a b : point) :
  (forall t, 0 <= t -> t <= 1 -> lit bs (along a b t) = true) ->
  lit_fraction bs a b == 1.
Proof.
  intros H. destruct (lit_fraction_bounds bs a b) as [_ Hle].
  assert (span 0 1 <= lit_fraction bs a b).
  { unfold lit_fraction. apply union_length_full. intros t Ht0 Ht1.
    apply lit_covered; [lra|lra|]. apply H; lra. }
  pose proof span_unit. lra.
Qed.

Lemma lit_fraction_app (bs1 bs2 : list LightBuffer) (a b : point) :
  lit_fraction (bs1 ++ bs2) a b
  <= lit_fraction bs1 a b + lit_fraction bs2 a b.
Proof.
  unfold lit_fraction. rewrite map_app. apply union_length_app.
Qed.

Lemma lit_nil (p : point) : lit [] p = false.
Proof. reflexivity. Qed.

Lemma inside_convex (buf : LightBuffer) (a b : point) (t : Q) :
  0 <= t -> t <= 1 ->
  inside buf a = true -> inside buf b = true ->
  inside buf (along a b t) = true.
Proof.
  intros Ht0 Ht1. unfold inside. destruct (solid buf); [|discriminate].
  cbn [andb]. rewrite !forallb_forall. intros Ha Hb e He.
  apply Qle_bool_iff. apply side_along_nonneg; try assumption;
    apply Qle_bool_iff; auto.
Qed.

Lemma pieces_in (seg : linestring) (a b : point) :
  In (a, b) (pieces seg) -> In a seg /\ In b seg.
Proof.
  induction seg as [|p seg IH]; [intros []|].
  destruct seg as [|q seg]; [intros []|].
  intros [E|H].
  - inversion E; subst. split; [left; reflexivity|right; left; reflexivity].
  - destruct (IH H) as [Ha Hb]. split; right; assumption.
Qed.

Lemma positive_radius (r : Q) : Qle_bool r 0 = false -> 0 < r.
Proof.
  intros E. destruct (Qlt_le_dec 0 r) as [H|H]; [exact H|].
  apply Qle_bool_iff in H. congruence.
Qed.

(** The vertices of a buffer are on the circle of its radius. *)
Lemma buffer_of_ring (r : Q) (c v : point) :
  In v (ring (buffer_of r c)) -> dist2 v c == r * r.
Proof.
  unfold buffer_of. destruct (Qle_bool r 0); [intros []|].
  cbn [ring]. intros H. apply in_map_iff in H. destruct H as (d & <- & Hd).
  unfold dist2. cbn [fst snd].
  assert (Hu : fst d * fst d + snd d * snd d == 1).
  { unfold compass in Hd. cbn in Hd.
    repeat (destruct Hd as [<-|Hd]; [reflexivity|]). destruct Hd. }
  transitivity (r * r * (fst d * fst d + snd d * snd d)); [ring|].
  rewrite Hu. ring.
Qed.

(** The sample is inside its buffer. *)
Lemma buffer_of_centre (r : Q) (c : point) :
  0 < r -> inside (buffer_of r c) c = true.
Proof.
  intros Hr. unfold buffer_of.
  destruct (Qle_bool r 0) eqn:E; [apply Qle_bool_iff in E; lra|].
  destruct c as [x y]. unfold inside, solid, sides. cbn.
  repeat (apply andb_true_intro; split); try reflexivity;
    apply Qle_bool_iff; unfold side; cbn [fst snd]; nra.
Qed.

(** A buffer does not reach further than its radius along either axis. *)
Lemma buffer_of_box (r : Q) (c p : point) :
  inside (buffer_of r c) p = true ->
  0 < r /\
  fst c - r <= fst p /\ fst p <= fst c + r /\
  snd c - r <= snd p /\ snd p <= snd c + r.
Proof.
  unfold buffer_of. destruct (Qle_bool r 0) eqn:E; [discriminate|].
  pose proof (positive_radius r E) as Hr.
  destruct c as [x y], p as [u v].
  unfold inside, solid, sides. cbn.
  rewrite !andb_true_iff, !Qle_bool_iff. unfold side. cbn [fst snd].
  intros H. decompose [and] H. clear H.
  split; [exact Hr|].
  assert (K : forall z, 0 <= r * z -> 0 <= z) by (intros z Hz; nra).
  repeat split; apply Qle_minus_iff; apply K; nra.
Qed.

Section Lengths.

Variable ST_Length : linestring -> Q.
Hypothesis length_nonneg : forall g, 0 <= ST_Length g.

Lemma total_length_nonneg (ps : list (point * point)) :
  0 <= total_length ST_Length ps.
Proof.
  induction ps as [|e ps IH]; cbn; [lra|].
  pose proof (length_nonneg [fst e; snd e]). unfold piece_length. lra.
Qed.

Lemma lit_length_bounds (bs : list LightBuffer) (ps : list (point * point)) :
  0 <= lit_length ST_Length bs ps /\
  lit_length ST_Length bs ps <= total_length ST_Length ps.
Proof.
  induction ps as [|e ps [IH1 IH2]]; cbn; [lra|].
  pose proof (length_nonneg [fst e; snd e]).
  destruct (lit_fraction_bounds bs (fst e) (snd e)).
  unfold piece_length. split; nra.
Qed.

Lemma lit_length_mono (bs bs' : list LightBuffer)
      (ps : list (point * point)) :
  (forall e, In e ps ->
     lit_fraction bs (fst e) (snd e) <= lit_fraction bs' (fst e) (snd e)) ->
  lit_length ST_Length bs ps <= lit_length ST_Length bs' ps.
Proof.
  induction ps as [|e ps IH]; intros H; cbn; [lra|].
  pose proof (length_nonneg [fst e; snd e]).
  pose proof (H e (or_introl eq_refl)).
  pose proof (IH (fun x Hx => H x (or_intror Hx))).
  unfold piece_length. nra.
Qed.

Lemma lit_length_full (bs : list LightBuffer) (ps : list (point * point)) :
  (forall e, In e ps -> lit_fraction bs (fst e) (snd e) == 1) ->
  lit_length ST_Length bs ps == total_length ST_Length ps.
Proof.
  induction ps as [|e ps IH]; intros H; cbn; [reflexivity|].
  rewrite (H e (or_introl eq_refl)), (IH (fun x Hx => H x (or_intror Hx))).
  ring.
Qed.

Lemma lit_length_app (bs1 bs2 : list LightBuffer)
      (ps : list (point * point)) :
  lit_length ST_Length (bs1 ++ bs2) ps
  <= lit_length ST_Length bs1 ps + lit_length ST_Length bs2 ps.
Proof.
  induction ps as [|e ps IH]; cbn; [lra|].
  pose proof (length_nonneg [fst e; snd e]).
  pose proof (lit_fraction_app bs1 bs2 (fst e) (snd e)).
  unfold piece_length. nra.
Qed.

(** Coverage is either the neutral 0 of a segment without length, or the
    lit length over the length. *)
Lemma coverage_cases (bs : list LightBuffer) (seg : linestring) :
  (total_length ST_Length (pieces seg) == 0 /\
   forall bs', coverage ST_Length bs' seg = 0) \/
  (0 < total_length ST_Length (pieces seg) /\
   forall bs', coverage ST_Length bs' seg
               = lit_length ST_Length bs' (pieces seg)
                 / total_length ST_Length (pieces seg)).
Proof.
  unfold coverage.
  destruct (Qeq_bool (total_length ST_Length (pieces seg)) 0) eqn:E.
  - left. apply Qeq_bool_iff in E. auto.
  - right. split; [|auto].
    pose proof (total_length_nonneg (pieces seg)).
    destruct (Qlt_le_dec 0 (total_length ST_Length (pieces seg)));
      [assumption|].
    assert (Hz : total_length ST_Length (pieces seg) == 0) by lra.
    apply Qeq_bool_iff in Hz. congruence.
Qed.

Lemma ratio_le (x y T : Q) : 0 < T -> x <= y -> x / T <= y / T.
Proof.
  intros HT H. apply Qle_shift_div_l; [exact HT|].
  assert (E : x / T * T == x) by (field; lra). lra.
Qed.


End Lengths.

End CoverageProperties.

Lemma manhattan_length_nonneg (g : linestring) : 0 <= manhattan_length g.
Proof.
  induction g as [|p g IH]; [cbn; lra|].
  destruct g as [|q g]; [cbn; lra|].
  change (manhattan_length (p :: q :: g))
    with (step_length p q + manhattan_length (q :: g)).
  unfold step_length.
  pose proof (Qabs_nonneg (fst q - fst p)).
  pose proof (Qabs_nonneg (snd q - snd p)). lra.
Qed.

(* ------------------------------------------------------------------ *)
(** ** Node merging *)
(* ------------------------------------------------------------------ *)

Section UnionFindProperties.

Import UnionFind.

Lemma find_make (n i : nat) : find (make n) i = i.
Proof.
  unfold find, make. destruct (Nat.lt_ge_cases i n) as [H|H].
  - rewrite seq_nth by exact H. reflexivity.
  - apply nth_overflow. rewrite length_seq. exact H.
Qed.

Lemma length_union (uf : t) (a b : nat) :
  List.length (union uf a b) = List.length uf.
Proof. unfold union. apply length_map. Qed.

Lemma length_unions (ps : list (nat * nat)) (uf : t) :
  List.length (unions ps uf) = List.length uf.
Proof.
  revert uf. induction ps as [|x ps IH]; intros uf; [reflexivity|].
  cbn. unfold unions in IH. rewrite IH. apply length_union.
Qed.

Lemma find_union (uf : t) (a b i : nat) :
  (i < List.length uf)%nat ->
  find (union uf a b) i
  = relabel (Nat.max (find uf a) (find uf b))
            (Nat.min (find uf a) (find uf b)) (find uf i).
Proof.
  intros Hi. unfold find at 1. unfold union.
  set (f := relabel _ _).
  rewrite (nth_indep (map f uf) i (f i)) by (rewrite length_map; exact Hi).
  rewrite map_nth. reflexivity.
Qed.

Lemma relabel_eq (hi lo x y : nat) :
  relabel hi lo x = relabel hi lo y <->
  x = y \/ ((x = hi \/ x = lo) /\ (y = hi \/ y = lo)).
Proof.
  unfold relabel.
  destruct (Nat.eqb_spec x hi), (Nat.eqb_spec y hi); lia.
Qed.

Lemma max_min_cases (a b x : nat) :
  (x = Nat.max a b \/ x = Nat.min a b) <-> (x = a \/ x = b).
Proof. lia. Qed.

Lemma unions_snoc (ps : list (nat * nat)) (a b : nat) (uf : t) :
  unions (ps ++ [(a, b)]) uf = union (unions ps uf) a b.
Proof. unfold unions. rewrite fold_left_app. reflexivity. Qed.

Lemma linked_nil (i j : nat) : linked [] i j -> i = j.
Proof.
  induction 1 as [x y H| | |]; [destruct H|reflexivity|congruence|congruence].
Qed.

Lemma linked_mono (ps qs : list (nat * nat)) (i j : nat) :
  incl ps qs -> linked ps i j -> linked qs i j.
Proof.
  intros Hi. induction 1 as [x y H|x|x y _ IH|x y z _ IH1 _ IH2].
  - apply rst_step. apply Hi. exact H.
  - apply rst_refl.
  - apply rst_sym. exact IH.
  - eapply rst_trans; eassumption.
Qed.

(** After uniting the pairs of [ps], two elements have the same
    representative exactly when the pairs link them. *)
Lemma unions_spec (n : nat) (ps : list (nat * nat)) :
  (forall i j, In (i, j) ps -> (i < n)%nat /\ (j < n)%nat) ->
  forall i j, (i < n)%nat -> (j < n)%nat ->
    find (unions ps (make n)) i = find (unions ps (make n)) j
    <-> linked ps i j.
Proof.
  induction ps as [|[a b] ps IH] using rev_ind; intros Hb i j Hi Hj.
  - change (unions [] (make n)) with (make n). rewrite !find_make. split.
    + intros ->. apply rst_refl.
    + apply linked_nil.
  - assert (Hps : forall x y, In (x, y) ps -> (x < n)%nat /\ (y < n)%nat).
    { intros x y H. apply Hb. apply in_or_app. left. exact H. }
    assert (Hab : (a < n)%nat /\ (b < n)%nat).
    { apply Hb. apply in_or_app. right. left. reflexivity. }
    destruct Hab as [Ha Hb'].
    specialize (IH Hps).
    set (U := unions ps (make n)) in *.
    assert (HU : List.length U = n).
    { unfold U. rewrite length_unions. apply length_seq. }
    assert (Hstep : forall x, (x < n)%nat ->
              find (unions (ps ++ [(a, b)]) (make n)) x
              = relabel (Nat.max (find U a) (find U b))
                        (Nat.min (find U a) (find U b)) (find U x)).
    { intros x Hx. rewrite unions_snoc. apply find_union.
      fold U. rewrite HU. exact Hx. }
    assert (Hinc : incl ps (ps ++ [(a, b)])) by (apply incl_appl, incl_refl).
    assert (Hlab : linked (ps ++ [(a, b)]) a b).
    { apply rst_step. apply in_or_app. right. left. reflexivity. }
    split.
    + rewrite (Hstep i Hi), (Hstep j Hj), relabel_eq, !max_min_cases.
      assert (Hto_a : forall x, (x < n)%nat ->
                 find U x = find U a \/ find U x = find U b ->
                 linked (ps ++ [(a, b)]) x a).
      { intros x Hx [H|H].
        - apply (linked_mono ps _ _ _ Hinc). apply IH; assumption.
        - eapply rst_trans; [|apply rst_sym; exact Hlab].
          apply (linked_mono ps _ _ _ Hinc). apply IH; assumption. }
      intros [H|[H1 H2]].
      * apply (linked_mono ps _ _ _ Hinc). apply IH; assumption.
      * eapply rst_trans; [apply (Hto_a i Hi H1)|].
        apply rst_sym. apply (Hto_a j Hj H2).
    + intros H.
      assert (HR : i = j \/
                   ((i < n)%nat /\ (j < n)%nat /\
                    find (unions (ps ++ [(a, b)]) (make n)) i
                    = find (unions (ps ++ [(a, b)]) (make n)) j)).
      { clear Hi Hj.
        induction H as [x y H|x|x y _ IHc|x y z _ IH1 _ IH2].
        - right. destruct (Hb x y H) as [Hx Hy].
          split; [exact Hx|]. split; [exact Hy|].
          rewrite (Hstep x Hx), (Hstep y Hy), relabel_eq, !max_min_cases.
          apply in_app_or in H. destruct H as [H|[H|[]]].
          + left. apply IH; [exact Hx|exact Hy|].
            apply rst_step. exact H.
          + inversion H; subst x y. right. split; [left|right]; reflexivity.
        - left. reflexivity.
        - destruct IHc as [->|(Hx & Hy & E)]; [left; reflexivity|].
          right. repeat split; [exact Hy|exact Hx|symmetry; exact E].
        - destruct IH1 as [->|(Hx & Hy & E1)]; [exact IH2|].
          destruct IH2 as [<-|(_ & Hz & E2)].
          + right. repeat split; assumption.
          + right. repeat split; [exact Hx|exact Hz|congruence]. }
      destruct HR as [->|(_ & _ & E)]; [reflexivity|exact E].
Qed.

End UnionFindProperties.

Section MergeProperties.

Variable tol : Q.

Lemma dist2_refl (p : point) : dist2 p p == 0.
Proof. unfold dist2. ring. Qed.

Lemma within_refl (p : point) : within tol p p = true.
Proof.
  unfold within. apply Qle_bool_iff. rewrite dist2_refl. nra.
Qed.

Lemma within_sym (p q : point) : within tol p q = within tol q p.
Proof.
  unfold within.
  assert (E : dist2 p q == dist2 q p) by (unfold dist2; ring).
  destruct (Qle_bool (dist2 p q) (tol * tol)) eqn:H1;
    destruct (Qle_bool (dist2 q p) (tol * tol)) eqn:H2; try reflexivity.
  - apply Qle_bool_iff in H1. rewrite E in H1.
    apply Qle_bool_iff in H1. congruence.
  - apply Qle_bool_iff in H2. rewrite <- E in H2.
    apply Qle_bool_iff in H2. congruence.
Qed.

Lemma close_pairs_in (pts : list point) (i j : nat) :
  In (i, j) (close_pairs tol pts) <->
  (i < List.length pts)%nat /\ (j < List.length pts)%nat /\
  within tol (nth i pts origin) (nth j pts origin) = true.
Proof.
  unfold close_pairs. rewrite filter_In, in_prod_iff, !in_seq. cbn.
  intuition lia.
Qed.

Lemma merge_find_iff (pts : list point) (i j : nat) :
  (i < List.length pts)%nat -> (j < List.length pts)%nat ->
  UnionFind.find (merge_endpoints tol pts) i
  = UnionFind.find (merge_endpoints tol pts) j
  <-> linked (close_pairs tol pts) i j.
Proof.
  intros Hi Hj. unfold merge_endpoints. apply unions_spec; try assumption.
  intros x y H. apply close_pairs_in in H. tauto.
Qed.

Lemma linked_tol_equiv (pts : list point) (i j : nat) :
  linked (close_pairs tol pts) i j ->
  tol_equiv tol pts (nth i pts origin) (nth j pts origin).
Proof.
  induction 1 as [x y H|x|x y _ IH|x y z _ IH1 _ IH2].
  - apply close_pairs_in in H. destruct H as (Hx & Hy & Hw).
    apply rst_step. repeat split; [apply nth_In; exact Hx
                                  |apply nth_In; exact Hy|exact Hw].
  - apply rst_refl.
  - apply rst_sym. exact IH.
  - eapply rst_trans; eassumption.
Qed.

Lemma nth_error_bound {A} (l : list A) (i : nat) (x : A) :
  nth_error l i = Some x -> (i < List.length l)%nat.
Proof. intros H. apply nth_error_Some. congruence. Qed.

Lemma all_same_close (pts : list point) (p q : point) :
  within tol p q = true -> all_same tol pts p q.
Proof.
  intros Hw i j Hi Hj. apply merge_find_iff.
  - apply (nth_error_bound _ _ _ Hi).
  - apply (nth_error_bound _ _ _ Hj).
  - apply rst_step. apply close_pairs_in.
    split; [apply (nth_error_bound _ _ _ Hi)|].
    split; [apply (nth_error_bound _ _ _ Hj)|].
    rewrite (nth_error_nth _ _ origin Hi), (nth_error_nth _ _ origin Hj).
    exact Hw.
Qed.

Lemma tol_equiv_all_same (pts : list point) (p q : point) :
  tol_equiv tol pts p q ->
  p = q \/ (In p pts /\ In q pts /\ all_same tol pts p q).
Proof.
  induction 1 as [x y H|x|x y _ IH|x y z _ IH1 _ IH2].
  - right. destruct H as (Hx & Hy & Hw).
    repeat split; [exact Hx|exact Hy|]. apply all_same_close. exact Hw.
  - left. reflexivity.
  - destruct IH as [->|(Hx & Hy & Hs)]; [left; reflexivity|].
    right. repeat split; [exact Hy|exact Hx|].
    intros i j Hi Hj. symmetry. apply Hs; assumption.
  - destruct IH1 as [->|(Hx & Hy & H1)]; [exact IH2|].
    destruct IH2 as [<-|(_ & Hz & H2)].
    + right. repeat split; assumption.
    + right. repeat split; [exact Hx|exact Hz|].
      intros i j Hi Hj.
      destruct (In_nth_error _ _ Hy) as [k Hk].
      rewrite (H1 i k Hi Hk). apply H2; assumption.
Qed.

Lemma same_node_iff (pts : list point) (p q : point) :
  In p pts -> In q pts ->
  (same_node tol pts p q <-> tol_equiv tol pts p q).
Proof.
  intros Hp Hq. split.
  - intros (i & j & Hi & Hj & E).
    rewrite <- (nth_error_nth _ _ origin Hi), <- (nth_error_nth _ _ origin Hj).
    apply linked_tol_equiv. apply merge_find_iff; [| |exact E].
    + apply (nth_error_bound _ _ _ Hi).
    + apply (nth_error_bound _ _ _ Hj).
  - intros H.
    assert (Hs : all_same tol pts p q).
    { destruct (tol_equiv_all_same pts p q H) as [->|(_ & _ & Hs)].
      - apply all_same_close. apply within_refl.
      - exact Hs. }
    destruct (In_nth_error _ _ Hp) as [i Hi].
    destruct (In_nth_error _ _ Hq) as [j Hj].
    exists i, j. repeat split; [exact Hi|exact Hj|]. apply Hs; assumption.
Qed.

Lemma same_node_in (pts : list point) (p q : point) :
  same_node tol pts p q -> In p pts /\ In q pts.
Proof.
  intros (i & j & Hi & Hj & _).
  split; eapply nth_error_In; eassumption.
Qed.

Lemma tol_equiv_incl (pts pts' : list point) (p q : point) :
  incl pts pts' -> tol_equiv tol pts p q -> tol_equiv tol pts' p q.
Proof.
  intros Hi. induction 1 as [x y H|x|x y _ IH|x y z _ IH1 _ IH2].
  - destruct H as (Hx & Hy & Hw). apply rst_step.
    repeat split; [apply Hi; exact Hx|apply Hi; exact Hy|exact Hw].
  - apply rst_refl.
  - apply rst_sym. exact IH.
  - eapply rst_trans; eassumption.
Qed.

Lemma merge_quotient (pts : list point) :
  (forall p q, In p pts -> In q pts ->
     (same_node tol pts p q <-> tol_equiv tol pts p q)) /\
  (forall A B C, In A pts -> In B pts -> In C pts ->
     within tol A B = true -> within tol B C = true ->
     same_node tol pts A C) /\
  (forall A B C,
     same_node tol pts A B -> same_node tol pts B C ->
     same_node tol pts A C) /\
  (forall pts', Permutation pts pts' ->
     forall p q, same_node tol pts p q <-> same_node tol pts' p q).
Proof.
  split; [apply same_node_iff|].
  split.
  { intros A B C HA HB HC HAB HBC. apply same_node_iff; try assumption.
    apply rst_trans with B; apply rst_step; unfold tol_step; tauto. }
  split.
  { intros A B C HAB HBC.
    destruct (same_node_in _ _ _ HAB) as [HA HB].
    destruct (same_node_in _ _ _ HBC) as [_ HC].
    apply same_node_iff; try assumption.
    apply rst_trans with B; apply same_node_iff; assumption. }
  assert (Hdir : forall l l' p q, Permutation l l' ->
             same_node tol l p q -> same_node tol l' p q).
  { intros l l' p q Hperm H.
    destruct (same_node_in _ _ _ H) as [Hp Hq].
    apply same_node_iff.
    - eapply Permutation_in; eassumption.
    - eapply Permutation_in; eassumption.
    - apply (tol_equiv_incl l l').
      + intros x Hx. eapply Permutation_in; eassumption.
      + apply same_node_iff; assumption. }
  intros pts' Hperm p q. split; apply Hdir.
  - exact Hperm.
  - apply Permutation_sym. exact Hperm.
Qed.

End MergeProperties.

Section BuildProperties.

Import UnionFind.

Variable tol : Q.

(** Representatives are elements of the arena and represent
    themselves. *)
Lemma unions_rep (n : nat) (ps : list (nat * nat)) :
  (forall i j, In (i, j) ps -> (i < n)%nat /\ (j < n)%nat) ->
  forall i, (i < n)%nat ->
    (find (unions ps (make n)) i < n)%nat /\
    find (unions ps (make n)) (find (unions ps (make n)) i)
    = find (unions ps (make n)) i.
Proof.
  induction ps as [|[a b] ps IH] using rev_ind; intros Hb i Hi.
  - change (unions [] (make n)) with (make n). rewrite !find_make.
    split; [exact Hi|reflexivity].
  - assert (Hps : forall x y, In (x, y) ps -> (x < n)%nat /\ (y < n)%nat).
    { intros x y H. apply Hb. apply in_or_app. left. exact H. }
    assert (Hab : (a < n)%nat /\ (b < n)%nat).
    { apply Hb. apply in_or_app. right. left. reflexivity. }
    destruct Hab as [Ha Hb'].
    specialize (IH Hps).
    rewrite unions_snoc.
    set (U := unions ps (make n)) in *.
    assert (HU : List.length U = n).
    { unfold U. rewrite length_unions. apply length_seq. }
    destruct (IH a Ha) as [Ha1 Ha2].
    destruct (IH b Hb') as [Hb1 Hb2].
    destruct (IH i Hi) as [Hi1 Hi2].
    rewrite (find_union U a b i) by (rewrite HU; exact Hi).
    set (hi := Nat.max (find U a) (find U b)).
    set (lo := Nat.min (find U a) (find U b)).
    assert (Hlo : (lo < n)%nat /\ find U lo = lo).
    { unfold lo. destruct (Nat.min_spec (find U a) (find U b)) as [[_ ->]|[_ ->]];
        split; assumption. }
    destruct Hlo as [Hlo1 Hlo2].
    assert (Hcases : relabel hi lo (find U i) = lo \/
                     (relabel hi lo (find U i) = find U i /\ find U i <> hi)).
    { unfold relabel. destruct (Nat.eqb_spec (find U i) hi); auto. }
    destruct Hcases as [E|[E Hne]]; rewrite E.
    + split; [exact Hlo1|].
      rewrite find_union by (rewrite HU; exact Hlo1).
      fold hi lo. rewrite Hlo2. unfold relabel.
      destruct (lo =? hi); reflexivity.
    + split; [exact Hi1|].
      rewrite find_union by (rewrite HU; exact Hi1).
      fold hi lo. rewrite Hi2. exact E.
Qed.

Lemma merge_rep (pts : list point) (i : nat) :
  (i < List.length pts)%nat ->
  (find (merge_endpoints tol pts) i < List.length pts)%nat /\
  find (merge_endpoints tol pts) (find (merge_endpoints tol pts) i)
  = find (merge_endpoints tol pts) i.
Proof.
  intros Hi. unfold merge_endpoints. apply unions_rep; [|exact Hi].
  intros x y H. apply close_pairs_in in H. tauto.
Qed.

Lemma find_eq_iff_tol_equiv (pts : list point) (i j : nat) (p q : point) :
  nth_error pts i = Some p -> nth_error pts j = Some q ->
  (find (merge_endpoints tol pts) i = find (merge_endpoints tol pts) j
   <-> tol_equiv tol pts p q).
Proof.
  intros Hi Hj. split.
  - intros E. apply same_node_iff.
    + eapply nth_error_In; eassumption.
    + eapply nth_error_In; eassumption.
    + exists i, j. repeat split; assumption.
  - intros H.
    destruct (tol_equiv_all_same tol pts p q H) as [->|(_ & _ & Hs)].
    + apply (all_same_close tol pts q q (within_refl tol q)); assumption.
    + apply Hs; assumption.
Qed.

Lemma endpoints_nth (ss : list segment) (k : nat) (s : segment) (b : bool) :
  nth_error ss k = Some s ->
  nth_error (endpoints ss) (end_cell k b) = Some (seg_end s b).
Proof.
  revert k. induction ss as [|s0 ss IH]; intros k H.
  - destruct k; discriminate.
  - destruct k as [|k].
    + inversion H; subst s0. destruct b; reflexivity.
    + cbn in H. specialize (IH k H).
      unfold end_cell in *. destruct b.
      * replace (2 * S k)%nat with (S (S (2 * k))) by lia. exact IH.
      * replace (2 * S k + 1)%nat with (S (S (2 * k + 1))) by lia. exact IH.
Qed.

Lemma edges_of_nth (uf : t) (ss : list segment) (k0 k : nat) (s : segment) :
  nth_error ss k = Some s ->
  nth_error (edges_of uf k0 ss) k
  = Some {| edge_id := seg_id s;
            from_node := find uf (2 * (k0 + k));
            to_node := find uf (2 * (k0 + k) + 1);
            weight := seg_weight s |}.
Proof.
  revert k0 k. induction ss as [|s0 ss IH]; intros k0 k H.
  - destruct k; discriminate.
  - destruct k as [|k].
    + inversion H; subst s0. cbn [edges_of nth_error].
      rewrite Nat.add_0_r. reflexivity.
    + cbn [edges_of nth_error]. cbn in H.
      rewrite (IH (S k0) k H).
      replace (S k0 + k)%nat with (k0 + S k)%nat by lia. reflexivity.
Qed.

Lemma edges_of_length (uf : t) (ss : list segment) (k0 : nat) :
  List.length (edges_of uf k0 ss) = List.length ss.
Proof.
  revert k0. induction ss as [|s ss IH]; intros k0; cbn; [reflexivity|].
  rewrite IH. reflexivity.
Qed.

Lemma endpoints_length (ss : list segment) :
  List.length (endpoints ss) = (2 * List.length ss)%nat.
Proof.
  induction ss as [|s ss IH]; [reflexivity|].
  change (endpoints (s :: ss))
    with (seg_from s :: seg_to s :: endpoints ss).
  cbn [List.length]. lia.
Qed.

(** The [k]-th usable segment becomes the [k]-th edge; its ends are the
    representatives of its two cells of the arena. *)
Lemma build_edge (d : bool) (es : list edge_component)
      (ws : list weight_component) (k : nat) (s : segment) (e : GraphEdge) :
  nth_error (segments es ws) k = Some s ->
  nth_error (edges (build d tol es ws)) k = Some e ->
  edge_id e = seg_id s /\ weight e = seg_weight s /\
  forall b, edge_end e b
            = find (merge_endpoints tol (endpoints (segments es ws)))
                   (end_cell k b).
Proof.
  intros Hs He. cbn in He. rewrite (edges_of_nth _ _ 0 k s Hs) in He.
  inversion He; subst e. cbn. repeat split.
  intros []; reflexivity.
Qed.

Lemma nodes_of_in (uf : t) (arena : list point) (r : nat) :
  (r < List.length arena)%nat -> find uf r = r ->
  In {| node_id := r; coordinate := nth r arena origin |} (nodes_of uf arena).
Proof.
  intros Hr E. unfold nodes_of. apply in_flat_map. exists r. split.
  - apply in_seq. lia.
  - rewrite E, Nat.eqb_refl. left. reflexivity.
Qed.

Lemma nodes_of_ids (uf : t) (arena : list point) (k n : nat) :
  map node_id
      (flat_map (fun i => if find uf i =? i
                          then [{| node_id := i;
                                   coordinate := nth i arena origin |}]
                          else []) (seq k n))
  = filter (fun i => find uf i =? i) (seq k n).
Proof.
  revert k. induction n as [|n IH]; intros k; [reflexivity|].
  cbn. destruct (find uf k =? k); cbn; rewrite IH; reflexivity.
Qed.

(** A representative is never later in the arena than an element it
    represents: the class is named by its first-seen endpoint. *)
Lemma unions_first (n : nat) (ps : list (nat * nat)) (i : nat) :
  (i < n)%nat -> (find (unions ps (make n)) i <= i)%nat.
Proof.
  intros Hi. induction ps as [|[a b] ps IH] using rev_ind.
  - change (unions [] (make n)) with (make n). rewrite find_make. lia.
  - rewrite unions_snoc.
    set (U := unions ps (make n)) in *.
    assert (HU : List.length U = n).
    { unfold U. rewrite length_unions. apply length_seq. }
    rewrite (find_union U a b i) by (rewrite HU; exact Hi).
    unfold relabel.
    destruct (Nat.eqb_spec (find U i) (Nat.max (find U a) (find U b))); lia.
Qed.

Lemma merge_first (pts : list point) (i : nat) :
  (i < List.length pts)%nat -> (find (merge_endpoints tol pts) i <= i)%nat.
Proof. intros Hi. unfold merge_endpoints. apply unions_first. exact Hi. Qed.

(** The nodes are the cells that represent themselves, each at the
    coordinate of its cell. *)
Lemma nodes_of_iff (uf : t) (arena : list point) (n : GraphNode) :
  In n (nodes_of uf arena) <->
  exists i, (i < List.length arena)%nat /\ find uf i = i /\
            n = {| node_id := i; coordinate := nth i arena origin |}.
Proof.
  unfold nodes_of. rewrite in_flat_map. split.
  - intros (i & Hi & Hn). apply in_seq in Hi.
    destruct (Nat.eqb_spec (find uf i) i) as [E|E]; [|destruct Hn].
    destruct Hn as [Hn|[]]. subst n. exists i. split; [lia|]. split; [exact E|reflexivity].
  - intros (i & Hi & E & Hn). subst n. exists i. split; [apply in_seq; lia|].
    rewrite E, Nat.eqb_refl. left. reflexivity.
Qed.

Lemma nth_error_cell (pts : list point) (i : nat) :
  (i < List.length pts)%nat -> nth_error pts i = Some (nth i pts origin).
Proof. intros Hi. apply nth_error_nth'. exact Hi. Qed.

(** The node of a cell: in the graph, and equivalent to the cell. *)
Lemma node_of_cell (pts : list point) (i : nat) (p : point) :
  nth_error pts i = Some p ->
  exists n, In n (nodes_of (merge_endpoints tol pts) pts) /\
            node_id n = find (merge_endpoints tol pts) i /\
            tol_equiv tol pts p (coordinate n).
Proof.
  intros Hp. assert (Hi := nth_error_bound _ _ _ Hp).
  destruct (merge_rep pts i Hi) as [Hr1 Hr2].
  exists {| node_id := find (merge_endpoints tol pts) i;
            coordinate := nth (find (merge_endpoints tol pts) i) pts origin |}.
  split; [apply nodes_of_in; assumption|]. split; [reflexivity|].
  cbn [coordinate].
  apply (find_eq_iff_tol_equiv pts i (find (merge_endpoints tol pts) i)).
  - exact Hp.
  - apply nth_error_cell. exact Hr1.
  - symmetry. exact Hr2.
Qed.

Lemma segment_of_iff (ws : list weight_component) (e0 : edge_component)
      (s : segment) :
  segment_of ws e0 = Some s <->
  exists a b tl w,
    EDGE_WKTLINE e0 = a :: b :: tl /\
    weight_of ws (EDGE_ID e0) = Some w /\
    s = {| seg_id := EDGE_ID e0; seg_from := a;
           seg_to := last (b :: tl) a; seg_weight := w |}.
Proof.
  unfold segment_of. split.
  - destruct (EDGE_WKTLINE e0) as [|a [|b tl]]; try discriminate.
    destruct (weight_of ws (EDGE_ID e0)) as [w|]; [|discriminate].
    intros H. inversion H. exists a, b, tl, w. auto.
  - intros (a & b & tl & w & Hg & Hw & Hs). rewrite Hg, Hw, Hs. reflexivity.
Qed.

(** Which endpoints the builder sees: the two ends of every polyline
    that has at least two vertices and a weight with a value. *)
Lemma endpoints_iff (es : list edge_component) (ws : list weight_component)
      (p : point) :
  In p (endpoints (segments es ws)) <->
  exists e0 a b tl w,
    In e0 es /\ EDGE_WKTLINE e0 = a :: b :: tl /\
    weight_of ws (EDGE_ID e0) = Some w /\
    (p = a \/ p = last (b :: tl) a).
Proof.
  unfold endpoints, segments. rewrite in_flat_map. split.
  - intros (s & Hs & Hp). apply in_flat_map in Hs.
    destruct Hs as (e0 & He0 & Hs).
    destruct (segment_of ws e0) as [s'|] eqn:E; [|destruct Hs].
    destruct Hs as [<-|[]].
    apply segment_of_iff in E. destruct E as (a & b & tl & w & Hg & Hw & ->).
    exists e0, a, b, tl, w. repeat split; try assumption.
    cbn in Hp. destruct Hp as [<-|[<-|[]]]; auto.
  - intros (e0 & a & b & tl & w & He0 & Hg & Hw & Hp).
    exists {| seg_id := EDGE_ID e0; seg_from := a;
              seg_to := last (b :: tl) a; seg_weight := w |}.
    split.
    + apply in_flat_map. exists e0. split; [exact He0|].
      replace (segment_of ws e0)
        with (Some {| seg_id := EDGE_ID e0; seg_from := a;
                      seg_to := last (b :: tl) a; seg_weight := w |}).
      * left. reflexivity.
      * symmetry. apply segment_of_iff. exists a, b, tl, w. auto.
    + cbn. destruct Hp as [-> | ->]; auto.
Qed.

(** When every polyline has two vertices and every id a weight, no
    segment is left out: the arena is the list of all polyline ends. *)
Lemma endpoints_all (es : list edge_component) (ws : list weight_component) :
  (forall e0, In e0 es ->
     (2 <= ST_NPoints (EDGE_WKTLINE e0))%Z /\
     weight_of ws (EDGE_ID e0) <> None) ->
  endpoints (segments es ws)
  = flat_map (fun e0 => [hd origin (EDGE_WKTLINE e0);
                         last (EDGE_WKTLINE e0) origin]) es.
Proof.
  induction es as [|e0 es IH]; intros H; [reflexivity|].
  assert (IH' := IH (fun e He => H e (or_intror He))).
  destruct (H e0 (or_introl eq_refl)) as [Hn Hw].
  unfold endpoints, segments in *. cbn [flat_map].
  rewrite flat_map_app, IH'. f_equal.
  unfold segment_of, ST_NPoints in *.
  destruct (EDGE_WKTLINE e0) as [|a [|b tl]]; cbn in Hn; try lia.
  destruct (weight_of ws (EDGE_ID e0)) as [w|]; [|contradiction].
  cbn [flat_map seg_from seg_to app hd]. f_equal. f_equal.
  clear. revert a b. induction tl as [|c tl IHtl]; intros a b; [reflexivity|].
  change (last (b :: c :: tl) a) with (last (c :: tl) a).
  change (last (a :: b :: c :: tl) origin) with (last (b :: c :: tl) origin).
  rewrite (IHtl a c).
  change (last (b :: c :: tl) origin) with (last (c :: tl) origin).
  destruct tl; reflexivity.
Qed.

(** C3. The nodes of the built graph are the classes of the segment
    endpoints under the equivalence generated by "within the
    tolerance": two endpoints share a node exactly when a chain of
    within-tolerance endpoints joins them.  So if A is within the
    tolerance of B and B of C, then A and C share a node; sharing a node
    is transitive; the tolerance test is symmetric; presenting the
    endpoints in another order gives the same classes; in the graph, two
    edge ends are the same node exactly when the segment ends are
    equivalent, and every edge end is the id of one node of the graph.
    The node list is that quotient: every node sits at the coordinate of
    an endpoint, the first-seen one of its class; every endpoint is
    equivalent to the coordinate of a node; two nodes with equivalent
    coordinates are one node; and the node at an edge end is the class
    of that segment end.  The endpoints in question are the two ends of
    every polyline with at least two vertices and a weight that has a
    value, which are all of them when no polyline is shorter and no
    weight is missing. *)
Theorem merge_is_transitive_quotient (pts : list point) :
  (forall p q, In p pts -> In q pts ->
     (same_node tol pts p q <-> tol_equiv tol pts p q)) /\
  (forall p q, within tol p q = within tol q p) /\
  (forall A B C, In A pts -> In B pts -> In C pts ->
     within tol A B = true -> within tol B C = true ->
     same_node tol pts A C) /\
  (forall A B C,
     same_node tol pts A B -> same_node tol pts B C ->
     same_node tol pts A C) /\
  (forall pts', Permutation pts pts' ->
     forall p q, same_node tol pts p q <-> same_node tol pts' p q) /\
  (forall d es ws k1 k2 s1 s2 e1 e2 b1 b2,
     nth_error (segments es ws) k1 = Some s1 ->
     nth_error (segments es ws) k2 = Some s2 ->
     nth_error (edges (build d tol es ws)) k1 = Some e1 ->
     nth_error (edges (build d tol es ws)) k2 = Some e2 ->
     (edge_end e1 b1 = edge_end e2 b2 <->
      tol_equiv tol (endpoints (segments es ws))
                (seg_end s1 b1) (seg_end s2 b2))) /\
  (forall d es ws e b,
     In e (edges (build d tol es ws)) ->
     exists n, In n (nodes (build d tol es ws)) /\
               node_id n = edge_end e b) /\
  (forall d es ws, NoDup (map node_id (nodes (build d tol es ws)))) /\
  (forall d es ws n,
     In n (nodes (build d tol es ws)) ->
     nth_error (endpoints (segments es ws)) (node_id n)
     = Some (coordinate n) /\
     forall i p,
       nth_error (endpoints (segments es ws)) i = Some p ->
       tol_equiv tol (endpoints (segments es ws)) p (coordinate n) ->
       (node_id n <= i)%nat) /\
  (forall d es ws p,
     In p (endpoints (segments es ws)) ->
     exists n, In n (nodes (build d tol es ws)) /\
               tol_equiv tol (endpoints (segments es ws)) p (coordinate n)) /\
  (forall d es ws n1 n2,
     In n1 (nodes (build d tol es ws)) ->
     In n2 (nodes (build d tol es ws)) ->
     tol_equiv tol (endpoints (segments es ws))
               (coordinate n1) (coordinate n2) ->
     n1 = n2) /\
  (forall d es ws k s e b,
     nth_error (segments es ws) k = Some s ->
     nth_error (edges (build d tol es ws)) k = Some e ->
     exists n, In n (nodes (build d tol es ws)) /\
               node_id n = edge_end e b /\
               tol_equiv tol (endpoints (segments es ws))
                         (seg_end s b) (coordinate n)) /\
  (forall es ws p,
     In p (endpoints (segments es ws)) <->
     exists e0 a b tl w,
       In e0 es /\ EDGE_WKTLINE e0 = a :: b :: tl /\
       weight_of ws (EDGE_ID e0) = Some w /\
       (p = a \/ p = last (b :: tl) a)) /\
  (forall es ws,
     (forall e0, In e0 es ->
        (2 <= ST_NPoints (EDGE_WKTLINE e0))%Z /\
        weight_of ws (EDGE_ID e0) <> None) ->
     endpoints (segments es ws)
     = flat_map (fun e0 => [hd origin (EDGE_WKTLINE e0);
                            last (EDGE_WKTLINE e0) origin]) es).
Proof.
  destruct (merge_quotient tol pts) as (H1 & H2 & H3 & H4).
  split; [exact H1|]. split; [apply within_sym|].
  split; [exact H2|]. split; [exact H3|].
  split; [exact H4|]. clear H1 H2 H3 H4.
  split.
  { intros d es ws k1 k2 s1 s2 e1 e2 b1 b2 Hs1 Hs2 He1 He2.
    destruct (build_edge d es ws k1 s1 e1 Hs1 He1) as (_ & _ & E1).
    destruct (build_edge d es ws k2 s2 e2 Hs2 He2) as (_ & _ & E2).
    rewrite E1, E2. apply find_eq_iff_tol_equiv; apply endpoints_nth;
      assumption. }
  split.
  { intros d es ws e b He.
    destruct (In_nth_error _ _ He) as [k Hk].
    assert (Hlen : (k < List.length (segments es ws))%nat).
    { apply nth_error_bound in Hk. cbn in Hk.
      rewrite edges_of_length in Hk. exact Hk. }
    destruct (nth_error (segments es ws) k) as [s|] eqn:Hs;
      [|apply nth_error_None in Hs; lia].
    destruct (build_edge d es ws k s e Hs Hk) as (_ & _ & E).
    set (arena := endpoints (segments es ws)) in *.
    assert (Hcell : (end_cell k b < List.length arena)%nat).
    { unfold arena. rewrite endpoints_length.
      unfold end_cell. destruct b; lia. }
    destruct (merge_rep arena (end_cell k b) Hcell) as [Hr1 Hr2].
    eexists. split.
    - cbn. apply nodes_of_in; [exact Hr1|exact Hr2].
    - cbn. rewrite E. reflexivity. }
  split.
  { intros d es ws. cbn. unfold nodes_of. rewrite nodes_of_ids.
    apply NoDup_filter. apply seq_NoDup. }
  split.
  { intros d es ws n Hn. cbn [build nodes] in Hn.
    apply nodes_of_iff in Hn. destruct Hn as (r & Hr & E & ->).
    cbn [node_id coordinate]. split; [apply nth_error_cell; exact Hr|].
    intros i p Hp Heq.
    assert (Hi := nth_error_bound _ _ _ Hp).
    apply (find_eq_iff_tol_equiv _ i r p _ Hp (nth_error_cell _ r Hr)) in Heq.
    rewrite E in Heq. rewrite <- Heq. apply merge_first. exact Hi. }
  split.
  { intros d es ws p Hp. destruct (In_nth_error _ _ Hp) as [i Hi].
    destruct (node_of_cell _ i p Hi) as (n & Hn & _ & Heq).
    exists n. split; [exact Hn|exact Heq]. }
  split.
  { intros d es ws n1 n2 Hn1 Hn2 Heq. cbn [build nodes] in Hn1, Hn2.
    apply nodes_of_iff in Hn1. destruct Hn1 as (r1 & Hr1 & E1 & ->).
    apply nodes_of_iff in Hn2. destruct Hn2 as (r2 & Hr2 & E2 & ->).
    cbn [coordinate] in Heq.
    apply (find_eq_iff_tol_equiv _ r1 r2 _ _ (nth_error_cell _ r1 Hr1)
             (nth_error_cell _ r2 Hr2)) in Heq.
    rewrite E1, E2 in Heq. subst r2. reflexivity. }
  split.
  { intros d es ws k s e b Hs He.
    destruct (build_edge d es ws k s e Hs He) as (_ & _ & E).
    destruct (node_of_cell _ (end_cell k b) (seg_end s b)
                (endpoints_nth _ k s b Hs)) as (n & Hn & Hid & Heq).
    exists n. split; [exact Hn|]. split; [|exact Heq].
    rewrite Hid, E. reflexivity. }
  split; [intros es ws p; apply endpoints_iff|].
  intros es ws. apply endpoints_all.
Qed.

End BuildProperties.

(* ------------------------------------------------------------------ *)
(** ** Snapping *)
(* ------------------------------------------------------------------ *)

Section SnapProperties.

Lemma nearest_spec (p : point) (ns : list GraphNode) (n : GraphNode) :
  nearest p ns = Some n ->
  In n ns /\
  forall m, In m ns -> dist2 p (coordinate n) <= dist2 p (coordinate m).
Proof.
  revert n. induction ns as [|a ns IH]; intros n H; [discriminate|].
  cbn in H. destruct (nearest p ns) as [m|] eqn:E.
  - destruct (IH m eq_refl) as [Hin Hmin].
    destruct (Qle_bool _ _) eqn:Hle; inversion H; subst n.
    + apply Qle_bool_iff in Hle. split; [left; reflexivity|].
      intros x [<-|Hx]; [lra|]. specialize (Hmin x Hx). lra.
    + assert (~ dist2 p (coordinate a) <= dist2 p (coordinate m)).
      { intros C. apply Qle_bool_iff in C. congruence. }
      split; [right; exact Hin|].
      intros x [<-|Hx]; [lra|]. apply Hmin. exact Hx.
  - inversion H; subst n. split; [left; reflexivity|].
    intros x [<-|Hx]; [lra|].
    destruct ns; [destruct Hx|]. cbn in E.
    destruct (nearest p ns); [destruct (Qle_bool _ _)|]; discriminate.
Qed.

Lemma nearest_none (p : point) (ns : list GraphNode) :
  nearest p ns = None -> ns = [].
Proof.
  destruct ns as [|a ns]; [reflexivity|]. cbn.
  destruct (nearest p ns); [destruct (Qle_bool _ _)|]; discriminate.
Qed.

Lemma in_range_nearer (r : Q) (p : point) (n m : GraphNode) :
  dist2 p (coordinate n) <= dist2 p (coordinate m) ->
  in_range r p m = true -> in_range r p n = true.
Proof.
  unfold in_range, within. intros Hle H.
  apply orb_true_iff in H. apply orb_true_iff.
  destruct H as [H|H]; [left; exact H|right].
  apply Qle_bool_iff in H. apply Qle_bool_iff. lra.
Qed.

Lemma snap_some (g : Graph) (r : Q) (p : point) (n : GraphNode) :
  snap g r p = Some n ->
  In n (nodes g) /\ in_range r p n = true /\
  forall m, In m (nodes g) ->
    dist2 p (coordinate n) <= dist2 p (coordinate m).
Proof.
  unfold snap. destruct (nearest p (nodes g)) as [m|] eqn:E; [|discriminate].
  destruct (in_range r p m) eqn:Hr; [|discriminate].
  intros H. inversion H; subst n.
  destruct (nearest_spec _ _ _ E) as [Hin Hmin]. auto.
Qed.

Lemma snap_none (g : Graph) (r : Q) (p : point) :
  snap g r p = None <->
  forall n, In n (nodes g) -> in_range r p n = false.
Proof.
  unfold snap. destruct (nearest p (nodes g)) as [m|] eqn:E.
  - destruct (nearest_spec _ _ _ E) as [Hin Hmin].
    destruct (in_range r p m) eqn:Hr.
    + split; [discriminate|]. intros H. rewrite (H m Hin) in Hr.
      discriminate.
    + split; [|reflexivity]. intros _ n Hn.
      destruct (in_range r p n) eqn:Hrn; [|reflexivity].
      rewrite (in_range_nearer r p m n (Hmin n Hn) Hrn) in Hr.
      discriminate.
  - apply nearest_none in E. rewrite E. split; [|reflexivity].
    intros _ n [].
Qed.

End SnapProperties.

(* ------------------------------------------------------------------ *)
(** ** The relaxation loop *)
(* ------------------------------------------------------------------ *)

Section SolverProperties.

Variable g : Graph.
Variable s : nat.

Lemma settled_iff (v : nat) (done : list nat) :
  settled v done = true <-> In v done.
Proof.
  unfold settled. rewrite existsb_exists. split.
  - intros (x & Hx & E). apply Nat.eqb_eq in E. subst x. exact Hx.
  - intros H. exists v. split; [exact H|apply Nat.eqb_refl].
Qed.

Lemma settled_false (v : nat) (done : list nat) :
  settled v done = false <-> ~ In v done.
Proof.
  rewrite <- settled_iff. destruct (settled v done); split; congruence.
Qed.

Lemma set_label_same (ls : labels) (v : nat) (l : label) :
  set_label ls v l v = Some l.
Proof. unfold set_label. rewrite Nat.eqb_refl. reflexivity. Qed.

Lemma set_label_other (ls : labels) (v x : nat) (l : label) :
  x <> v -> set_label ls v l x = ls x.
Proof.
  intros H. unfold set_label.
  destruct (Nat.eqb_spec x v); [contradiction|reflexivity].
Qed.

Lemma path_weight_snoc (p : list hop) (h : hop) :
  path_weight (p ++ [h]) == path_weight p + hop_weight h.
Proof.
  induction p as [|a p IH]; cbn; [ring|]. rewrite IH. ring.
Qed.

Lemma out_hops_in (u : nat) (h : hop) :
  In h (out_hops g u) <-> In h (traversals g) /\ hop_from h = u.
Proof.
  unfold out_hops. rewrite filter_In, Nat.eqb_eq. reflexivity.
Qed.

Lemma traversals_via (h : hop) :
  In h (traversals g) -> In (via h) (edges g).
Proof.
  unfold traversals. rewrite in_flat_map. intros (e & He & Hh).
  destruct Hh as [<-|Hh]; [exact He|].
  destruct (directed g); [destruct Hh|].
  destruct Hh as [<-|[]]. exact He.
Qed.

Lemma hop_to_vertex (h : hop) :
  In h (traversals g) -> In (hop_to h) (vertices g s).
Proof.
  intros H. apply traversals_via in H. right.
  apply in_flat_map. exists (via h). split; [exact H|].
  unfold hop_to. destruct (forward h); cbn; auto.
Qed.

Lemma path_end_vertex (p : list hop) (v : nat) :
  is_path g s p v -> In v (vertices g s).
Proof.
  intros H. destruct H as [|p x h _ Hh _].
  - left. reflexivity.
  - apply hop_to_vertex. exact Hh.
Qed.

Lemma better_le (d : Q) (id : Z) (lv : label) :
  better d id lv = true -> d <= fst lv.
Proof.
  unfold better. intros H. apply orb_true_iff in H. destruct H as [H|H].
  - apply negb_true_iff in H.
    destruct (Qlt_le_dec d (fst lv)) as [Hlt|Hle]; [lra|].
    apply Qle_bool_iff in Hle. congruence.
  - apply andb_true_iff in H. destruct H as [H _].
    apply Qeq_bool_iff in H. lra.
Qed.

Lemma not_better_le (d : Q) (id : Z) (lv : label) :
  better d id lv = false -> fst lv <= d.
Proof.
  unfold better. intros H. apply orb_false_iff in H. destruct H as [H _].
  apply negb_false_iff in H. apply Qle_bool_iff. exact H.
Qed.

(** What one relaxation does. *)
Lemma relax_spec (lu : label) (done : list nat) (ls : labels) (h : hop) :
  (In (hop_to h) done /\ relax lu done ls h = ls) \/
  (~ In (hop_to h) done /\ relax lu done ls h = ls /\
   exists lv, ls (hop_to h) = Some lv /\
              fst lv <= fst lu + hop_weight h) \/
  (~ In (hop_to h) done /\
   relax lu done ls h
   = set_label ls (hop_to h) (fst lu + hop_weight h, snd lu ++ [h]) /\
   forall lv, ls (hop_to h) = Some lv -> fst lu + hop_weight h <= fst lv).
Proof.
  unfold relax. destruct (settled (hop_to h) done) eqn:Hs.
  - left. apply settled_iff in Hs. auto.
  - apply settled_false in Hs. right.
    destruct (ls (hop_to h)) as [lv|] eqn:Hl.
    + destruct (better _ _ lv) eqn:Hb.
      * right. repeat split; [exact Hs|].
        intros lv' E. inversion E; subst lv'. apply (better_le _ _ _ Hb).
      * left. repeat split; [exact Hs|]. exists lv. split; [reflexivity|].
        apply (not_better_le _ _ _ Hb).
    + right. repeat split; [exact Hs|]. intros lv E. discriminate.
Qed.

Section Relaxing.

Variable lu : label.
Variable done : list nat.

Lemma relax_settled (ls : labels) (h : hop) (x : nat) :
  In x done -> relax lu done ls h x = ls x.
Proof.
  intros Hx.
  destruct (relax_spec lu done ls h) as [[_ E]|[(_ & E & _)|(Hn & E & _)]];
    rewrite E; try reflexivity.
  apply set_label_other. intros ->. contradiction.
Qed.

Lemma relax_decreases (ls : labels) (h : hop) (x : nat) (l : label) :
  ls x = Some l ->
  exists l', relax lu done ls h x = Some l' /\ fst l' <= fst l.
Proof.
  intros Hl.
  destruct (relax_spec lu done ls h) as [[_ E]|[(_ & E & _)|(Hn & E & Hle)]];
    rewrite E.
  - exists l. split; [exact Hl|lra].
  - exists l. split; [exact Hl|lra].
  - destruct (Nat.eq_dec x (hop_to h)) as [->|Hne].
    + rewrite set_label_same. eexists. split; [reflexivity|].
      cbn. apply Hle. exact Hl.
    + rewrite set_label_other by exact Hne.
      exists l. split; [exact Hl|lra].
Qed.

Lemma relax_origin (ls : labels) (h : hop) (x : nat) (l' : label) :
  relax lu done ls h x = Some l' ->
  ls x = Some l' \/
  (x = hop_to h /\ ~ In x done /\
   l' = (fst lu + hop_weight h, snd lu ++ [h])).
Proof.
  destruct (relax_spec lu done ls h) as [[_ E]|[(_ & E & _)|(Hn & E & _)]];
    rewrite E; auto.
  destruct (Nat.eq_dec x (hop_to h)) as [->|Hne].
  - rewrite set_label_same. intros H. inversion H. right. auto.
  - rewrite set_label_other by exact Hne. auto.
Qed.

Lemma relax_reaches (ls : labels) (h : hop) :
  ~ In (hop_to h) done ->
  exists l', relax lu done ls h (hop_to h) = Some l' /\
             fst l' <= fst lu + hop_weight h.
Proof.
  intros Hn.
  destruct (relax_spec lu done ls h)
    as [[C _]|[(_ & E & lv & Hlv & Hle)|(_ & E & _)]];
    [contradiction| |]; rewrite E.
  - exists lv. split; assumption.
  - rewrite set_label_same. eexists. split; [reflexivity|]. cbn. lra.
Qed.

Lemma relax_all_settled (hs : list hop) (ls : labels) (x : nat) :
  In x done -> fold_left (relax lu done) hs ls x = ls x.
Proof.
  intros Hx. revert ls. induction hs as [|h hs IH]; intros ls;
    [reflexivity|].
  cbn. rewrite IH. apply relax_settled. exact Hx.
Qed.

Lemma relax_all_decreases (hs : list hop) (ls : labels) (x : nat)
      (l : label) :
  ls x = Some l ->
  exists l', fold_left (relax lu done) hs ls x = Some l' /\
             fst l' <= fst l.
Proof.
  revert ls l. induction hs as [|h hs IH]; intros ls l Hl.
  - exists l. split; [exact Hl|lra].
  - cbn. destruct (relax_decreases ls h x l Hl) as (l1 & H1 & Hle1).
    destruct (IH _ _ H1) as (l2 & H2 & Hle2).
    exists l2. split; [exact H2|lra].
Qed.

Lemma relax_all_origin (hs : list hop) (ls : labels) (x : nat)
      (l' : label) :
  fold_left (relax lu done) hs ls x = Some l' ->
  ls x = Some l' \/
  exists h, In h hs /\ x = hop_to h /\ ~ In x done /\
            l' = (fst lu + hop_weight h, snd lu ++ [h]).
Proof.
  revert ls. induction hs as [|h hs IH]; intros ls H; [left; exact H|].
  cbn in H. destruct (IH _ H) as [H1|(h' & Hh' & R)].
  - destruct (relax_origin _ _ _ _ H1) as [H2|R]; [left; exact H2|].
    right. exists h. split; [left; reflexivity|exact R].
  - right. exists h'. split; [right; exact Hh'|exact R].
Qed.

Lemma relax_all_reaches (hs : list hop) (ls : labels) (h : hop) :
  In h hs -> ~ In (hop_to h) done ->
  exists l', fold_left (relax lu done) hs ls (hop_to h) = Some l' /\
             fst l' <= fst lu + hop_weight h.
Proof.
  intros Hh Hn. revert ls. induction hs as [|a hs IH]; intros ls;
    [destruct Hh|].
  cbn. destruct Hh as [->|Hh].
  - destruct (relax_reaches ls h Hn) as (l1 & H1 & Hle1).
    destruct (relax_all_decreases hs _ _ _ H1) as (l2 & H2 & Hle2).
    exists l2. split; [exact H2|lra].
  - apply IH. exact Hh.
Qed.

End Relaxing.

Lemma extract_min_none (cands done : list nat) (ls : labels) :
  extract_min cands done ls = None ->
  forall z, In z cands -> ~ In z done -> ls z = None.
Proof.
  induction cands as [|a rest IH]; intros Hb z Hz Hnz; [destruct Hz|].
  cbn in Hb. destruct (settled a done) eqn:Hs.
  - destruct Hz as [<-|Hz]; [|auto].
    apply settled_iff in Hs. contradiction.
  - destruct (ls a) as [la|] eqn:Ha.
    + destruct (extract_min rest done ls) as [[b lb]|];
        [destruct (Qle_bool _ _)|]; discriminate.
    + destruct Hz as [<-|Hz]; [exact Ha|auto].
Qed.

Lemma extract_min_some (cands done : list nat) (ls : labels)
      (u : nat) (lu : label) :
  extract_min cands done ls = Some (u, lu) ->
  In u cands /\ ~ In u done /\ ls u = Some lu /\
  forall z lz, In z cands -> ~ In z done -> ls z = Some lz ->
               fst lu <= fst lz.
Proof.
  revert u lu. induction cands as [|v rest IH]; intros u lu H;
    [discriminate|].
  cbn in H. destruct (settled v done) eqn:Hs.
  - destruct (IH _ _ H) as (H1 & H2 & H3 & H4).
    split; [right; exact H1|]. split; [exact H2|]. split; [exact H3|].
    intros z lz [<-|Hz] Hnz Hlz; [|eapply H4; eassumption].
    apply settled_iff in Hs. contradiction.
  - apply settled_false in Hs. destruct (ls v) as [lv|] eqn:Hv.
    + destruct (extract_min rest done ls) as [[b lb]|] eqn:Hb.
      * destruct (IH _ _ eq_refl) as (H1 & H2 & H3 & H4).
        destruct (Qle_bool (fst lv) (fst lb)) eqn:Hle;
          inversion H; subst u lu.
        -- apply Qle_bool_iff in Hle.
           split; [left; reflexivity|]. split; [exact Hs|].
           split; [exact Hv|].
           intros z lz [<-|Hz] Hnz Hlz.
           ++ rewrite Hv in Hlz. inversion Hlz. lra.
           ++ specialize (H4 z lz Hz Hnz Hlz). lra.
        -- assert (~ fst lv <= fst lb).
           { intros C. apply Qle_bool_iff in C. congruence. }
           split; [right; exact H1|]. split; [exact H2|].
           split; [exact H3|].
           intros z lz [<-|Hz] Hnz Hlz.
           ++ rewrite Hv in Hlz. inversion Hlz; subst lz. lra.
           ++ eapply H4; eassumption.
      * inversion H; subst u lu.
        split; [left; reflexivity|]. split; [exact Hs|].
        split; [exact Hv|].
        intros z lz [<-|Hz] Hnz Hlz.
        -- rewrite Hv in Hlz. inversion Hlz. lra.
        -- rewrite (extract_min_none _ _ _ Hb z Hz Hnz) in Hlz.
           discriminate.
    + destruct (IH _ _ H) as (H1 & H2 & H3 & H4).
      split; [right; exact H1|]. split; [exact H2|]. split; [exact H3|].
      intros z lz [<-|Hz] Hnz Hlz; [congruence|eapply H4; eassumption].
Qed.

End SolverProperties.

Section LoopProperties.

Variable g : Graph.
Variable s : nat.

Lemma labels_sound_start : labels_sound g s (start_labels s).
Proof.
  intros v l H. unfold start_labels, set_label, no_labels in H.
  destruct (Nat.eqb_spec v s) as [->|]; [|discriminate].
  inversion H; subst l. cbn. split; [constructor|reflexivity].
Qed.

Lemma loop_invariant_start : loop_invariant g s [] (start_labels s).
Proof.
  constructor.
  - constructor.
  - intros x [].
  - exists (0, []). split; [apply set_label_same|cbn; lra].
  - intros u [].
  - intros u lu h [].
  - intros u lu z lz [].
Qed.

Lemma labels_sound_relax (ls : labels) (u : nat) (lu : label)
      (done : list nat) :
  labels_sound g s ls -> ls u = Some lu ->
  labels_sound g s (fold_left (relax lu done) (out_hops g u) ls).
Proof.
  intros Hs Hu v l H.
  destruct (relax_all_origin lu done _ _ _ _ H)
    as [H0|(h & Hh & Hv & _ & E)].
  - apply Hs. exact H0.
  - apply out_hops_in in Hh. destruct Hh as [Hh Hfrom].
    destruct (Hs u lu Hu) as [Hp Hw]. subst l v. cbn.
    split; [econstructor; eassumption|].
    rewrite path_weight_snoc, Hw. reflexivity.
Qed.

(** The loop only ever labels a node with a path that leads to it. *)
Lemma loop_sound (fuel : nat) (done : list nat) (ls : labels) :
  labels_sound g s ls ->
  labels_sound g s (relaxation_loop fuel g s done ls).
Proof.
  revert done ls. induction fuel as [|fuel IH]; intros done ls Hs;
    [exact Hs|].
  cbn [relaxation_loop].
  destruct (extract_min (vertices g s) done ls) as [[u lu]|] eqn:E;
    [|exact Hs].
  apply IH. apply labels_sound_relax; [exact Hs|].
  apply (extract_min_some _ _ _ _ _ E).
Qed.

Lemma labelled_vertex (ls : labels) (v : nat) (l : label) :
  labels_sound g s ls -> ls v = Some l -> In v (vertices g s).
Proof.
  intros Hs H. destruct (Hs v l H) as [Hp _].
  apply (path_end_vertex g s _ _ Hp).
Qed.

Hypothesis weights_nonneg : nonnegative_weights g.

Lemma hop_weight_nonneg (h : hop) : In h (traversals g) -> 0 <= hop_weight h.
Proof.
  intros H. apply weights_nonneg. apply traversals_via. exact H.
Qed.

(** Settling the least unsettled node and relaxing its hops keeps the
    invariant. *)
Lemma loop_invariant_step (done : list nat) (ls : labels)
      (u : nat) (lu : label) :
  labels_sound g s ls ->
  loop_invariant g s done ls ->
  extract_min (vertices g s) done ls = Some (u, lu) ->
  loop_invariant g s (u :: done)
                 (fold_left (relax lu (u :: done)) (out_hops g u) ls).
Proof.
  intros Hs [Hnd Hin Hsrc Hlab Hedg Hfr] E.
  destruct (extract_min_some _ _ _ _ _ E) as (Hu & Hnu & Hlu & Hmin).
  set (done' := u :: done).
  set (ls' := fold_left (relax lu done') (out_hops g u) ls).
  assert (Hkeep : forall x, In x done' -> ls' x = ls x).
  { intros x Hx. apply relax_all_settled. exact Hx. }
  assert (Hu_le : forall x lx, In x done -> ls x = Some lx ->
                               fst lx <= fst lu).
  { intros x lx Hx Hlx. apply (Hfr x lx u lu Hx Hlx Hnu Hlu). }
  constructor.
  - constructor; assumption.
  - intros x [<-|Hx]; [exact Hu|apply Hin; exact Hx].
  - destruct Hsrc as (l0 & H0 & Hle0).
    destruct (relax_all_decreases lu done' (out_hops g u) _ _ _ H0)
      as (l1 & H1 & Hle1).
    exists l1. split; [exact H1|lra].
  - intros x Hx. rewrite (Hkeep x Hx).
    destruct Hx as [<-|Hx]; [eauto|apply Hlab; exact Hx].
  - intros x lx h Hx Hlx Hh Hfrom. rewrite (Hkeep x Hx) in Hlx.
    pose proof (hop_weight_nonneg h Hh) as Hw.
    destruct Hx as [<-|Hx].
    + assert (lx = lu) by congruence. subst lx.
      destruct (in_dec Nat.eq_dec (hop_to h) done') as [Hd|Hd].
      * rewrite (Hkeep _ Hd). destruct Hd as [Hd|Hd].
        -- rewrite <- Hd. exists lu. split; [exact Hlu|lra].
        -- destruct (Hlab _ Hd) as (lz & Hlz).
           exists lz. split; [exact Hlz|].
           specialize (Hu_le _ _ Hd Hlz). lra.
      * apply relax_all_reaches; [|exact Hd].
        apply out_hops_in. split; [exact Hh|exact Hfrom].
    + destruct (Hedg x lx h Hx Hlx Hh Hfrom) as (lv & Hlv & Hle).
      destruct (relax_all_decreases lu done' (out_hops g u) _ _ _ Hlv)
        as (l1 & H1 & Hle1).
      exists l1. split; [exact H1|lra].
  - intros x lx z lz Hx Hlx Hnz Hlz. rewrite (Hkeep x Hx) in Hlx.
    assert (Hnz' : ~ In z done) by (intros C; apply Hnz; right; exact C).
    assert (Hlx_le : fst lx <= fst lu).
    { destruct Hx as [<-|Hx]; [|apply (Hu_le x lx Hx Hlx)].
      assert (lx = lu) by congruence. subst lx. lra. }
    destruct (relax_all_origin lu done' _ _ _ _ Hlz)
      as [H0|(h & Hh & _ & _ & El)].
    + assert (fst lu <= fst lz).
      { apply (Hmin z lz); [|exact Hnz'|exact H0].
        apply (labelled_vertex ls z lz Hs H0). }
      lra.
    + apply out_hops_in in Hh. destruct Hh as [Hh _].
      pose proof (hop_weight_nonneg h Hh) as Hw.
      subst lz. cbn. lra.
Qed.

(** With as much fuel as there are vertices left, the loop stops with
    an empty queue. *)
Lemma loop_finishes (fuel : nat) (done : list nat) (ls : labels) :
  labels_sound g s ls ->
  loop_invariant g s done ls ->
  (List.length (vertices g s) <= fuel + List.length done)%nat ->
  exists done',
    loop_invariant g s done' (relaxation_loop fuel g s done ls) /\
    queue_empty done' (relaxation_loop fuel g s done ls).
Proof.
  revert done ls. induction fuel as [|fuel IH]; intros done ls Hs Hinv Hlen.
  - exists done. split; [exact Hinv|]. cbn.
    intros z Hz. destruct (ls z) as [lz|] eqn:Hlz; [|reflexivity].
    exfalso.
    assert (Hnd : NoDup (z :: done)).
    { constructor; [exact Hz|apply (inv_nodup _ _ _ _ Hinv)]. }
    assert (Hincl : incl (z :: done) (vertices g s)).
    { intros x [<-|Hx]; [apply (labelled_vertex ls _ lz Hs Hlz)|].
      apply (inv_done_in _ _ _ _ Hinv). exact Hx. }
    pose proof (NoDup_incl_length Hnd Hincl) as Hle.
    cbn [List.length] in Hle. lia.
  - cbn [relaxation_loop].
    destruct (extract_min (vertices g s) done ls) as [[u lu]|] eqn:E.
    + apply IH.
      * apply labels_sound_relax; [exact Hs|].
        apply (extract_min_some _ _ _ _ _ E).
      * apply loop_invariant_step; assumption.
      * cbn [List.length]. lia.
    + exists done. split; [exact Hinv|].
      intros z Hz. destruct (ls z) as [lz|] eqn:Hlz; [|reflexivity].
      rewrite <- Hlz.
      apply (extract_min_none _ _ _ E z); [|exact Hz].
      apply (labelled_vertex ls z lz Hs Hlz).
Qed.

(** Once the queue is empty, the label of a node bounds the weight of
    every path to it. *)
Lemma labels_lower_bound (done : list nat) (ls : labels)
      (q : list hop) (y : nat) :
  loop_invariant g s done ls ->
  queue_empty done ls ->
  is_path g s q y ->
  exists ly, ls y = Some ly /\ fst ly <= path_weight q.
Proof.
  intros Hinv Hq Hp. induction Hp as [|p x h Hp IH Hh Hfrom].
  - destruct (inv_source _ _ _ _ Hinv) as (l0 & H0 & Hle).
    exists l0. split; [exact H0|cbn; lra].
  - destruct IH as (lx & Hlx & Hle).
    assert (Hx : In x done).
    { destruct (in_dec Nat.eq_dec x done) as [Hd|Hd]; [exact Hd|].
      rewrite (Hq x Hd) in Hlx. discriminate. }
    destruct (inv_edges _ _ _ _ Hinv x lx h Hx Hlx Hh Hfrom)
      as (lv & Hlv & Hle').
    exists lv. split; [exact Hlv|].
    rewrite path_weight_snoc. lra.
Qed.

End LoopProperties.

(* ------------------------------------------------------------------ *)
(** ** Every reachable node gets a label *)
(* ------------------------------------------------------------------ *)

Section ReachProperties.

Variable g : Graph.
Variable s : nat.

Lemma reach_invariant_start : reach_invariant g s [] (start_labels s).
Proof.
  constructor.
  - constructor.
  - intros x [].
  - exists (0, []). apply set_label_same.
  - intros u [].
  - intros u h [].
Qed.

Lemma reach_invariant_step (done : list nat) (ls : labels)
      (u : nat) (lu : label) :
  reach_invariant g s done ls ->
  extract_min (vertices g s) done ls = Some (u, lu) ->
  reach_invariant g s (u :: done)
                  (fold_left (relax lu (u :: done)) (out_hops g u) ls).
Proof.
  intros [Hnd Hin Hsrc Hlab Hedg] E.
  destruct (extract_min_some _ _ _ _ _ E) as (Hu & Hnu & Hlu & _).
  set (done' := u :: done).
  assert (Hstay : forall x l, ls x = Some l ->
            exists l', fold_left (relax lu done') (out_hops g u) ls x
                       = Some l').
  { intros x l Hl.
    destruct (relax_all_decreases lu done' (out_hops g u) _ _ _ Hl)
      as (l' & Hl' & _).
    exists l'. exact Hl'. }
  constructor.
  - constructor; assumption.
  - intros x [<-|Hx]; [exact Hu|apply Hin; exact Hx].
  - destruct Hsrc as (l0 & H0). apply (Hstay s l0 H0).
  - intros x [<-|Hx]; [apply (Hstay u lu Hlu)|].
    destruct (Hlab x Hx) as (lx & Hlx). apply (Hstay x lx Hlx).
  - intros x h Hx Hh Hfrom. destruct Hx as [Hx|Hx].
    + subst x.
      destruct (in_dec Nat.eq_dec (hop_to h) done') as [Hd|Hd].
      * destruct Hd as [Hd|Hd].
        -- rewrite <- Hd. apply (Hstay u lu Hlu).
        -- destruct (Hlab _ Hd) as (lz & Hlz). apply (Hstay _ lz Hlz).
      * destruct (relax_all_reaches lu done' (out_hops g u) ls h)
          as (l' & Hl' & _); [|exact Hd|exists l'; exact Hl'].
        apply out_hops_in. split; [exact Hh|exact Hfrom].
    + destruct (Hedg x h Hx Hh Hfrom) as (lv & Hlv).
      apply (Hstay _ lv Hlv).
Qed.

Lemma reach_finishes (fuel : nat) (done : list nat) (ls : labels) :
  labels_sound g s ls ->
  reach_invariant g s done ls ->
  (List.length (vertices g s) <= fuel + List.length done)%nat ->
  exists done',
    reach_invariant g s done' (relaxation_loop fuel g s done ls) /\
    queue_empty done' (relaxation_loop fuel g s done ls).
Proof.
  revert done ls. induction fuel as [|fuel IH]; intros done ls Hs Hinv Hlen.
  - exists done. split; [exact Hinv|]. cbn [relaxation_loop].
    intros z Hz. destruct (ls z) as [lz|] eqn:Hlz; [|reflexivity].
    exfalso.
    assert (Hnd : NoDup (z :: done)).
    { constructor; [exact Hz|apply (reach_nodup _ _ _ _ Hinv)]. }
    assert (Hincl : incl (z :: done) (vertices g s)).
    { intros x [<-|Hx]; [apply (labelled_vertex g s ls _ lz Hs Hlz)|].
      apply (reach_done_in _ _ _ _ Hinv). exact Hx. }
    pose proof (NoDup_incl_length Hnd Hincl) as Hle.
    cbn [List.length] in Hle. lia.
  - cbn [relaxation_loop].
    destruct (extract_min (vertices g s) done ls) as [[u lu]|] eqn:E.
    + apply IH.
      * apply labels_sound_relax; [exact Hs|].
        apply (extract_min_some _ _ _ _ _ E).
      * apply reach_invariant_step; assumption.
      * cbn [List.length]. lia.
    + exists done. split; [exact Hinv|].
      intros z Hz. destruct (ls z) as [lz|] eqn:Hlz; [|reflexivity].
      rewrite <- Hlz.
      apply (extract_min_none _ _ _ E z); [|exact Hz].
      apply (labelled_vertex g s ls z lz Hs Hlz).
Qed.

Lemma labels_cover (done : list nat) (ls : labels) (q : list hop) (y : nat) :
  reach_invariant g s done ls ->
  queue_empty done ls ->
  is_path g s q y ->
  exists ly, ls y = Some ly.
Proof.
  intros Hinv Hq Hp. induction Hp as [|p x h Hp IH Hh Hfrom].
  - apply (reach_source _ _ _ _ Hinv).
  - destruct IH as (lx & Hlx).
    assert (Hx : In x done).
    { destruct (in_dec Nat.eq_dec x done) as [Hd|Hd]; [exact Hd|].
      rewrite (Hq x Hd) in Hlx. discriminate. }
    apply (reach_edges _ _ _ _ Hinv x h Hx Hh Hfrom).
Qed.

(** Whatever the weights, the search finds a path to every node that a
    path reaches: the bound on the rounds never cuts it short. *)
Lemma shortest_path_connected (t : nat) :
  connected g s t -> exists P, shortest_path g s t = inl P.
Proof.
  intros [q Hq].
  destruct (reach_finishes (List.length (vertices g s)) [] _
              (labels_sound_start g s) reach_invariant_start)
    as (done & Hinv & Hempty); [cbn [List.length]; lia|].
  destruct (labels_cover done _ q t Hinv Hempty Hq) as ([d p] & Hl).
  unfold shortest_path. rewrite Hl. eexists. reflexivity.
Qed.

End ReachProperties.

(* ------------------------------------------------------------------ *)
(** ** Ties are broken by the lowest edge id *)
(* ------------------------------------------------------------------ *)

Section TieProperties.

Variable g : Graph.
Variable s : nat.

Lemma last_edge_id_snoc (p : list hop) (h : hop) :
  last_edge_id (p ++ [h]) = Some (hop_id h).
Proof. unfold last_edge_id. rewrite rev_unit. reflexivity. Qed.

Lemma better_true (d : Q) (id : Z) (lv : label) :
  better d id lv = true ->
  d < fst lv \/
  (d == fst lv /\
   exists id', last_edge_id (snd lv) = Some id' /\ (id < id')%Z).
Proof.
  unfold better. intros H. apply orb_true_iff in H. destruct H as [H|H].
  - left. apply negb_true_iff in H.
    destruct (Qlt_le_dec d (fst lv)) as [Hlt|Hle]; [exact Hlt|].
    apply Qle_bool_iff in Hle. congruence.
  - right. apply andb_true_iff in H. destruct H as [H1 H2].
    apply Qeq_bool_iff in H1. split; [exact H1|].
    destruct (last_edge_id (snd lv)) as [id'|]; [|discriminate].
    exists id'. split; [reflexivity|]. apply Z.ltb_lt. exact H2.
Qed.

Lemma better_false (d : Q) (id : Z) (lv : label) :
  better d id lv = false ->
  fst lv < d \/
  (fst lv == d /\
   forall id', last_edge_id (snd lv) = Some id' -> (id' <= id)%Z).
Proof.
  unfold better. intros H. apply orb_false_iff in H. destruct H as [H1 H2].
  apply negb_false_iff in H1. apply Qle_bool_iff in H1.
  destruct (Qlt_le_dec (fst lv) d) as [Hlt|Hle]; [left; exact Hlt|].
  right. assert (E : d == fst lv) by lra. split; [lra|].
  apply Qeq_bool_iff in E. rewrite E in H2. cbn in H2.
  intros id' Hid. rewrite Hid in H2. apply Z.ltb_ge in H2. exact H2.
Qed.

(** The four ways a relaxation can go. *)
Lemma relax_cases (lu : label) (done : list nat) (ls : labels) (h : hop) :
  (In (hop_to h) done /\ relax lu done ls h = ls) \/
  (~ In (hop_to h) done /\ ls (hop_to h) = None /\
   relax lu done ls h
   = set_label ls (hop_to h) (fst lu + hop_weight h, snd lu ++ [h])) \/
  (~ In (hop_to h) done /\
   exists lv, ls (hop_to h) = Some lv /\
     better (fst lu + hop_weight h) (hop_id h) lv = true /\
     relax lu done ls h
     = set_label ls (hop_to h) (fst lu + hop_weight h, snd lu ++ [h])) \/
  (~ In (hop_to h) done /\
   exists lv, ls (hop_to h) = Some lv /\
     better (fst lu + hop_weight h) (hop_id h) lv = false /\
     relax lu done ls h = ls).
Proof.
  unfold relax. destruct (settled (hop_to h) done) eqn:Hs.
  - left. apply settled_iff in Hs. auto.
  - apply settled_false in Hs. right.
    destruct (ls (hop_to h)) as [lv|] eqn:Hl.
    + destruct (better _ _ lv) eqn:Hb.
      * right. left. split; [exact Hs|]. exists lv. auto.
      * right. right. split; [exact Hs|]. exists lv. auto.
    + left. auto.
Qed.

Section Relaxing.

Variable lu : label.
Variable done : list nat.

Lemma relax_ties (pre : list hop) (ls : labels) (h : hop) :
  tie_pending g lu done pre ls ->
  tie_seen lu done pre ls ->
  tie_pending g lu done (pre ++ [h]) (relax lu done ls h) /\
  tie_seen lu done (pre ++ [h]) (relax lu done ls h).
Proof.
  intros Hp Hsn.
  set (v := hop_to h). set (d := fst lu + hop_weight h).
  assert (Hin_h : In h (pre ++ [h])).
  { apply in_or_app. right. left. reflexivity. }
  assert (Hin_pre : forall x, In x pre -> In x (pre ++ [h])).
  { intros x Hx. apply in_or_app. left. exact Hx. }
  (* a pending label at another node stays pending *)
  assert (Hother : forall v0 l, v0 <> v -> ls v0 = Some l ->
             Forall (lowest_parallel g) (snd l) \/
             (~ In v0 done /\
              exists h0, In h0 (pre ++ [h]) /\ hop_to h0 = v0 /\
                l = (fst lu + hop_weight h0, snd lu ++ [h0]) /\
                forall h', In h' (pre ++ [h]) -> hop_to h' = v0 ->
                           hop_weight h' == hop_weight h0 ->
                           (hop_id h0 <= hop_id h')%Z)).
  { intros v0 l Hne Hl. destruct (Hp v0 l Hl) as [F|(Hnd & h0 & H0 & Hto & El & Hlow)];
      [left; exact F|right].
    split; [exact Hnd|]. exists h0.
    split; [apply Hin_pre; exact H0|]. split; [exact Hto|].
    split; [exact El|].
    intros h' Hh' Hto' Hw. apply in_app_or in Hh'.
    destruct Hh' as [Hh'|[<-|[]]]; [apply Hlow; assumption|].
    exfalso. apply Hne. unfold v. congruence. }
  destruct (relax_cases lu done ls h)
    as [[Hd E]|[(Hd & Hnone & E)|[(Hd & lv & Hlv & Hb & E)
                                 |(Hd & lv & Hlv & Hb & E)]]];
    rewrite E; fold v d in Hd, E |- *.
  - (* the target is settled *)
    split.
    + intros v0 l Hl.
      destruct (Nat.eq_dec v0 v) as [->|Hne]; [|apply Hother; assumption].
      destruct (Hp v l Hl) as [F|(Hnd & _)]; [left; exact F|contradiction].
    + intros h' Hh' Hnd. apply in_app_or in Hh'.
      destruct Hh' as [Hh'|[<-|[]]]; [apply Hsn; assumption|contradiction].
  - (* first label of the target *)
    fold v in Hnone.
    split.
    + intros v0 l Hl.
      destruct (Nat.eq_dec v0 v) as [->|Hne].
      * rewrite set_label_same in Hl. inversion Hl; subst l. right.
        split; [exact Hd|]. exists h. split; [exact Hin_h|].
        split; [reflexivity|]. split; [reflexivity|].
        intros h' Hh' Hto' Hw. apply in_app_or in Hh'.
        destruct Hh' as [Hh'|[<-|[]]]; [|lia].
        destruct (Hsn h' Hh') as (lv & Hlv & _);
          [rewrite Hto'; exact Hd|].
        rewrite Hto' in Hlv. congruence.
      * rewrite set_label_other in Hl by exact Hne.
        apply Hother; assumption.
    + intros h' Hh' Hnd. apply in_app_or in Hh'.
      destruct Hh' as [Hh'|[<-|[]]].
      * destruct (Hsn h' Hh' Hnd) as (lv & Hlv & _).
        destruct (Nat.eq_dec (hop_to h') v) as [Ev|Hne];
          [rewrite Ev in Hlv; congruence|].
        rewrite set_label_other by exact Hne.
        apply Hsn; assumption.
      * fold v. rewrite set_label_same. eexists. split; [reflexivity|].
        right. cbn [fst snd]. split; [reflexivity|].
        intros id0. rewrite last_edge_id_snoc.
        intros Hid. inversion Hid. lia.
  - (* the candidate replaces the incumbent *)
    fold v in Hlv. fold d in Hb.
    apply better_true in Hb.
    split.
    + intros v0 l Hl.
      destruct (Nat.eq_dec v0 v) as [->|Hne].
      * rewrite set_label_same in Hl. inversion Hl; subst l. right.
        split; [exact Hd|]. exists h. split; [exact Hin_h|].
        split; [reflexivity|]. split; [reflexivity|].
        intros h' Hh' Hto' Hw. apply in_app_or in Hh'.
        destruct Hh' as [Hh'|[<-|[]]]; [|lia].
        destruct (Hsn h' Hh') as (lv' & Hlv' & Hcmp);
          [rewrite Hto'; exact Hd|].
        rewrite Hto', Hlv in Hlv'. inversion Hlv'; subst lv'.
        unfold d in Hb.
        destruct Hb as [Hb|(Hb & id' & Hid & Hlt)];
          destruct Hcmp as [Hc|(Hc & Hc')]; try lra.
        specialize (Hc' id' Hid). lia.
      * rewrite set_label_other in Hl by exact Hne.
        apply Hother; assumption.
    + intros h' Hh' Hnd. apply in_app_or in Hh'.
      destruct Hh' as [Hh'|[<-|[]]].
      * destruct (Hsn h' Hh' Hnd) as (lv' & Hlv' & Hcmp).
        destruct (Nat.eq_dec (hop_to h') v) as [Ev|Hne].
        -- rewrite Ev in *. rewrite Hlv in Hlv'.
           inversion Hlv'; subst lv'.
           rewrite set_label_same. eexists. split; [reflexivity|].
           cbn [fst snd]. fold d. unfold d in Hb |- *.
           destruct Hb as [Hb|(Hb & id' & Hid & Hlt)];
             destruct Hcmp as [Hc|(Hc & Hc')]; try (left; lra).
           right. split; [lra|].
           intros id0. rewrite last_edge_id_snoc. intros Hid0.
           inversion Hid0; subst id0. specialize (Hc' id' Hid). lia.
        -- rewrite set_label_other by exact Hne.
           exists lv'. split; [exact Hlv'|exact Hcmp].
      * fold v. rewrite set_label_same. eexists. split; [reflexivity|].
        right. cbn [fst snd]. split; [reflexivity|].
        intros id0. rewrite last_edge_id_snoc.
        intros Hid. inversion Hid. lia.
  - (* the incumbent stays *)
    fold v in Hlv. fold d in Hb.
    apply better_false in Hb.
    split.
    + intros v0 l Hl.
      destruct (Nat.eq_dec v0 v) as [->|Hne]; [|apply Hother; assumption].
      destruct (Hp v l Hl) as [F|(Hnd & h0 & H0 & Hto & El & Hlow)];
        [left; exact F|right].
      split; [exact Hnd|]. exists h0.
      split; [apply Hin_pre; exact H0|]. split; [exact Hto|].
      split; [exact El|].
      intros h' Hh' Hto' Hw. apply in_app_or in Hh'.
      destruct Hh' as [Hh'|[<-|[]]]; [apply Hlow; assumption|].
      rewrite Hlv in Hl. inversion Hl; subst lv. subst l.
      cbn [fst snd] in Hb. unfold d in Hb.
      destruct Hb as [Hb|(_ & Hb)]; [lra|].
      apply Hb. apply last_edge_id_snoc.
    + intros h' Hh' Hnd. apply in_app_or in Hh'.
      destruct Hh' as [Hh'|[<-|[]]]; [apply Hsn; assumption|].
      fold v. exists lv. split; [exact Hlv|]. fold d.
      destruct Hb as [Hb|(Hb & Hb')]; [left; exact Hb|right].
      split; [exact Hb|exact Hb'].
Qed.

Lemma relax_all_ties (hs pre : list hop) (ls : labels) :
  tie_pending g lu done pre ls ->
  tie_seen lu done pre ls ->
  tie_pending g lu done (pre ++ hs) (fold_left (relax lu done) hs ls).
Proof.
  revert pre ls. induction hs as [|h hs IH]; intros pre ls Hp Hsn.
  - rewrite app_nil_r. exact Hp.
  - cbn [fold_left].
    destruct (relax_ties pre ls h Hp Hsn) as [Hp' Hsn'].
    replace (pre ++ h :: hs) with ((pre ++ [h]) ++ hs)
      by (rewrite <- app_assoc; reflexivity).
    apply IH; assumption.
Qed.

End Relaxing.

Lemma labels_tied_relax (ls : labels) (u : nat) (lu : label)
      (done : list nat) :
  labels_tied g ls -> ls u = Some lu ->
  labels_tied g (fold_left (relax lu done) (out_hops g u) ls).
Proof.
  intros Ht Hu v l Hl.
  assert (Hp : tie_pending g lu done [] ls).
  { intros v0 l0 H0. left. apply (Ht v0 l0 H0). }
  assert (Hsn : tie_seen lu done [] ls) by (intros h' []).
  destruct (relax_all_ties lu done (out_hops g u) [] ls Hp Hsn v l Hl)
    as [F|(_ & h & Hh & Hto & El & Hlow)]; [exact F|].
  cbn [app] in Hh, Hlow. subst l. cbn [snd].
  apply Forall_app. split; [apply (Ht u lu Hu)|].
  constructor; [|constructor].
  apply out_hops_in in Hh. destruct Hh as [Hh Hfrom].
  intros h' Hh' Hf' Ht' Hw. apply Hlow.
  - apply out_hops_in. split; [exact Hh'|congruence].
  - congruence.
  - exact Hw.
Qed.

Lemma loop_tied (fuel : nat) (done : list nat) (ls : labels) :
  labels_tied g ls ->
  labels_tied g (relaxation_loop fuel g s done ls).
Proof.
  revert done ls. induction fuel as [|fuel IH]; intros done ls Ht;
    [exact Ht|].
  cbn [relaxation_loop].
  destruct (extract_min (vertices g s) done ls) as [[u lu]|] eqn:E;
    [|exact Ht].
  apply IH. apply labels_tied_relax; [exact Ht|].
  apply (extract_min_some _ _ _ _ _ E).
Qed.

Lemma labels_tied_start : labels_tied g (start_labels s).
Proof.
  intros v l H. unfold start_labels, set_label, no_labels in H.
  destruct (v =? s); [|discriminate]. inversion H. constructor.
Qed.

End TieProperties.

(* ------------------------------------------------------------------ *)
(** ** Ties between routes *)
(* ------------------------------------------------------------------ *)

Section RouteProperties.

Variable g : Graph.
Variable s : nat.

Lemma is_path_nil_inv (v : nat) : is_path g s [] v -> v = s.
Proof.
  intros H. remember (@nil hop) as l eqn:E. destruct H as [|p x h _ _ _].
  - reflexivity.
  - destruct p; discriminate.
Qed.

Lemma is_path_snoc_inv (q : list hop) (h : hop) (v : nat) :
  is_path g s (q ++ [h]) v ->
  is_path g s q (hop_from h) /\ In h (traversals g) /\ hop_to h = v.
Proof.
  intros H. remember (q ++ [h]) as l eqn:E.
  destruct H as [|p x h0 Hp Hh Hf].
  - destruct q; discriminate.
  - apply app_inj_tail in E. destruct E as [E1 E2]. subst p h0 x. auto.
Qed.

Lemma positive_nonnegative : positive_weights g -> nonnegative_weights g.
Proof. intros H e He. specialize (H e He). lra. Qed.

Lemma hop_weight_positive (h : hop) :
  positive_weights g -> In h (traversals g) -> 0 < hop_weight h.
Proof. intros H Hh. apply H. apply traversals_via. exact Hh. Qed.

Lemma path_weight_nonneg (p : list hop) (v : nat) :
  nonnegative_weights g -> is_path g s p v -> 0 <= path_weight p.
Proof.
  intros Hw H. induction H as [|p x h _ IH Hh _]; [cbn; lra|].
  rewrite path_weight_snoc.
  pose proof (hop_weight_nonneg g Hw h Hh). lra.
Qed.

Lemma improves_refl (l : label) : improves l l.
Proof. right. split; [reflexivity|left; reflexivity]. Qed.

Lemma improves_trans (l1 l2 l3 : label) :
  improves l1 l2 -> improves l2 l3 -> improves l1 l3.
Proof.
  intros [H1|[H1 H1']] [H2|[H2 H2']]; try (left; lra).
  right. split; [lra|].
  destruct H1' as [->|(i1 & i2 & E1 & E2 & Hlt1)]; [exact H2'|].
  destruct H2' as [<-|(i2' & i3 & E2' & E3 & Hlt2)].
  - right. exists i1, i2. auto.
  - right. exists i1, i3. rewrite E2 in E2'. inversion E2'; subst i2'.
    split; [exact E1|]. split; [exact E3|lia].
Qed.

Lemma improves_arrives (c : Q) (id : Z) (l' l : label) :
  improves l' l -> arrives_no_worse c id l -> arrives_no_worse c id l'.
Proof.
  intros [H|[H H']] [Ha|[Ha Ha']]; try (left; lra).
  right. split; [lra|].
  destruct H' as [->|(i' & i & E' & E & Hlt)]; [exact Ha'|].
  intros id0 Hid0. rewrite E' in Hid0. inversion Hid0; subst id0.
  specialize (Ha' i E). lia.
Qed.

Section Relaxing.

Variable lu : label.
Variable done : list nat.

Lemma relax_improves (ls : labels) (h : hop) (x : nat) (l : label) :
  ls x = Some l ->
  exists l', relax lu done ls h x = Some l' /\ improves l' l.
Proof.
  intros Hl.
  destruct (relax_cases lu done ls h)
    as [[_ E]|[(_ & Hnone & E)|[(_ & lv & Hlv & Hb & E)
                               |(_ & lv & Hlv & _ & E)]]];
    rewrite E.
  - exists l. split; [exact Hl|apply improves_refl].
  - destruct (Nat.eq_dec x (hop_to h)) as [->|Hne]; [congruence|].
    rewrite set_label_other by exact Hne.
    exists l. split; [exact Hl|apply improves_refl].
  - destruct (Nat.eq_dec x (hop_to h)) as [->|Hne].
    + rewrite Hlv in Hl. inversion Hl; subst lv.
      rewrite set_label_same. eexists. split; [reflexivity|].
      apply better_true in Hb.
      destruct Hb as [Hb|(Hb & id' & Hid & Hlt)]; [left; exact Hb|].
      right. split; [exact Hb|]. right.
      exists (hop_id h), id'. cbn [snd].
      rewrite last_edge_id_snoc. auto.
    + rewrite set_label_other by exact Hne.
      exists l. split; [exact Hl|apply improves_refl].
  - exists l. split; [exact Hl|apply improves_refl].
Qed.

Lemma relax_arrives (ls : labels) (h : hop) :
  ~ In (hop_to h) done ->
  exists l', relax lu done ls h (hop_to h) = Some l' /\
             arrives_no_worse (fst lu + hop_weight h) (hop_id h) l'.
Proof.
  intros Hn.
  assert (Hnew : arrives_no_worse (fst lu + hop_weight h) (hop_id h)
                   (fst lu + hop_weight h, snd lu ++ [h])).
  { right. cbn [fst snd]. split; [reflexivity|].
    intros id0. rewrite last_edge_id_snoc. intros E. inversion E. lia. }
  destruct (relax_cases lu done ls h)
    as [[C _]|[(_ & _ & E)|[(_ & lv & _ & _ & E)
                           |(_ & lv & Hlv & Hb & E)]]];
    [contradiction| | |]; rewrite E.
  - rewrite set_label_same. eexists. split; [reflexivity|exact Hnew].
  - rewrite set_label_same. eexists. split; [reflexivity|exact Hnew].
  - exists lv. split; [exact Hlv|]. apply better_false in Hb. exact Hb.
Qed.

Lemma relax_all_improves (hs : list hop) (ls : labels) (x : nat)
      (l : label) :
  ls x = Some l ->
  exists l', fold_left (relax lu done) hs ls x = Some l' /\ improves l' l.
Proof.
  revert ls l. induction hs as [|h hs IH]; intros ls l Hl.
  - exists l. split; [exact Hl|apply improves_refl].
  - cbn [fold_left].
    destruct (relax_improves ls h x l Hl) as (l1 & H1 & Hi1).
    destruct (IH _ _ H1) as (l2 & H2 & Hi2).
    exists l2. split; [exact H2|].
    apply (improves_trans l2 l1 l); assumption.
Qed.

Lemma relax_all_arrives (hs : list hop) (ls : labels) (h : hop) :
  In h hs -> ~ In (hop_to h) done ->
  exists l', fold_left (relax lu done) hs ls (hop_to h) = Some l' /\
             arrives_no_worse (fst lu + hop_weight h) (hop_id h) l'.
Proof.
  intros Hh Hn. revert ls. induction hs as [|a hs IH]; intros ls;
    [destruct Hh|].
  cbn [fold_left]. destruct Hh as [->|Hh].
  - destruct (relax_arrives ls h Hn) as (l1 & H1 & Ha).
    destruct (relax_all_improves hs _ _ _ H1) as (l2 & H2 & Hi).
    exists l2. split; [exact H2|].
    apply (improves_arrives _ _ l2 l1); assumption.
  - apply IH. exact Hh.
Qed.

End Relaxing.

Lemma route_invariant_start : route_invariant g [] (start_labels s).
Proof.
  constructor.
  - intros v l H. left. unfold start_labels, set_label, no_labels in H.
    destruct (v =? s); [|discriminate]. inversion H. reflexivity.
  - intros u lu h [].
Qed.

Hypothesis weights_positive : positive_weights g.

(** Settling the least unsettled node keeps the invariant: a hop out of
    it into a settled node arrives strictly later than that node's
    label, because the hop weighs something. *)
Lemma route_invariant_step (done : list nat) (ls : labels)
      (u : nat) (lu : label) :
  loop_invariant g s done ls ->
  route_invariant g done ls ->
  extract_min (vertices g s) done ls = Some (u, lu) ->
  route_invariant g (u :: done)
                  (fold_left (relax lu (u :: done)) (out_hops g u) ls).
Proof.
  intros Hinv [Hpar Hseen] E.
  destruct (extract_min_some _ _ _ _ _ E) as (_ & Hnu & Hlu & _).
  set (done' := u :: done).
  set (ls' := fold_left (relax lu done') (out_hops g u) ls).
  assert (Hkeep : forall x, In x done' -> ls' x = ls x).
  { intros x Hx. apply relax_all_settled. exact Hx. }
  constructor.
  - intros v l Hl.
    destruct (relax_all_origin lu done' _ _ _ _ Hl)
      as [H0|(h & Hh & Hv & _ & El)].
    + destruct (Hpar v l H0) as [Hnil|(x & lx & h & Hx & Hlx & Hto & Ep)];
        [left; exact Hnil|right].
      exists x, lx, h. split; [right; exact Hx|].
      split; [rewrite Hkeep by (right; exact Hx); exact Hlx|auto].
    + right. exists u, lu, h. split; [left; reflexivity|].
      split; [rewrite Hkeep by (left; reflexivity); exact Hlu|].
      split; [symmetry; exact Hv|]. rewrite El. reflexivity.
  - intros x lx h Hx Hlx Hh Hfrom. rewrite (Hkeep x Hx) in Hlx.
    destruct Hx as [Hx|Hx].
    + subst x. assert (lx = lu) by congruence. subst lx.
      pose proof (hop_weight_positive h weights_positive Hh) as Hw.
      destruct (in_dec Nat.eq_dec (hop_to h) done') as [Hd|Hd].
      * rewrite (Hkeep _ Hd). destruct Hd as [Hd|Hd].
        -- rewrite <- Hd. exists lu. split; [exact Hlu|left; lra].
        -- destruct (inv_done_labelled _ _ _ _ Hinv _ Hd) as (lz & Hlz).
           exists lz. split; [exact Hlz|left].
           pose proof (inv_frontier _ _ _ _ Hinv _ lz u lu Hd Hlz Hnu Hlu).
           lra.
      * apply relax_all_arrives; [|exact Hd].
        apply out_hops_in. split; [exact Hh|exact Hfrom].
    + destruct (Hseen x lx h Hx Hlx Hh Hfrom) as (lv & Hlv & Ha).
      destruct (relax_all_improves lu done' (out_hops g u) _ _ _ Hlv)
        as (l1 & H1 & Hi).
      exists l1. split; [exact H1|].
      apply (improves_arrives _ _ l1 lv); assumption.
Qed.

(** With as much fuel as there are vertices left, the loop stops with
    an empty queue and both invariants. *)
Lemma route_finishes (fuel : nat) (done : list nat) (ls : labels) :
  labels_sound g s ls ->
  loop_invariant g s done ls ->
  route_invariant g done ls ->
  (List.length (vertices g s) <= fuel + List.length done)%nat ->
  exists done',
    loop_invariant g s done' (relaxation_loop fuel g s done ls) /\
    route_invariant g done' (relaxation_loop fuel g s done ls) /\
    queue_empty done' (relaxation_loop fuel g s done ls).
Proof.
  revert done ls. induction fuel as [|fuel IH];
    intros done ls Hs Hinv Hrt Hlen.
  - exists done. split; [exact Hinv|]. split; [exact Hrt|].
    cbn [relaxation_loop].
    intros z Hz. destruct (ls z) as [lz|] eqn:Hlz; [|reflexivity].
    exfalso.
    assert (Hnd : NoDup (z :: done)).
    { constructor; [exact Hz|apply (inv_nodup _ _ _ _ Hinv)]. }
    assert (Hincl : incl (z :: done) (vertices g s)).
    { intros x [<-|Hx]; [apply (labelled_vertex g s ls _ lz Hs Hlz)|].
      apply (inv_done_in _ _ _ _ Hinv). exact Hx. }
    pose proof (NoDup_incl_length Hnd Hincl) as Hle.
    cbn [List.length] in Hle. lia.
  - cbn [relaxation_loop].
    destruct (extract_min (vertices g s) done ls) as [[u lu]|] eqn:E.
    + apply IH.
      * apply labels_sound_relax; [exact Hs|].
        apply (extract_min_some _ _ _ _ _ E).
      * apply loop_invariant_step;
          [apply positive_nonnegative; exact weights_positive| | |];
          assumption.
      * apply route_invariant_step; assumption.
      * cbn [List.length]. lia.
    + exists done. split; [exact Hinv|]. split; [exact Hrt|].
      intros z Hz. destruct (ls z) as [lz|] eqn:Hlz; [|reflexivity].
      rewrite <- Hlz.
      apply (extract_min_none _ _ _ E z); [|exact Hz].
      apply (labelled_vertex g s ls z lz Hs Hlz).
Qed.

(** The part of a labelled path up to one of its hops is the label of
    the node that hop leads to. *)
Lemma route_prefix (done : list nat) (ls : labels) (p2 : list hop) :
  route_invariant g done ls ->
  forall v l p1 h,
    ls v = Some l -> snd l = p1 ++ h :: p2 ->
    exists lx, ls (hop_to h) = Some lx /\ snd lx = p1 ++ [h].
Proof.
  intros Hrt. induction p2 as [|h2 p2 IH] using rev_ind;
    intros v l p1 h Hl Ep.
  - destruct (route_parent _ _ _ Hrt v l Hl)
      as [Hnil|(x & lx & h0 & _ & _ & Hto & Ep')].
    + rewrite Hnil in Ep. destruct p1; discriminate.
    + rewrite Ep in Ep'. apply app_inj_tail in Ep'.
      destruct Ep' as [_ <-]. rewrite Hto. exists l. auto.
  - destruct (route_parent _ _ _ Hrt v l Hl)
      as [Hnil|(x & lx & h0 & _ & Hlx & _ & Ep')].
    + rewrite Hnil in Ep. destruct p1; discriminate.
    + rewrite Ep in Ep'.
      replace (p1 ++ h :: p2 ++ [h2]) with ((p1 ++ h :: p2) ++ [h2]) in Ep'
        by (rewrite <- app_assoc; reflexivity).
      apply app_inj_tail in Ep'. destruct Ep' as [Ep' _].
      apply (IH x lx p1 h Hlx). symmetry. exact Ep'.
Qed.

(** Once the queue is empty, every labelled path breaks its ties by the
    lowest edge id at every node along it. *)
Lemma labels_lowest_route (done : list nat) (ls : labels)
      (v : nat) (l : label) :
  labels_sound g s ls ->
  loop_invariant g s done ls ->
  route_invariant g done ls ->
  queue_empty done ls ->
  ls v = Some l ->
  lowest_route g s (snd l).
Proof.
  intros Hs Hinv Hrt Hq Hl p1 h p2 q h' Ep Hpath Hle.
  destruct (route_prefix done ls p2 Hrt v l p1 h Hl Ep) as (lx & Hlx & Ex).
  destruct (Hs _ _ Hlx) as [_ Hwx]. rewrite Ex in Hwx.
  destruct (is_path_snoc_inv q h' _ Hpath) as (Hq1 & Hh' & Hto).
  destruct (labels_lower_bound g s done ls q _ Hinv Hq Hq1)
    as (lu & Hlu & Hlow).
  assert (Hu : In (hop_from h') done).
  { destruct (in_dec Nat.eq_dec (hop_from h') done) as [Hd|Hd];
      [exact Hd|].
    rewrite (Hq _ Hd) in Hlu. discriminate. }
  destruct (route_seen _ _ _ Hrt _ lu h' Hu Hlu Hh' eq_refl)
    as (lv & Hlv & Ha).
  rewrite Hto, Hlx in Hlv. inversion Hlv; subst lv.
  rewrite path_weight_snoc in Hle.
  destruct Ha as [Ha|[_ Ha]]; [lra|].
  apply Ha. rewrite Ex. apply last_edge_id_snoc.
Qed.

Lemma least_weight_prefix (p : list hop) (h : hop) (t : nat) :
  least_weight g s (p ++ [h]) t -> least_weight g s p (hop_from h).
Proof.
  intros [Hp Hmin].
  destruct (is_path_snoc_inv p h t Hp) as (Hp1 & Hh & Hto).
  split; [exact Hp1|]. intros r Hr.
  assert (Hr' : is_path g s (r ++ [h]) t).
  { rewrite <- Hto. econstructor; [exact Hr|exact Hh|reflexivity]. }
  specialize (Hmin _ Hr'). rewrite !path_weight_snoc in Hmin. lra.
Qed.

Lemma lowest_route_prefix (p : list hop) (h : hop) :
  lowest_route g s (p ++ [h]) -> lowest_route g s p.
Proof.
  intros H p1 x p2 q h' E. apply (H p1 x (p2 ++ [h]) q h').
  rewrite E, <- app_assoc. reflexivity.
Qed.

Hypothesis distinct_ids : NoDup (map edge_id (edges g)).

Lemma same_id_same_hop (h h' : hop) :
  In h (traversals g) -> In h' (traversals g) ->
  hop_id h = hop_id h' -> hop_to h = hop_to h' ->
  h = h' \/ hop_from h = hop_to h.
Proof.
  intros Hh Hh' Hid Hto.
  assert (E : via h = via h').
  { apply (nodup_map_injective edge_id (edges g)); try assumption;
      apply traversals_via; assumption. }
  destruct h as [e f], h' as [e' f']. cbn in E. subst e'.
  unfold hop_to, hop_from in *. cbn in *.
  destruct f, f'; auto.
Qed.

(** With weights above 0 and distinct edge ids, the lightest path that
    breaks its ties by the lowest edge id is unique. *)
Lemma lowest_route_unique (p : list hop) :
  forall q t,
    least_weight g s p t -> lowest_route g s p ->
    least_weight g s q t -> lowest_route g s q ->
    p = q.
Proof.
  pose proof (positive_nonnegative weights_positive) as Hnn.
  induction p as [|h p IH] using rev_ind; intros q t Hp Hlp Hq Hlq.
  - destruct q as [|h' q _] using rev_ind; [reflexivity|exfalso].
    destruct Hp as [Hp _], Hq as [Hq Hqmin].
    specialize (Hqmin [] Hp). cbn [path_weight] in Hqmin.
    rewrite path_weight_snoc in Hqmin.
    destruct (is_path_snoc_inv q h' t Hq) as (Hq1 & Hh' & _).
    pose proof (path_weight_nonneg q _ Hnn Hq1).
    pose proof (hop_weight_positive h' weights_positive Hh'). lra.
  - destruct q as [|h' q _] using rev_ind.
    + exfalso. destruct Hq as [Hq _], Hp as [Hp Hpmin].
      specialize (Hpmin [] Hq). cbn [path_weight] in Hpmin.
      rewrite path_weight_snoc in Hpmin.
      destruct (is_path_snoc_inv p h t Hp) as (Hp1 & Hh & _).
      pose proof (path_weight_nonneg p _ Hnn Hp1).
      pose proof (hop_weight_positive h weights_positive Hh). lra.
    + destruct (is_path_snoc_inv p h t (proj1 Hp)) as (Hp1 & Hh & Hto).
      destruct (is_path_snoc_inv q h' t (proj1 Hq)) as (Hq1 & Hh' & Hto').
      assert (Hpq : path_weight (p ++ [h]) <= path_weight (q ++ [h']))
        by (apply (proj2 Hp); exact (proj1 Hq)).
      assert (Hqp : path_weight (q ++ [h']) <= path_weight (p ++ [h]))
        by (apply (proj2 Hq); exact (proj1 Hp)).
      assert (Hid1 : (hop_id h <= hop_id h')%Z).
      { apply (Hlp p h [] q h' eq_refl); [|exact Hqp].
        rewrite Hto. exact (proj1 Hq). }
      assert (Hid2 : (hop_id h' <= hop_id h)%Z).
      { apply (Hlq q h' [] p h eq_refl); [|exact Hpq].
        rewrite Hto'. exact (proj1 Hp). }
      assert (Ehh : h = h').
      { destruct (same_id_same_hop h h' Hh Hh') as [E|Hloop];
          [lia|congruence|exact E|exfalso].
        rewrite Hto in Hloop. rewrite Hloop in Hp1.
        pose proof (proj2 Hp p Hp1) as Hc.
        rewrite path_weight_snoc in Hc.
        pose proof (hop_weight_positive h weights_positive Hh). lra. }
      subst h'. f_equal.
      apply (IH q (hop_from h)).
      * apply (least_weight_prefix p h t Hp).
      * apply (lowest_route_prefix p h Hlp).
      * apply (least_weight_prefix q h t Hq).
      * apply (lowest_route_prefix q h Hlq).
Qed.

End RouteProperties.

(** Two graphs with the same edges, in whatever order, have the same
    traversals and the same paths. *)
Lemma traversals_incl (g1 g2 : Graph) :
  directed g1 = directed g2 -> incl (edges g1) (edges g2) ->
  incl (traversals g1) (traversals g2).
Proof.
  intros Hd Hi h. unfold traversals. rewrite !in_flat_map.
  intros (e & He & Hh). exists e. split; [apply Hi; exact He|].
  rewrite <- Hd. exact Hh.
Qed.

Lemma is_path_incl (g1 g2 : Graph) (s : nat) (p : list hop) (t : nat) :
  incl (traversals g1) (traversals g2) ->
  is_path g1 s p t -> is_path g2 s p t.
Proof.
  intros Hi H. induction H as [|p x h _ IH Hh Hf]; [constructor|].
  econstructor; [exact IH|apply Hi; exact Hh|exact Hf].
Qed.

Lemma least_weight_incl (g1 g2 : Graph) (s : nat) (p : list hop) (t : nat) :
  incl (traversals g1) (traversals g2) ->
  incl (traversals g2) (traversals g1) ->
  least_weight g1 s p t -> least_weight g2 s p t.
Proof.
  intros H12 H21 [Hp Hmin]. split.
  - apply (is_path_incl g1 g2); assumption.
  - intros r Hr. apply Hmin. apply (is_path_incl g2 g1); assumption.
Qed.

Lemma lowest_route_incl (g1 g2 : Graph) (s : nat) (p : list hop) :
  incl (traversals g2) (traversals g1) ->
  lowest_route g1 s p -> lowest_route g2 s p.
Proof.
  intros H21 H p1 h p2 q h' E Hq Hle.
  apply (H p1 h p2 q h' E); [|exact Hle].
  apply (is_path_incl g2 g1); assumption.
Qed.

(* ------------------------------------------------------------------ *)
(** ** The solver *)
(* ------------------------------------------------------------------ *)

Section SolveProperties.

Lemma shortest_path_inl (g : Graph) (s t : nat) (P : Path) :
  shortest_path g s t = inl P ->
  path_source P = s /\ path_destination P = t /\
  relaxation_loop (List.length (vertices g s)) g s [] (start_labels s) t
  = Some (total_weight P, path_hops P).
Proof.
  unfold shortest_path.
  destruct (relaxation_loop _ g s [] (start_labels s) t) as [[d p]|];
    [|discriminate].
  intros H. inversion H. cbn. auto.
Qed.

Lemma shortest_path_inr (g : Graph) (s t : nat) (e : SolveError) :
  shortest_path g s t = inr e -> e = NoPathError.
Proof.
  unfold shortest_path.
  destruct (relaxation_loop _ g s [] (start_labels s) t) as [[d p]|];
    [discriminate|].
  intros H. inversion H. reflexivity.
Qed.

(** Whatever the search returns is a path of the graph, with its
    weight. *)
Lemma shortest_path_is_path (g : Graph) (s t : nat) (P : Path) :
  shortest_path g s t = inl P ->
  is_path g s (path_hops P) t /\
  total_weight P == path_weight (path_hops P).
Proof.
  intros H. apply shortest_path_inl in H. destruct H as (_ & _ & H).
  apply (loop_sound g s _ [] _ (labels_sound_start g s) t _ H).
Qed.

Lemma shortest_path_unreachable (g : Graph) (s t : nat) :
  ~ connected g s t -> shortest_path g s t = inr NoPathError.
Proof.
  intros Hn. destruct (shortest_path g s t) as [P|e] eqn:E.
  - exfalso. apply Hn. exists (path_hops P).
    apply (shortest_path_is_path g s t P E).
  - rewrite (shortest_path_inr g s t e E). reflexivity.
Qed.

Lemma shortest_path_minimum (g : Graph) (s t : nat) :
  nonnegative_weights g -> connected g s t ->
  exists P, shortest_path g s t = inl P /\
    path_source P = s /\ path_destination P = t /\
    is_path g s (path_hops P) t /\
    total_weight P == path_weight (path_hops P) /\
    (forall q, is_path g s q t -> total_weight P <= path_weight q) /\
    Forall (lowest_parallel g) (path_hops P).
Proof.
  intros Hw [q0 Hq0].
  destruct (loop_finishes g s Hw (List.length (vertices g s)) [] _
              (labels_sound_start g s) (loop_invariant_start g s))
    as (done & Hinv & Hempty); [cbn [List.length]; lia|].
  destruct (labels_lower_bound g s done _ q0 t Hinv Hempty Hq0)
    as ([d p] & Hl & _).
  exists {| path_source := s; path_destination := t;
            path_hops := p; total_weight := d |}.
  assert (E : shortest_path g s t
              = inl {| path_source := s; path_destination := t;
                       path_hops := p; total_weight := d |}).
  { unfold shortest_path. rewrite Hl. reflexivity. }
  split; [exact E|]. split; [reflexivity|]. split; [reflexivity|].
  destruct (shortest_path_is_path g s t _ E) as [Hp Hwt].
  split; [exact Hp|]. split; [exact Hwt|]. split.
  - intros q Hq.
    destruct (labels_lower_bound g s done _ q t Hinv Hempty Hq)
      as (l' & Hl' & Hle).
    rewrite Hl in Hl'. inversion Hl'; subst l'. exact Hle.
  - apply (loop_tied g s _ [] _ (labels_tied_start g s) t _ Hl).
Qed.

Lemma solve_snapped (g : Graph) (source destination : point)
      (options : solve_graph_options) (ns nt : GraphNode) :
  0 <= max_solution_radius options ->
  snap g (max_solution_radius options) source = Some ns ->
  snap g (max_solution_radius options) destination = Some nt ->
  solve g source destination options
  = shortest_path g (node_id ns) (node_id nt).
Proof.
  intros Hr Hs Ht. unfold solve.
  apply Qle_bool_iff in Hr. rewrite Hr, Hs, Ht. reflexivity.
Qed.

Lemma solve_inl (g : Graph) (source destination : point)
      (options : solve_graph_options) (P : Path) :
  solve g source destination options = inl P ->
  0 <= max_solution_radius options /\
  exists ns nt,
    snap g (max_solution_radius options) source = Some ns /\
    snap g (max_solution_radius options) destination = Some nt /\
    shortest_path g (node_id ns) (node_id nt) = inl P.
Proof.
  unfold solve.
  destruct (Qle_bool 0 (max_solution_radius options)) eqn:Hr;
    [|discriminate].
  apply Qle_bool_iff in Hr. cbn [negb].
  destruct (snap g _ source) as [ns|]; [|discriminate].
  destruct (snap g _ destination) as [nt|]; [|discriminate].
  intros H. split; [exact Hr|]. exists ns, nt. auto.
Qed.

(** With weights above 0 the path returned is the lightest, and at
    every node along it no equally light way of getting there arrives
    over an edge of lower id. *)
Lemma shortest_path_lowest_route (g : Graph) (s t : nat) (P : Path) :
  positive_weights g ->
  shortest_path g s t = inl P ->
  least_weight g s (path_hops P) t /\ lowest_route g s (path_hops P).
Proof.
  intros Hpos E.
  destruct (route_finishes g s Hpos (List.length (vertices g s)) [] _
              (labels_sound_start g s) (loop_invariant_start g s)
              (route_invariant_start g s))
    as (done & Hinv & Hrt & Hempty); [cbn [List.length]; lia|].
  destruct (shortest_path_is_path g s t P E) as [Hp Hw].
  destruct (shortest_path_inl g s t P E) as (_ & _ & Hl).
  pose proof (loop_sound g s (List.length (vertices g s)) [] _
                (labels_sound_start g s)) as Hs.
  split; [split; [exact Hp|]|].
  - intros r Hr.
    destruct (labels_lower_bound g s done _ r t Hinv Hempty Hr)
      as (l' & Hl' & Hle).
    rewrite Hl in Hl'. inversion Hl'; subst l'. cbn [fst] in Hle. lra.
  - apply (labels_lowest_route g s done _ t (total_weight P, path_hops P)
             Hs Hinv Hrt Hempty Hl).
Qed.

(** With weights above 0 and distinct edge ids, the order in which the
    edges are listed does not change the answer of the search. *)
Lemma shortest_path_order_independent (g1 g2 : Graph) (s t : nat) :
  directed g1 = directed g2 ->
  Permutation (edges g1) (edges g2) ->
  positive_weights g1 ->
  NoDup (map edge_id (edges g1)) ->
  match shortest_path g1 s t, shortest_path g2 s t with
  | inl P1, inl P2 =>
      path_source P1 = path_source P2 /\
      path_destination P1 = path_destination P2 /\
      path_hops P1 = path_hops P2 /\
      total_weight P1 == total_weight P2
  | inr e1, inr e2 => e1 = e2
  | _, _ => False
  end.
Proof.
  intros Hd Hperm Hpos Hnd.
  assert (H12 : incl (edges g1) (edges g2)).
  { intros e He. apply (Permutation_in _ Hperm He). }
  assert (H21 : incl (edges g2) (edges g1)).
  { intros e He. apply (Permutation_in _ (Permutation_sym Hperm) He). }
  assert (Hpos2 : positive_weights g2).
  { intros e He. apply Hpos. apply H21. exact He. }
  pose proof (traversals_incl g1 g2 Hd H12) as T12.
  pose proof (traversals_incl g2 g1 (eq_sym Hd) H21) as T21.
  destruct (shortest_path g1 s t) as [P1|e1] eqn:E1;
    destruct (shortest_path g2 s t) as [P2|e2] eqn:E2.
  - destruct (shortest_path_lowest_route g1 s t P1 Hpos E1) as [L1 R1].
    destruct (shortest_path_lowest_route g2 s t P2 Hpos2 E2) as [L2 R2].
    destruct (shortest_path_inl g1 s t P1 E1) as (S1' & D1 & _).
    destruct (shortest_path_inl g2 s t P2 E2) as (S2' & D2 & _).
    assert (Eh : path_hops P1 = path_hops P2).
    { apply (lowest_route_unique g1 s Hpos Hnd _ _ t L1 R1).
      - apply (least_weight_incl g2 g1); assumption.
      - apply (lowest_route_incl g2 g1); assumption. }
    split; [congruence|]. split; [congruence|]. split; [exact Eh|].
    destruct (shortest_path_is_path g1 s t P1 E1) as [_ W1].
    destruct (shortest_path_is_path g2 s t P2 E2) as [_ W2].
    rewrite W1, W2, Eh. reflexivity.
  - destruct (shortest_path_is_path g1 s t P1 E1) as [Hp _].
    destruct (shortest_path_connected g2 s t) as [P2 C2].
    + exists (path_hops P1). apply (is_path_incl g1 g2); assumption.
    + congruence.
  - destruct (shortest_path_is_path g2 s t P2 E2) as [Hp _].
    destruct (shortest_path_connected g1 s t) as [P1 C1].
    + exists (path_hops P2). apply (is_path_incl g2 g1); assumption.
    + congruence.
  - rewrite (shortest_path_inr g1 s t e1 E1),
            (shortest_path_inr g2 s t e2 E2). reflexivity.
Qed.

Lemma snap_nodes (g1 g2 : Graph) (radius : Q) (p : point) :
  nodes g1 = nodes g2 -> snap g1 radius p = snap g2 radius p.
Proof. intros H. unfold snap. rewrite H. reflexivity. Qed.



(** C5. When the two coordinates snap to nodes that no path joins,
    [solve] returns [NoPathError], and it returns [NoPathError] only
    then, whatever the weights; [solve] is a total function whose loop is
    bounded by the number of vertices; and whatever path it does return
    is a path of the graph between the snapped nodes.  Across two
    disjoint components the answer is [NoPathError]. *)
Theorem solve_disconnected_no_path :
  (forall g source destination options ns nt,
      0 <= max_solution_radius options ->
      snap g (max_solution_radius options) source = Some ns ->
      snap g (max_solution_radius options) destination = Some nt ->
      ~ connected g (node_id ns) (node_id nt) ->
      solve g source destination options = inr NoPathError) /\
  (forall g source destination options ns nt,
      0 <= max_solution_radius options ->
      snap g (max_solution_radius options) source = Some ns ->
      snap g (max_solution_radius options) destination = Some nt ->
      solve g source destination options = inr NoPathError ->
      ~ connected g (node_id ns) (node_id nt)) /\
  (forall g source destination options P,
      solve g source destination options = inl P ->
      is_path g (path_source P) (path_hops P) (path_destination P) /\
      total_weight P == path_weight (path_hops P)) /\
  solve (notebook_graph manhattan_length [S1; S5])
        node_A (600, 500) notebook_solve_options
  = inr NoPathError.
Proof.
  split.
  { intros g source destination options ns nt Hr Hs Ht Hn.
    rewrite (solve_snapped g source destination options ns nt Hr Hs Ht).
    apply shortest_path_unreachable. exact Hn. }
  split.
  { intros g source destination options ns nt Hr Hs Ht E Hc.
    rewrite (solve_snapped g source destination options ns nt Hr Hs Ht) in E.
    destruct (shortest_path_connected g _ _ Hc) as [P HP].
    rewrite HP in E. discriminate. }
  split; [|vm_compute; reflexivity].
  intros g source destination options P H.
  destruct (solve_inl _ _ _ _ _ H) as (_ & ns & nt & _ & _ & E).
  destruct (shortest_path_inl _ _ _ _ E) as (E1 & E2 & _).
  rewrite E1, E2. apply shortest_path_is_path. exact E.
Qed.

(** C4. With a non-negative radius, [solve] answers
    [NoNodeInRangeError] exactly when the source or the destination has
    no node within the radius, radius 0 meaning no bound; when it
    answers with a path, the path starts and ends at nodes that are
    within the radius and nearest to the two coordinates.  For a
    coordinate at distance 2 from the nearest node, radius 1 gives
    [NoNodeInRangeError] and radius 5 snaps to that node. *)
Theorem solve_no_node_in_range :
  (forall g source destination options,
      0 <= max_solution_radius options ->
      (solve g source destination options = inr NoNodeInRangeError <->
       (forall n, In n (nodes g) ->
                  in_range (max_solution_radius options) source n = false)
       \/
       (forall n, In n (nodes g) ->
                  in_range (max_solution_radius options) destination n
                  = false))) /\
  (forall g source destination options P,
      solve g source destination options = inl P ->
      exists ns nt,
        In ns (nodes g) /\ In nt (nodes g) /\
        path_source P = node_id ns /\ path_destination P = node_id nt /\
        in_range (max_solution_radius options) source ns = true /\
        in_range (max_solution_radius options) destination nt = true /\
        (forall m, In m (nodes g) ->
           dist2 source (coordinate ns) <= dist2 source (coordinate m)) /\
        (forall m, In m (nodes g) ->
           dist2 destination (coordinate nt)
           <= dist2 destination (coordinate m))) /\
  (forall p n, in_range 0 p n = true) /\
  (nearest (0, 0) (nodes (notebook_graph manhattan_length [S6]))
   = Some {| node_id := 0%nat; coordinate := (2, 0) |} /\
   dist2 (0, 0) (2, 0) == 2 * 2 /\
   solve (notebook_graph manhattan_length [S6]) (0, 0) (102, 0)
         {| max_solution_radius := 1 |}
   = inr NoNodeInRangeError /\
   match solve (notebook_graph manhattan_length [S6]) (0, 0) (102, 0)
               {| max_solution_radius := 5 |} with
   | inl P => path_source P = 0%nat /\ map hop_id (path_hops P) = [6%Z]
   | inr _ => False
   end).
Proof.
  split.
  { intros g source destination options Hr.
    rewrite <- !snap_none. unfold solve.
    apply Qle_bool_iff in Hr. rewrite Hr. cbn [negb].
    destruct (snap g _ source) as [ns|].
    - destruct (snap g _ destination) as [nt|].
      + split.
        * intros H. apply shortest_path_inr in H. discriminate.
        * intros [H|H]; discriminate.
      + split; [right; reflexivity|reflexivity].
    - split; [left; reflexivity|reflexivity]. }
  split.
  { intros g source destination options P H.
    destruct (solve_inl _ _ _ _ _ H) as (_ & ns & nt & Hs & Ht & E).
    destruct (shortest_path_inl _ _ _ _ E) as (E1 & E2 & _).
    destruct (snap_some _ _ _ _ Hs) as (Hs1 & Hs2 & Hs3).
    destruct (snap_some _ _ _ _ Ht) as (Ht1 & Ht2 & Ht3).
    exists ns, nt. repeat split; assumption. }
  split; [intros p n; reflexivity|].
  split; [vm_compute; reflexivity|].
  split; [vm_compute; reflexivity|].
  split; [vm_compute; reflexivity|].
  vm_compute. split; reflexivity.
Qed.

End SolveProperties.

(* ------------------------------------------------------------------ *)
(** ** The graph of the notebook *)
(* ------------------------------------------------------------------ *)

Section NotebookGraphProperties.

Variable ST_Length : linestring -> Q.

Lemma traversals_both (g : Graph) (e : GraphEdge) :
  directed g = false -> In e (edges g) ->
  In {| via := e; forward := true |} (traversals g) /\
  In {| via := e; forward := false |} (traversals g).
Proof.
  intros Hd He. unfold traversals. rewrite !in_flat_map.
  split; exists e; (split; [exact He|]); rewrite Hd; cbn; auto.
Qed.

Lemma segments_in (es : list edge_component) (ws : list weight_component)
      (e : edge_component) (sg : segment) :
  In e es -> segment_of ws e = Some sg -> In sg (segments es ws).
Proof.
  intros He Hs. unfold segments. apply in_flat_map. exists e.
  split; [exact He|]. rewrite Hs. left. reflexivity.
Qed.

Lemma build_has_edge (d : bool) (tol : Q) (es : list edge_component)
      (ws : list weight_component) (sg : segment) :
  In sg (segments es ws) ->
  exists e, In e (edges (build d tol es ws)) /\
            edge_id e = seg_id sg /\ weight e = seg_weight sg.
Proof.
  intros H. destruct (In_nth_error _ _ H) as [k Hk].
  eexists. split.
  - cbn [build edges]. eapply nth_error_In.
    apply (edges_of_nth _ _ 0 k sg Hk).
  - cbn. auto.
Qed.

(** The one-way record S8 is built into an edge that the solver takes
    from B back to A: C7, as stated, fails. *)
Lemma oneway_segment_traversed_backwards :
  oneway_forbids_reverse S8 = true /\
  (exists e,
      edges (notebook_graph manhattan_length [S8]) = [e] /\
      edge_id e = osm_id S8 /\
      In {| via := e; forward := false |}
         (traversals (notebook_graph manhattan_length [S8]))) /\
  match solve (notebook_graph manhattan_length [S8])
              node_B node_A notebook_solve_options with
  | inl P => map hop_id (path_hops P) = [8%Z] /\
             map forward (path_hops P) = [false]
  | inr _ => False
  end.
Proof.
  split; [reflexivity|]. split.
  - eexists. split; [vm_compute; reflexivity|].
    split; [reflexivity|]. vm_compute. right. left. reflexivity.
  - vm_compute. split; reflexivity.
Qed.

(** C7, amended. The notebook builds an undirected graph and does not
    pass the [oneway] column: every record with at least two vertices
    and a weight becomes an edge, and every edge of the graph can be
    taken in both directions, whatever its [oneway] value. *)
Theorem notebook_graph_undirected (osm_small : list osm_row) :
  directed (notebook_graph ST_Length osm_small) = false /\
  (forall e, In e (edges (notebook_graph ST_Length osm_small)) ->
     In {| via := e; forward := true |}
        (traversals (notebook_graph ST_Length osm_small)) /\
     In {| via := e; forward := false |}
        (traversals (notebook_graph ST_Length osm_small))) /\
  (forall r sg,
     In r osm_small ->
     segment_of (notebook_weights ST_Length osm_small)
                {| EDGE_ID := osm_id r; EDGE_WKTLINE := WKT r |} = Some sg ->
     exists e, In e (edges (notebook_graph ST_Length osm_small)) /\
               edge_id e = osm_id r /\
               In {| via := e; forward := true |}
                  (traversals (notebook_graph ST_Length osm_small)) /\
               In {| via := e; forward := false |}
                  (traversals (notebook_graph ST_Length osm_small))).
Proof.
  split; [reflexivity|].
  split; [intros e He; apply traversals_both; [reflexivity|exact He]|].
  intros r sg Hr Hs.
  assert (Hin : In sg (segments (notebook_edges osm_small)
                                (notebook_weights ST_Length osm_small))).
  { apply (segments_in _ _ {| EDGE_ID := osm_id r; EDGE_WKTLINE := WKT r |});
      [|exact Hs].
    unfold notebook_edges. apply in_map_iff. exists r. auto. }
  destruct (build_has_edge false
              (merge_tolerance notebook_create_options) _ _ sg Hin)
    as (e & He & Hid & _).
  exists e. split; [exact He|]. split.
  - rewrite Hid. unfold segment_of in Hs. cbn in Hs.
    destruct (WKT r) as [|p [|q tl]]; try discriminate.
    destruct (weight_of _ _); [|discriminate].
    inversion Hs. reflexivity.
  - apply traversals_both; [reflexivity|exact He].
Qed.

Lemma notebook_inputs_agree (t1 t2 : list osm_row) :
  Forall2 same_geometry_and_light t1 t2 ->
  notebook_edges t1 = notebook_edges t2 /\
  notebook_weights ST_Length t1 = notebook_weights ST_Length t2.
Proof.
  induction 1 as [|r1 r2 t1 t2 (Hid & Hg & Hl) _ [IH1 IH2]];
    [split; reflexivity|].
  unfold notebook_edges, notebook_weights in *. cbn [map].
  rewrite IH1, IH2. unfold weight_expr. rewrite Hid, Hg, Hl.
  split; reflexivity.
Qed.

(** C10. Two tables that agree, record by record, on identifier,
    geometry and light, and differ in any of the other columns, give
    the same components, the same graph with the same weights, the
    same registry after [create_graph], and the same answer to every
    [solve]. *)
Theorem weights_depend_on_geometry_and_light (t1 t2 : list osm_row) :
  Forall2 same_geometry_and_light t1 t2 ->
  notebook_weights ST_Length t1 = notebook_weights ST_Length t2 /\
  notebook_graph ST_Length t1 = notebook_graph ST_Length t2 /\
  (forall db, notebook_create_graph ST_Length db t1
              = notebook_create_graph ST_Length db t2) /\
  (forall source destination options,
      solve (notebook_graph ST_Length t1) source destination options
      = solve (notebook_graph ST_Length t2) source destination options) /\
  (forall db source destination options,
      solve_graph (fst (notebook_create_graph ST_Length db t1))
                  dc_osm_graph source destination options
      = solve_graph (fst (notebook_create_graph ST_Length db t2))
                    dc_osm_graph source destination options).
Proof.
  intros H. destruct (notebook_inputs_agree t1 t2 H) as [He Hw].
  unfold notebook_graph, notebook_create_graph. rewrite He, Hw.
  repeat split; reflexivity.
Qed.

End NotebookGraphProperties.

(* ------------------------------------------------------------------ *)
(** ** The weight of an edge of the built graph *)
(* ------------------------------------------------------------------ *)

Section EdgeWeightProperties.

Variable ST_Length : linestring -> Q.

Lemma segment_of_some (ws : list weight_component) (e0 : edge_component)
      (sg : segment) :
  segment_of ws e0 = Some sg ->
  seg_id sg = EDGE_ID e0 /\
  weight_of ws (EDGE_ID e0) = Some (seg_weight sg).
Proof.
  unfold segment_of. destruct (EDGE_WKTLINE e0) as [|p [|q tl]];
    try discriminate.
  destruct (weight_of ws (EDGE_ID e0)) as [w|]; [|discriminate].
  intros H. inversion H. cbn. auto.
Qed.

Lemma segments_origin (es : list edge_component) (ws : list weight_component)
      (sg : segment) :
  In sg (segments es ws) ->
  exists e0, In e0 es /\ segment_of ws e0 = Some sg.
Proof.
  unfold segments. rewrite in_flat_map. intros (e0 & He0 & H).
  exists e0. split; [exact He0|].
  destruct (segment_of ws e0) as [sg'|]; [|destruct H].
  destruct H as [<-|[]]. reflexivity.
Qed.

(** Every edge of the built graph is the edge of a kept segment. *)
Lemma build_edge_origin (d : bool) (tol : Q) (es : list edge_component)
      (ws : list weight_component) (e : GraphEdge) :
  In e (edges (build d tol es ws)) ->
  exists sg, In sg (segments es ws) /\
             edge_id e = seg_id sg /\ weight e = seg_weight sg.
Proof.
  intros He. destruct (In_nth_error _ _ He) as [k Hk].
  assert (Hlen : (k < List.length (segments es ws))%nat).
  { apply nth_error_bound in Hk. cbn in Hk.
    rewrite edges_of_length in Hk. exact Hk. }
  destruct (nth_error (segments es ws) k) as [sg|] eqn:Hs;
    [|apply nth_error_None in Hs; lia].
  cbn [build edges] in Hk. rewrite (edges_of_nth _ _ 0 k sg Hs) in Hk.
  inversion Hk; subst e. exists sg.
  split; [eapply nth_error_In; exact Hs|]. cbn. auto.
Qed.

(** The weight found under an id is the weight expression of some record
    of the table that carries the id. *)
Lemma weight_of_notebook (t : list osm_row) (id : Z) (r : osm_row) :
  In r t -> osm_id r = id ->
  exists r', In r' t /\ osm_id r' = id /\
    weight_of (notebook_weights ST_Length t) id = weight_expr ST_Length r'.
Proof.
  induction t as [|a t IH]; intros Hr Hid; [destruct Hr|].
  unfold weight_of, notebook_weights. cbn [map find WEIGHTS_EDGE_ID].
  destruct (Z.eqb_spec (osm_id a) id) as [E|E].
  - exists a. split; [left; reflexivity|]. split; [exact E|reflexivity].
  - destruct Hr as [->|Hr]; [contradiction|].
    destruct (IH Hr Hid) as (r' & Hr' & Hid' & Hw).
    exists r'. split; [right; exact Hr'|]. split; [exact Hid'|exact Hw].
Qed.

Lemma polyline_two_vertices (g : linestring) :
  (2 <= ST_NPoints g)%Z -> exists p q tl, g = p :: q :: tl.
Proof.
  unfold ST_NPoints. destruct g as [|p [|q tl]]; cbn; try lia.
  intros _. exists p, q, tl. reflexivity.
Qed.



End EdgeWeightProperties.

(* ------------------------------------------------------------------ *)
(** ** The theorems at sample inputs *)
(* ------------------------------------------------------------------ *)



Lemma merge_is_transitive_quotient_witness :
  within 1 (0, 0) (2, 0) = false /\
  same_node 1 [(0, 0); (1, 0); (2, 0)] (0, 0) (2, 0) /\
  exists n,
    In n (nodes (build false 2 (notebook_edges [S1; S6])
                       (notebook_weights manhattan_length [S1; S6]))) /\
    tol_equiv 2 (endpoints (segments (notebook_edges [S1; S6])
                              (notebook_weights manhattan_length [S1; S6])))
              (102, 0) (coordinate n).
Proof.
  split; [reflexivity|].
  split.
  - destruct (merge_is_transitive_quotient 1 [(0, 0); (1, 0); (2, 0)])
      as (_ & _ & H & _).
    apply (H (0, 0) (1, 0) (2, 0)).
    + left. reflexivity.
    + right. left. reflexivity.
    + right. right. left. reflexivity.
    + reflexivity.
    + reflexivity.
  - destruct (merge_is_transitive_quotient 2 [])
      as (_ & _ & _ & _ & _ & _ & _ & _ & _ & HN & _).
    apply (HN false (notebook_edges [S1; S6])
              (notebook_weights manhattan_length [S1; S6]) (102, 0)).
    right. right. right. left. reflexivity.
Defined.


Lemma solve_disconnected_no_path_witness :
  solve islands_graph node_A (600, 500) notebook_solve_options
  = inr NoPathError.
Proof.
  destruct solve_disconnected_no_path as [H _].
  apply (H islands_graph node_A (600, 500) notebook_solve_options
           {| node_id := 0; coordinate := node_A |}
           {| node_id := 3; coordinate := (600, 500) |}).
  - vm_compute. discriminate.
  - vm_compute. reflexivity.
  - vm_compute. reflexivity.
  - intros [p Hp]. cbn [node_id] in Hp.
    assert (Hreach : forall q v, is_path islands_graph 0 q v ->
                                 v = 0%nat \/ v = 1%nat).
    { intros q v Hq.
      induction Hq as [|q x h Hq IH Hh Hf]; [left; reflexivity|].
      vm_compute in Hh.
      destruct Hh as [<-|[<-|[<-|[<-|[]]]]]; cbn in Hf |- *;
        destruct IH; subst x; try discriminate; auto. }
    destruct (Hreach p 3%nat Hp); discriminate.
Defined.

Lemma solve_no_node_in_range_witness :
  solve offset_graph (0, 0) (102, 0) {| max_solution_radius := 1 |}
  = inr NoNodeInRangeError.
Proof.
  destruct solve_no_node_in_range as [H _].
  apply (H offset_graph (0, 0) (102, 0) {| max_solution_radius := 1 |}).
  - vm_compute. discriminate.
  - left. intros n Hn. vm_compute in Hn.
    destruct Hn as [<-|[<-|[]]]; reflexivity.
Defined.

Lemma notebook_graph_undirected_witness :
  exists e,
    In e (edges (notebook_graph manhattan_length [S8])) /\
    edge_id e = 8%Z /\
    In {| via := e; forward := false |}
       (traversals (notebook_graph manhattan_length [S8])).
Proof.
  destruct (notebook_graph_undirected manhattan_length [S8]) as (_ & _ & H).
  destruct (H S8 {| seg_id := 8; seg_from := node_A; seg_to := node_B;
                    seg_weight := 100 / (inject_Z 2 - inject_Z 1)
                                  + (inject_Z 1 - 1) * penalty_scale |})
    as (e & He & Hid & _ & Hback).
  - left. reflexivity.
  - reflexivity.
  - exists e. split; [exact He|]. split; [exact Hid|exact Hback].
Defined.

Lemma weights_depend_on_geometry_and_light_witness :
  oneway S1 <> oneway S1_motorway /\
  maxspeed S1 <> maxspeed S1_motorway /\
  notebook_graph manhattan_length [S1; S2]
  = notebook_graph manhattan_length [S1_motorway; S2].
Proof.
  split; [discriminate|]. split; [discriminate|].
  apply (weights_depend_on_geometry_and_light
           manhattan_length [S1; S2] [S1_motorway; S2]).
  constructor; [repeat split|].
  constructor; [repeat split|]. constructor.
Defined.

(* ------------------------------------------------------------------ *)
(** ** Loading the beauty scores *)
(* ------------------------------------------------------------------ *)

Section BeautyLoadProperties.

Import Py.

Lemma getitem_inl (v : value) (key : string) (x : value) :
  getitem v key = inl x <-> exists d, v = PDict d /\ lookup key d = Some x.
Proof.
  split.
  - destruct v as [| | | | |d]; cbn; try discriminate.
    destruct (lookup key d) as [y|] eqn:E; [|discriminate].
    intros H. inversion H; subst y. exists d. auto.
  - intros (d & -> & H). cbn. rewrite H. reflexivity.
Qed.

Lemma ordered_dict_record (lat lon sc : value) :
  OrderedDict (beauty_record lat lon sc) = beauty_record lat lon sc.
Proof. reflexivity. Qed.

Lemma point_record_inl (k : value) (r : list (string * value)) :
  point_record k = inl r <->
  exists lat lon sc, beauty_point k lat lon sc /\ r = beauty_record lat lon sc.
Proof.
  split.
  - unfold point_record. intros H.
    destruct (getitem k "location") as [loc|] eqn:E1; [|discriminate].
    cbn [bind] in H.
    destruct (getitem loc "gps_latitude_decimal") as [lat|] eqn:E2;
      [|discriminate].
    cbn [bind] in H.
    destruct (getitem loc "gps_longitude_decimal") as [lon|] eqn:E3;
      [|discriminate].
    cbn [bind] in H.
    destruct (getitem k "score") as [sc|] eqn:E4; [|discriminate].
    cbn [bind] in H. inversion H.
    apply getitem_inl in E1, E2, E3, E4.
    destruct E1 as (d & -> & Hloc). destruct E2 as (l & -> & Hlat).
    destruct E3 as (l' & El & Hlon). inversion El; subst l'.
    destruct E4 as (d' & Ed & Hsc). inversion Ed; subst d'.
    exists lat, lon, sc. split; [|reflexivity].
    exists d, l. auto.
  - intros (lat & lon & sc & (d & loc & -> & Hloc & Hlat & Hlon & Hsc) & ->).
    unfold point_record. cbn. rewrite Hloc. cbn. rewrite Hlat. cbn.
    rewrite Hlon. cbn. rewrite Hsc. reflexivity.
Qed.

Lemma comprehension_inl {A B : Type} (f : A -> result B)
      (l : list A) (bs : list B) :
  comprehension f l = inl bs <-> Forall2 (fun a b => f a = inl b) l bs.
Proof.
  revert bs. induction l as [|a l IH]; intros bs; cbn.
  - split.
    + intros H. inversion H. constructor.
    + intros H. inversion H. reflexivity.
  - destruct (f a) as [b|e] eqn:Ea; cbn.
    + destruct (comprehension f l) as [bs'|e] eqn:El; cbn.
      * split.
        -- intros H. inversion H; subst bs.
           constructor; [exact Ea|]. apply IH. reflexivity.
        -- intros H. inversion H as [|a0 b0 l0 bs0 Hb Hrest]; subst.
           apply IH in Hrest. inversion Hrest; subst bs0. congruence.
      * split; [discriminate|].
        intros H. inversion H as [|a0 b0 l0 bs0 Hb Hrest]; subst.
        apply IH in Hrest. discriminate.
    + split; [discriminate|].
      intros H. inversion H as [|a0 b0 l0 bs0 Hb Hrest]; subst. congruence.
Qed.

(** X6. The load succeeds on a list exactly when every item is a dict
    with a [score] and a [location] dict holding both coordinates; the
    result then has one record per item, in the order of the items, and
    each record holds the item's three values unchanged under the keys
    latitude, longitude, beauty. *)
Theorem pts_succeeds_iff (ks : list Py.value)
        (rs : list (list (string * Py.value))) :
  pts (PList ks) = inl rs <->
  Forall2 (fun k r => exists lat lon sc,
               beauty_point k lat lon sc /\ r = beauty_record lat lon sc)
          ks rs.
Proof.
  unfold pts. cbn [iter bind]. rewrite comprehension_inl.
  split; intros H; induction H; constructor; try assumption;
    apply point_record_inl; assumption.
Qed.

Lemma comprehension_first_error {A B : Type} (f : A -> result B)
      (good : list A) (bad : A) (rest : list A) (e : exception) :
  Forall (fun a => exists b, f a = inl b) good ->
  f bad = inr e ->
  comprehension f (good ++ bad :: rest) = inr e.
Proof.
  intros Hg Hb. induction Hg as [|a good (b & Ha) _ IH]; cbn.
  - rewrite Hb. reflexivity.
  - rewrite Ha. cbn. rewrite IH. reflexivity.
Qed.

(** X7. The first item that cannot be converted decides the outcome: its
    exception is the exception of the whole load, no record is produced,
    and the items after it are never looked at. *)
Theorem pts_first_error (good : list Py.value) (bad : Py.value)
        (rest : list Py.value) (e : Py.exception) :
  Forall (fun k => exists lat lon sc, beauty_point k lat lon sc) good ->
  point_record bad = inr e ->
  pts (PList (good ++ bad :: rest)) = inr e.
Proof.
  intros Hg Hb. unfold pts. cbn [iter bind].
  apply comprehension_first_error; [|exact Hb].
  apply Forall_forall. intros k Hk.
  rewrite Forall_forall in Hg. destruct (Hg k Hk) as (lat & lon & sc & H).
  exists (beauty_record lat lon sc). apply point_record_inl.
  exists lat, lon, sc. auto.
Qed.

(** X8. Which exception an item raises: not a dict, [TypeError]; no
    [location], [KeyError('location')] even when [score] is missing too;
    a [location] that is not a dict, [TypeError]; then the latitude key,
    then the longitude key, and only then [KeyError('score')]. *)
Theorem point_record_exception :
  (forall k, (forall d, k <> PDict d) -> point_record k = inr TypeError) /\
  (forall d, lookup "location" d = None ->
     point_record (PDict d) = inr (KeyError "location")) /\
  (forall d loc, lookup "location" d = Some loc ->
     (forall l, loc <> PDict l) ->
     point_record (PDict d) = inr TypeError) /\
  (forall d l, lookup "location" d = Some (PDict l) ->
     lookup "gps_latitude_decimal" l = None ->
     point_record (PDict d) = inr (KeyError "gps_latitude_decimal")) /\
  (forall d l lat, lookup "location" d = Some (PDict l) ->
     lookup "gps_latitude_decimal" l = Some lat ->
     lookup "gps_longitude_decimal" l = None ->
     point_record (PDict d) = inr (KeyError "gps_longitude_decimal")) /\
  (forall d l lat lon, lookup "location" d = Some (PDict l) ->
     lookup "gps_latitude_decimal" l = Some lat ->
     lookup "gps_longitude_decimal" l = Some lon ->
     lookup "score" d = None ->
     point_record (PDict d) = inr (KeyError "score")).
Proof.
  split.
  { intros k Hk. destruct k as [| | | | |d]; try reflexivity.
    exfalso. apply (Hk d). reflexivity. }
  split.
  { intros d H. unfold point_record. cbn. rewrite H. reflexivity. }
  split.
  { intros d loc H Hl. unfold point_record. cbn. rewrite H. cbn.
    destruct loc as [| | | | |l]; try reflexivity.
    exfalso. apply (Hl l). reflexivity. }
  split.
  { intros d l H H1. unfold point_record. cbn. rewrite H. cbn.
    rewrite H1. reflexivity. }
  split.
  { intros d l lat H H1 H2. unfold point_record. cbn. rewrite H. cbn.
    rewrite H1. cbn. rewrite H2. reflexivity. }
  intros d l lat lon H H1 H2 H3. unfold point_record. cbn. rewrite H. cbn.
  rewrite H1. cbn. rewrite H2. cbn. rewrite H3. reflexivity.
Qed.

(** X9. The conversion reads nothing but [score], [location] and the two
    coordinates of [location]: two dicts that agree on these give the
    same record, or raise the same exception, whatever else they hold. *)
Theorem point_record_ignores_other_keys (d d' : list (string * Py.value)) :
  lookup "score" d = lookup "score" d' ->
  same_location (lookup "location" d) (lookup "location" d') ->
  point_record (PDict d) = point_record (PDict d').
Proof.
  intros Hs Hl. unfold point_record. cbn [getitem]. rewrite <- Hs.
  destruct Hl as [Hl|(l & l' & H1 & H2 & Hlat & Hlon)].
  - rewrite <- Hl. reflexivity.
  - rewrite H1, H2. cbn [bind getitem]. rewrite <- Hlat, <- Hlon.
    reflexivity.
Qed.

(** X10. When the file does not hold a list: an empty dict and an empty
    string load nothing without any exception; every other value that is
    not a list raises [TypeError], also a dict that wraps the list of
    points under some key. *)
Theorem pts_of_non_list (v : Py.value) :
  (forall l, v <> PList l) ->
  (pts v = inl [] <-> v = PDict [] \/ v = PStr EmptyString) /\
  (pts v <> inl [] -> pts v = inr TypeError).
Proof.
  intros Hv. destruct v as [| |x|s|l|d].
  - split; [|reflexivity]. split; [discriminate|intros [H|H]; discriminate].
  - split; [|reflexivity]. split; [discriminate|intros [H|H]; discriminate].
  - split; [|reflexivity]. split; [discriminate|intros [H|H]; discriminate].
  - destruct s as [|c s].
    + split; [|intros H; exfalso; apply H; reflexivity].
      split; [right; reflexivity|reflexivity].
    + split; [|reflexivity].
      split; [discriminate|intros [H|H]; discriminate].
  - exfalso. apply (Hv l). reflexivity.
  - destruct d as [|[k x] d].
    + split; [|intros H; exfalso; apply H; reflexivity].
      split; [left; reflexivity|reflexivity].
    + split; [|reflexivity].
      split; [discriminate|intros [H|H]; discriminate].
Qed.

Lemma comprehension_in {A B : Type} (f : A -> result B)
      (l : list A) (bs : list B) (b : B) :
  comprehension f l = inl bs -> In b bs -> exists a, In a l /\ f a = inl b.
Proof.
  intros H Hb. apply comprehension_inl in H.
  induction H as [|a b0 l bs Hab _ IH]; [destruct Hb|].
  destruct Hb as [<-|Hb].
  - exists a. split; [left; reflexivity|exact Hab].
  - destruct (IH Hb) as (a' & Ha' & E). exists a'. split; [right|]; assumption.
Qed.

(** X11. Every record the load produces has exactly the keys latitude,
    longitude, beauty, in that order: the column names of
    [location_beauty], each once, but not in the order of the table, which
    starts with longitude. *)
Theorem pts_keys_match_columns (all_pts : Py.value)
        (rs : list (list (string * Py.value))) (r : list (string * Py.value)) :
  pts all_pts = inl rs -> In r rs ->
  map fst r = ["latitude"; "longitude"; "beauty"]%string /\
  Permutation (map fst r) location_beauty_columns /\
  map fst r <> location_beauty_columns.
Proof.
  intros H Hr. unfold pts in H.
  destruct (iter all_pts) as [ks|e]; [|discriminate]. cbn [bind] in H.
  destruct (comprehension_in _ _ _ _ H Hr) as (k & _ & Hk).
  apply point_record_inl in Hk. destruct Hk as (lat & lon & sc & _ & ->).
  cbn. split; [reflexivity|]. split; [|discriminate].
  apply perm_swap.
Qed.

End BeautyLoadProperties.

(* ------------------------------------------------------------------ *)
(** ** More on the weight expression *)
(* ------------------------------------------------------------------ *)

Section WeightExpressionProperties.

Variable ST_Length : linestring -> Q.

Lemma weight_expr_density (r : osm_row) (c : Q) :
  (2 <= ST_NPoints (WKT r))%Z -> light r = Some c ->
  exists w, weight_expr ST_Length r = Some w /\
    w == length_density (ST_Length (WKT r)) (ST_NPoints (WKT r))
         + (1 - c) * 20.
Proof.
  intros Hn Hl. eexists.
  split; [apply (weight_expr_defined ST_Length r c Hn Hl)|].
  unfold length_density, penalty_scale.
  rewrite (npoints_minus_one r Hn). reflexivity.
Qed.

(** X2. More light never costs more: of two segments with the same
    polyline, the one with at least as much light weighs no more. *)
Theorem weight_expr_more_light_lighter (r1 r2 : osm_row) (c1 c2 : Q) :
  (2 <= ST_NPoints (WKT r1))%Z ->
  WKT r1 = WKT r2 ->
  light r1 = Some c1 -> light r2 = Some c2 ->
  c1 <= c2 ->
  exists w1 w2,
    weight_expr ST_Length r1 = Some w1 /\
    weight_expr ST_Length r2 = Some w2 /\
    w2 <= w1.
Proof.
  intros Hn Hg Hl1 Hl2 Hc.
  destruct (weight_expr_density r1 c1 Hn Hl1) as (w1 & E1 & H1).
  destruct (weight_expr_density r2 c2) as (w2 & E2 & H2);
    [rewrite <- Hg; exact Hn|exact Hl2|].
  exists w1, w2. split; [exact E1|]. split; [exact E2|].
  rewrite <- Hg in H2.
  set (d := length_density _ _) in *. lra.
Qed.

(** X3. With a light between 0 and 1 the weight lies between the
    length-density term and that term plus 20: light never moves the
    cost of a segment by more than 20. *)
Theorem weight_expr_penalty_bounds (r : osm_row) (c : Q) :
  (2 <= ST_NPoints (WKT r))%Z -> light r = Some c ->
  0 <= c -> c <= 1 ->
  exists w,
    weight_expr ST_Length r = Some w /\
    length_density (ST_Length (WKT r)) (ST_NPoints (WKT r)) <= w /\
    w <= length_density (ST_Length (WKT r)) (ST_NPoints (WKT r)) + 20.
Proof.
  intros Hn Hl H0 H1.
  destruct (weight_expr_density r c Hn Hl) as (w & E & H).
  exists w. split; [exact E|]. split; lra.
Qed.

Lemma density_antitone (len : Q) (n1 n2 : Z) :
  0 <= len -> (2 <= n1)%Z -> (n1 <= n2)%Z ->
  length_density len n2 <= length_density len n1.
Proof.
  intros Hlen H1 H2. unfold length_density.
  rewrite !Z.max_l by lia.
  set (a := inject_Z (n1 - 1)). set (b := inject_Z (n2 - 1)).
  assert (Ha : 0 < a).
  { unfold a. change 0 with (inject_Z 0). rewrite <- Zlt_Qlt. lia. }
  assert (Hab : a <= b).
  { unfold a, b. rewrite <- Zle_Qle. lia. }
  assert (Hb : 0 < b) by lra.
  apply Qle_shift_div_l; [exact Ha|].
  assert (E : len / b * a == len * a / b).
  { field. lra. }
  rewrite E. apply Qle_shift_div_r; [exact Hb|]. nra.
Qed.

(** X4. The weight depends on how finely a road is drawn: of two
    segments of equal length and light, the one with more vertices weighs
    no more, because the length is divided by the number of vertices
    minus one. *)
Theorem weight_expr_more_vertices_lighter (r1 r2 : osm_row) (c : Q) :
  (2 <= ST_NPoints (WKT r1))%Z ->
  (ST_NPoints (WKT r1) <= ST_NPoints (WKT r2))%Z ->
  light r1 = Some c -> light r2 = Some c ->
  ST_Length (WKT r1) == ST_Length (WKT r2) ->
  0 <= ST_Length (WKT r1) ->
  exists w1 w2,
    weight_expr ST_Length r1 = Some w1 /\
    weight_expr ST_Length r2 = Some w2 /\
    w2 <= w1.
Proof.
  intros Hn1 Hn Hl1 Hl2 Hlen Hpos.
  destruct (weight_expr_density r1 c Hn1 Hl1) as (w1 & E1 & H1).
  destruct (weight_expr_density r2 c) as (w2 & E2 & H2); [lia|exact Hl2|].
  exists w1, w2. split; [exact E1|]. split; [exact E2|].
  assert (Hd : length_density (ST_Length (WKT r2)) (ST_NPoints (WKT r2))
               <= length_density (ST_Length (WKT r1)) (ST_NPoints (WKT r1))).
  { assert (E : length_density (ST_Length (WKT r2)) (ST_NPoints (WKT r2))
                == length_density (ST_Length (WKT r1)) (ST_NPoints (WKT r2))).
    { unfold length_density. rewrite Hlen. reflexivity. }
    rewrite E. apply density_antitone; assumption. }
  lra.
Qed.

(** X12. The two component lists handed to [create_graph] line up: they
    carry the ids of the table in the order of the table, so every edge
    component has a weight component of the same id; and when the ids of
    the table are distinct, the weight component found under a record's
    id carries the weight of that record and of no other. *)
Theorem notebook_components_aligned (osm_small : list osm_row) :
  map EDGE_ID (notebook_edges osm_small) = map osm_id osm_small /\
  map WEIGHTS_EDGE_ID (notebook_weights ST_Length osm_small)
  = map osm_id osm_small /\
  (forall e, In e (notebook_edges osm_small) ->
     exists w, In w (notebook_weights ST_Length osm_small) /\
               WEIGHTS_EDGE_ID w = EDGE_ID e) /\
  (NoDup (map osm_id osm_small) ->
   forall r w, In r osm_small ->
     In w (notebook_weights ST_Length osm_small) ->
     WEIGHTS_EDGE_ID w = osm_id r ->
     WEIGHTS_VALUESPECIFIED w = weight_expr ST_Length r).
Proof.
  unfold notebook_edges, notebook_weights.
  split; [rewrite map_map; reflexivity|].
  split; [rewrite map_map; reflexivity|].
  split.
  - intros e He. apply in_map_iff in He. destruct He as (r & <- & Hr).
    eexists. split; [apply in_map_iff; exists r; split; [reflexivity|exact Hr]|].
    reflexivity.
  - intros Hnd r w Hr Hw Hid.
    apply in_map_iff in Hw. destruct Hw as (r' & <- & Hr'). cbn in *.
    rewrite (nodup_map_injective osm_id osm_small r' r Hnd Hr' Hr Hid).
    reflexivity.
Qed.

End WeightExpressionProperties.

(* ------------------------------------------------------------------ *)
(** ** The further theorems at sample inputs *)
(* ------------------------------------------------------------------ *)

Lemma weight_expr_more_light_lighter_witness :
  exists w1 w2,
    weight_expr manhattan_length S2 = Some w1 /\
    weight_expr manhattan_length S4 = Some w2 /\
    w2 <= w1.
Proof.
  apply (weight_expr_more_light_lighter manhattan_length S2 S4 0 (1 # 2)).
  - vm_compute. discriminate.
  - reflexivity.
  - reflexivity.
  - reflexivity.
  - vm_compute. discriminate.
Defined.

Lemma weight_expr_penalty_bounds_witness :
  exists w, weight_expr manhattan_length S4 = Some w /\ w <= 100 + 20.
Proof.
  destruct (weight_expr_penalty_bounds manhattan_length S4 (1 # 2))
    as (w & E & _ & H).
  - vm_compute. discriminate.
  - reflexivity.
  - vm_compute. discriminate.
  - vm_compute. discriminate.
  - exists w. split; [exact E|].
    apply (Qle_trans _ _ _ H). vm_compute. discriminate.
Defined.

Lemma weight_expr_more_vertices_lighter_witness :
  exists w1 w2,
    weight_expr manhattan_length S1 = Some w1 /\
    weight_expr manhattan_length S9 = Some w2 /\
    w2 <= w1.
Proof.
  apply (weight_expr_more_vertices_lighter manhattan_length S1 S9 1).
  - vm_compute. discriminate.
  - vm_compute. discriminate.
  - reflexivity.
  - reflexivity.
  - reflexivity.
  - vm_compute. discriminate.
Defined.

Lemma notebook_components_aligned_witness :
  NoDup (map osm_id [S1; S2]) /\
  WEIGHTS_VALUESPECIFIED
    {| WEIGHTS_EDGE_ID := 2;
       WEIGHTS_VALUESPECIFIED := weight_expr manhattan_length S2 |}
  = weight_expr manhattan_length S2.
Proof.
  assert (Hnd : NoDup (map osm_id [S1; S2])).
  { repeat constructor; cbn; intuition discriminate. }
  split; [exact Hnd|].
  destruct (notebook_components_aligned manhattan_length [S1; S2])
    as (_ & _ & _ & H).
  apply (H Hnd S2).
  - right. left. reflexivity.
  - right. left. reflexivity.
  - reflexivity.
Defined.

Lemma pts_first_error_witness :
  pts (Py.PList [sample_point 38 (-77) (1 # 2); unscored_point; Py.PNum 3])
  = inr (Py.KeyError "location").
Proof.
  apply (pts_first_error [sample_point 38 (-77) (1 # 2)] unscored_point
                         [Py.PNum 3] (Py.KeyError "location")).
  - constructor; [|constructor].
    exists (Py.PNum 38), (Py.PNum (-77)), (Py.PNum (1 # 2)).
    eexists. eexists. repeat split; reflexivity.
  - reflexivity.
Defined.

Lemma point_record_exception_witness :
  point_record unscored_point = inr (Py.KeyError "location").
Proof.
  destruct point_record_exception as (_ & H & _).
  apply H. reflexivity.
Defined.

Lemma point_record_ignores_other_keys_witness :
  point_record (sample_point 38 (-77) (1 # 2))
  = point_record (bare_point 38 (-77) (1 # 2)).
Proof.
  apply point_record_ignores_other_keys.
  - reflexivity.
  - right. eexists. eexists. repeat split; reflexivity.
Defined.

Lemma pts_of_non_list_witness :
  pts wrapped_points = inr Py.TypeError.
Proof.
  apply (pts_of_non_list wrapped_points).
  - discriminate.
  - discriminate.
Defined.

Lemma pts_keys_match_columns_witness :
  Permutation ["latitude"; "longitude"; "beauty"]%string
              location_beauty_columns.
Proof.
  apply (pts_keys_match_columns
           (Py.PList [bare_point 38 (-77) (1 # 2)])
           [beauty_record (Py.PNum 38) (Py.PNum (-77)) (Py.PNum (1 # 2))]
           (beauty_record (Py.PNum 38) (Py.PNum (-77)) (Py.PNum (1 # 2)))).
  - reflexivity.
  - left. reflexivity.
Defined.
